(** * Contrast curves of pyKLIP_for_Webb: masking and calibration

    A shallow embedding of [pyKLIP_for_Webb/contrast.py]:

    - [mask_companions] and [mask_bar], the two maskers applied to a
      KLIP-subtracted cube before the raw contrast is measured;
    - the body that [cal_contrast_curve] runs for one data set: the reuse of
      the persisted injection table, the injection fluxes, the aggregation of
      the injection-and-recovery results and the calibrated curve.

    Pixels, separations and fluxes are IEEE 754 binary64 numbers, as in
    NumPy: Rocq's primitive floats.  NumPy arrays are a shape together with a
    row-major buffer and live in a heap, so that the copy made by
    [data.copy()] and the in-place assignments to it are distinct from the
    argument.  [.npy] artifacts live in a map from paths to arrays.

    [cal_contrast_curve] calls [Table] and [least_squares] without importing
    them: they are read as [astropy.table.Table] and
    [scipy.optimize.least_squares].  The methods of [self] that it calls are
    not in [contrast.py]; they are parameters of the model.

    The development also covers:

    - the body that [raw_contrast_curve] runs for one observation: the
      parsing of the key, the masking, the contrast of each frame and the two
      files that [cal_contrast_curve] loads;
    - of [spaceKLIP/rampfit.py], the methods [run_step], [do_nircam_refpix]
      and [do_saturation] of [Coron1Pipeline], with the data quality flags
      as integers and the steps of the jwst pipeline as a parameter, and the
      functions [run_ramp_fitting] and [stsci_ramp_fitting] over the files
      that [glob] finds;
    - of [spaceKLIP/psf.py], the choice of the masks in [JWST_PSF.__init__],
      the instrument that [gen_offsetpsf] sets up and the recentring and
      coadding of [get_offsetpsf]; the routines of WebbPSF, SciPy and
      [utils] are parameters.

    Part I holds the model, Part II the properties. *)

From Stdlib Require Import ZArith Floats Lia Bool Sorted Ascii.
From stdpp Require Import gmap strings list.

(** * Part I: the model *)

(** ** Binary64 arithmetic used by the code *)

Module F64.

(** [x**2] on a NumPy array is [np.square]: one multiplication. *)
Definition square (x : float) : float := (x * x)%float.

(** Converting an index of [np.indices] (an int64) to float64. *)
Definition of_index (n : nat) : float :=
  PrimFloat.of_uint63 (Uint63.of_Z (Z.of_nat n)).

(** [np.pi], the binary64 number nearest to pi. *)
Definition np_pi : float := 0x1.921fb54442d18p+1%float.

(** [np.rad2deg]: multiplication by the constant [180/pi]. *)
Definition rad2deg (x : float) : float := (x * (180 / np_pi))%float.

(** C's [fmod]: the exact remainder of the truncated division, with the sign
    of the dividend.  It is always representable, so the rounding done by
    [binary_normalize] is the identity here. *)
Definition fmod (a b : float) : float :=
  match Prim2SF a, Prim2SF b with
  | S754_nan, _ | _, S754_nan => nan
  | S754_infinity _, _ => nan
  | _, S754_zero _ => nan
  | _, S754_infinity _ => a
  | S754_zero _, S754_finite _ _ _ => a
  | S754_finite sa ma ea, S754_finite _ mb eb =>
      let e := Z.min ea eb in
      let r := ((Z.pos ma * 2 ^ (ea - e)) mod (Z.pos mb * 2 ^ (eb - e)))%Z in
      SF2Prim (binary_normalize prec emax (if sa then (- r)%Z else r) e sa)
  end.

(** NumPy's [%] on float64 ([npy_divmod]): the remainder of the floored
    division, which takes the sign of the divisor. *)
Definition np_mod (a b : float) : float :=
  let m := fmod a b in
  if (b =? 0)%float then m
  else if (m =? 0)%float then (if (b <? 0)%float then (-0)%float else 0%float)
  else if xorb (b <? 0)%float (m <? 0)%float then (m + b)%float
  else m.

End F64.

(** The functions of the C math library that NumPy and Python call here and
    whose results IEEE 754 does not fix: they are parameters of the model. *)
Class Libm := {
  arctan2 : float -> float -> float;
  pow : float -> float -> float
}.

(** ** Python exceptions and stateful computations *)

Module Py.

Inductive exn : Type :=
| UserWarning (msg : string)
| FileNotFoundError (path : string)
| IndexError (msg : string)
| ValueError (msg : string)
| ReferenceError.

(** A computation over a state [S]: it returns a value or raises, and leaves
    a state behind in both cases. *)
Definition M (S A : Type) : Type := S -> (exn + A) * S.

Definition ret {S A : Type} (a : A) : M S A := fun s => (inr a, s).

Definition raise {S A : Type} (e : exn) : M S A := fun s => (inl e, s).

Definition bind {S A B : Type} (m : M S A) (k : A -> M S B) : M S B :=
  fun s =>
    match m s with
    | (inr a, s') => k a s'
    | (inl e, s') => (inl e, s')
    end.

(** [try: m except: handler] with a bare [except]. *)
Definition try_except {S A : Type} (m : M S A) (handler : M S A) : M S A :=
  fun s =>
    match m s with
    | (inr a, s') => (inr a, s')
    | (inl _, s') => handler s'
    end.

(** [for x in xs: body x] *)
Fixpoint for_each {S A : Type} (xs : list A) (body : A -> M S unit) : M S unit :=
  match xs with
  | [] => ret ()
  | x :: rest => bind (body x) (fun _ => for_each rest body)
  end.

End Py.

Import Py.

Notation "'let*' x ':=' m 'in' k" := (Py.bind m (fun x => k))
  (at level 10, x name, m at level 100, k at level 200, only parsing).

(** ** NumPy arrays and the heap they live in *)

Module Np.

(** An array of float64: its shape and its elements in row-major order. *)
Record ndarray : Type := NdArray { shape : list nat; buffer : list float }.

Definition loc : Type := positive.

Abbreviation heap := (gmap loc ndarray).

(** Reading the array a name is bound to.  A name of a running program is
    always bound; [ReferenceError] stands for a location outside the heap. *)
Definition deref (l : loc) : M heap ndarray :=
  fun h =>
    match h !! l with
    | Some a => (inr a, h)
    | None => (inl ReferenceError, h)
    end.

(** A new array object. *)
Definition alloc (a : ndarray) : M heap loc :=
  fun h => let l := fresh (dom h) in (inr l, <[l := a]> h).

(** An assignment into the array at [l]. *)
Definition update (l : loc) (f : ndarray -> ndarray) : M heap unit :=
  fun h =>
    match h !! l with
    | Some a => (inr tt, <[l := f a]> h)
    | None => (inl ReferenceError, h)
    end.

(** [a.copy()] *)
Definition copy (l : loc) : M heap loc := let* a := deref l in alloc a.

(** [yy, xx = np.indices((H, W))], each grid in row-major order: the pixel
    at flat position [j] is in row [j / W] and column [j mod W]. *)
Definition indices (H W : nat) : list nat * list nat :=
  ((fun j => j / W) <$> seq 0 (H * W), (fun j => j mod W) <$> seq 0 (H * W)).

(** The entry of an [H x W] boolean mask that applies to position [i] of the
    buffer of a [K x H x W] cube: [a[:, mask]] selects the same pixels in
    every frame. *)
Definition frame_mask (mask : list bool) (i : nat) : bool :=
  default false (mask !! (i mod length mask)).

(** [a[:, mask] = v] *)
Definition setitem_mask (mask : list bool) (v : float) (a : ndarray) : ndarray :=
  NdArray (shape a) (imap (fun i d => if frame_mask mask i then v else d) (buffer a)).

(** [a[:, mask] = src[:, mask]] for [src] of the shape of [a]. *)
Definition setitem_mask_from (mask : list bool) (src a : ndarray) : ndarray :=
  NdArray (shape a)
    (imap (fun i d => if frame_mask mask i then default d (buffer src !! i) else d)
       (buffer a)).

(** [a[:] = v] *)
Definition fill (v : float) (a : ndarray) : ndarray :=
  NdArray (shape a) (replicate (length (buffer a)) v).

(** [a[f, y, x]] of a cube; [None] when [a] is not 3-D or an index is out of
    bounds. *)
Definition pixel (a : ndarray) (f y x : nat) : option float :=
  match shape a with
  | [K; H; W] =>
      if bool_decide (f < K ∧ y < H ∧ x < W)
      then buffer a !! (f * (H * W) + y * W + x)
      else None
  | _ => None
  end.

(** The buffer has one element per index of the shape. *)
Definition well_formed (a : ndarray) : Prop :=
  length (buffer a) = foldr Nat.mul 1 (shape a).

End Np.

Import Np.

(** ** The maskers *)

Module Masker.

(** The distance, in pixels, of pixel [(x, y)] from a companion at offset
    [(ra, de)] (mas), as line 437 computes it. *)
Definition companion_dist (pxsc : float) (cent : float * float) (ra de : float)
    (x y : nat) : float :=
  PrimFloat.sqrt
    (F64.square (F64.of_index x - cent.1 + ra / pxsc)
     + F64.square (F64.of_index y - cent.2 - de / pxsc))%float.

(** The pixel position that the specification gives a companion: RA grows
    to the left and Dec upwards. *)
Definition projected_position (pxsc : float) (cent : float * float) (ra de : float)
    : float * float :=
  (cent.1 - ra / pxsc, cent.2 + de / pxsc)%float.

(** [dist <= mrad] over the whole frame. *)
Definition companion_mask (pxsc : float) (cent : float * float) (mrad : float)
    (xx yy : list nat) (ra de : float) : list bool :=
  (fun d => (d <=? mrad)%float) <$> zip_with (companion_dist pxsc cent ra de) xx yy.

Definition mask_companions (data : loc) (pxsc : float) (cent : float * float)
    (mrad : float) (ra_off de_off : list float) : M heap loc :=
  let* a := deref data in
  match shape a with
  | [_; H; W] =>
      (* Mask out known companions. *)
      let* data_masked := copy data in
      let '(yy, xx) := indices H W in
      let* _ := for_each (zip ra_off de_off) (fun '(ra, de) =>
        update data_masked
          (setitem_mask (companion_mask pxsc cent mrad xx yy ra de) nan)) in
      ret data_masked
  | _ => raise (UserWarning "Data has invalid shape")
  end.

Section MaskBar.
Context {lm : Libm}.

(** The position angle of pixel [(x, y)], in degrees (line 477). *)
Definition position_angle (cent : float * float) (x y : nat) : float :=
  F64.np_mod
    (F64.rad2deg (-1 * arctan2 (F64.of_index x - cent.1) (F64.of_index y - cent.2)))
    360%float.

(** [(tt >= lo) & (tt <= hi)] over the whole frame. *)
Definition slice_mask (tt : list float) (range : float * float) : list bool :=
  (fun t => (range.1 <=? t)%float && (t <=? range.2)%float) <$> tt.

(** What one pass of the loop of [mask_bar] assigns: the array [c] with the
    pixels of the slice taken from the input [a]. *)
Definition restore_slice (cent : float * float) (H W : nat) (a : ndarray)
    (c : ndarray) (range : float * float) : ndarray :=
  setitem_mask_from
    (slice_mask (zip_with (position_angle cent) (indices H W).2 (indices H W).1) range)
    a c.

(** The position angle as the specification words it, "the arctan2 of
    (x-offset, y-offset) converted to degrees and normalized": without the
    change of sign of line 477.  It is compared with [position_angle]
    below. *)
Definition claimed_position_angle (cent : float * float) (x y : nat) : float :=
  F64.np_mod
    (F64.rad2deg (arctan2 (F64.of_index x - cent.1) (F64.of_index y - cent.2)))
    360%float.

(** The loop of lines 478-482, from index [i] on. *)
Fixpoint mask_bar_loop (data data_masked : loc) (tt : list float) (i : nat)
    (pa_ranges_bar : list (float * float)) : M heap unit :=
  match pa_ranges_bar with
  | [] => ret ()
  | range :: rest =>
      let* _ := if (i =? 0)%nat then update data_masked (fill nan) else ret () in
      let* a := deref data in
      let* _ := update data_masked (setitem_mask_from (slice_mask tt range) a) in
      mask_bar_loop data data_masked tt (S i) rest
  end.

Definition mask_bar (data : loc) (cent : float * float)
    (pa_ranges_bar : list (float * float)) : M heap loc :=
  let* a := deref data in
  match shape a with
  | [_; H; W] =>
      (* Mask out bar mask occulter. *)
      let* data_masked := copy data in
      let '(yy, xx) := indices H W in
      let tt := zip_with (position_angle cent) xx yy in
      let* _ := mask_bar_loop data data_masked tt 0 pa_ranges_bar in
      ret data_masked
  | _ => raise (UserWarning "Data has invalid shape")
  end.

End MaskBar.

End Masker.

(** ** NumPy and astropy routines called by [cal_contrast_curve] *)

Module Lib.

Definition lift {S A : Type} (r : exn + A) : M S A :=
  match r with
  | inr a => ret a
  | inl e => raise e
  end.

(** [l[i]] for a Python int [i]: negative indices count from the end. *)
Definition getitem {A : Type} (l : list A) (i : Z) : exn + A :=
  let n := Z.of_nat (length l) in
  let j := if (i <? 0)%Z then (i + n)%Z else i in
  if ((0 <=? j)%Z && (j <? n)%Z)%bool then
    match l !! Z.to_nat j with
    | Some a => inr a
    | None => inl (IndexError "index out of bounds")
    end
  else inl (IndexError "index out of bounds").

(** [xs[good]] for a boolean array [good]. *)
Definition bool_index {A : Type} (xs : list A) (good : list bool) : exn + list A :=
  if (length xs =? length good)%nat
  then inr (fst <$> filter (fun p => snd p = true) (zip xs good))
  else inl (IndexError "boolean index did not match indexed array").

(** [a / b] on 1-D arrays, with NumPy's broadcasting of a length-1 operand. *)
Definition np_divide (a b : list float) : exn + list float :=
  if (length a =? length b)%nat then inr (zip_with PrimFloat.div a b)
  else match a, b with
       | [x], _ => inr ((fun y => x / y)%float <$> b)
       | _, [y] => inr ((fun x => x / y)%float <$> a)
       | _, _ => inl (ValueError "operands could not be broadcast together")
       end.

(** [np.max]: the maximum, or NaN as soon as one element is NaN. *)
Definition np_max (xs : list float) : exn + float :=
  match xs with
  | [] => inl (ValueError "zero-size array to reduction operation maximum")
  | x :: rest =>
      inr (foldl (fun acc y =>
                    if is_nan acc then acc
                    else if is_nan y then y
                    else if (acc <? y)%float then y else acc) x rest)
  end.

(** The interval that [np.interp] looks [x] up in: [None] to the left of the
    samples, [length xp] to their right, otherwise the position reached by
    the scan [for (i = 1; i < len && x >= xp[i]; ++i)], minus one.  For
    increasing [xp] this is the interval with [xp[j] <= x < xp[j+1]]. *)
Fixpoint interp_scan (x : float) (rest : list float) (i : nat) : nat :=
  match rest with
  | [] => i
  | p :: rest' => if (p <=? x)%float then interp_scan x rest' (S i) else i
  end.

Definition interp_index (x : float) (xp : list float) : option nat :=
  match xp with
  | [] => None
  | p0 :: rest =>
      if (default p0 (last xp) <? x)%float then Some (length xp)
      else if (x <? p0)%float then None
      else Some (interp_scan x rest 0)
  end.

(** [np.interp(x, xp, fp)] at one point, for [xp] of the length of [fp] and
    not empty: the end values outside the samples (the defaults of [left]
    and [right]), the linear interpolant inside.  A curve of one sample has
    its value everywhere. *)
Definition interp1 (xp fp : list float) (x : float) : float :=
  match xp with
  | [_] => default nan (head fp)
  | _ =>
      if is_nan x then x
      else match interp_index x xp with
           | None => default nan (head fp)
           | Some j =>
               if (length xp <=? j)%nat then default nan (last fp)
               else
                 let x0 := default nan (xp !! j) in
                 let y0 := default nan (fp !! j) in
                 if (S j =? length xp)%nat then y0
                 else if (x0 =? x)%float then y0
                 else
                   let x1 := default nan (xp !! S j) in
                   let y1 := default nan (fp !! S j) in
                   let slope := ((y1 - y0) / (x1 - x0))%float in
                   let r := (slope * (x - x0) + y0)%float in
                   if is_nan r then
                     let r' := (slope * (x - x1) + y1)%float in
                     if (is_nan r' && (y0 =? y1)%float)%bool then y0 else r'
                   else r
           end
  end.

Definition np_interp (x xp fp : list float) : exn + list float :=
  match xp with
  | [] => inl (ValueError "array of sample points is empty")
  | _ :: _ =>
      if (length xp =? length fp)%nat then inr (interp1 xp fp <$> x)
      else inl (ValueError "fp and xp are not of the same length.")
  end.

(** NumPy's order on float64 when sorting: the usual one, with NaN last. *)
Definition sort_lt (a b : float) : bool :=
  ((a <? b)%float || (is_nan b && negb (is_nan a)))%bool.

(** The same order on the specification of binary64. *)
Definition sf_sort_lt (a b : spec_float) : bool :=
  SFltb a b || (negb (SFeqb b b) && negb (negb (SFeqb a a))).

(** The order that sorting by a key leaves between an element and a later
    one. *)
Definition sort_le {A : Type} (key : A -> float) (a b : A) : Prop :=
  sort_lt (key b) (key a) = false.

(** A stable sort by a key. *)
Fixpoint insert_by {A : Type} (key : A -> float) (x : A) (l : list A) : list A :=
  match l with
  | [] => [x]
  | y :: l' =>
      if sort_lt (key y) (key x) then y :: insert_by key x l' else x :: l
  end.

Definition sort_by {A : Type} (key : A -> float) (l : list A) : list A :=
  foldr (insert_by key) [] l.

(** [np.median] of an array without NaN and not empty: the mean ([np.mean],
    a sum divided by a count) of the one or two middle elements of the
    sorted array. *)
Definition median (xs : list float) : float :=
  let s := sort_by id xs in
  let n := length s in
  let lo := default nan (s !! (n / 2 - 1)) in
  let hi := default nan (s !! (n / 2)) in
  if Nat.even n then ((lo + hi) / 2)%float else (hi / 1)%float.

(** [np.nanmedian] of a 1-D array: the median of what is not NaN, and NaN
    when nothing is left. *)
Definition nanmedian (xs : list float) : float :=
  match filter (fun x => is_nan x = false) xs with
  | [] => nan
  | ys => median ys
  end.

(** Consecutive rows with equal keys ([!=] on float64: NaN differs from
    everything) form a group. *)
Fixpoint runs {A : Type} (key : A -> float) (l : list A) : list (list A) :=
  match l with
  | [] => []
  | x :: rest =>
      match runs key rest with
      | (y :: g) :: gs =>
          if (key x =? key y)%float then (x :: y :: g) :: gs
          else [x] :: (y :: g) :: gs
      | _ => [[x]]
      end
  end.

(** The rows of a group have equal keys, unless the group is a single row
    (a row whose key is NaN is a group of its own). *)
Definition same_key {A : Type} (key : A -> float) (g : list A) : Prop :=
  (∃ t, g = [t]) ∨ ∀ t1 t2, t1 ∈ g -> t2 ∈ g -> (key t1 =? key t2)%float = true.

(** The rows of two groups have different keys. *)
Definition other_key {A : Type} (key : A -> float) (g1 g2 : list A) : Prop :=
  ∀ t1 t2, t1 ∈ g1 -> t2 ∈ g2 -> (key t1 =? key t2)%float = false.

(** [Table.group_by(key)]: the rows sorted by the key (a stable sort), cut
    where the key changes. *)
Definition group_by {A : Type} (key : A -> float) (rows : list A) : list (list A) :=
  runs key (sort_by key rows).

End Lib.

Import Lib.

(** ** The calibrated contrast curve of one data set *)

Module Cal.

(** What a [.npy] artifact holds: a 1-D array (a column of the injection
    table, the fitted parameters) or a 2-D array (the raw curves, one row per
    KL mode, as [raw_contrast_curve] saves them). *)
Inductive npy : Type :=
| Arr1 (v : list float)
| Arr2 (rows : list (list float)).

(** The four columns of an injection table. *)
Record columns : Type := Columns {
  flux_all : list float;
  seps_all : list float;
  pas_all : list float;
  flux_retr_all : list float
}.

(** One row of the table [res]. *)
Record trial : Type := Trial {
  flux : float;
  seps : float;
  pas : float;
  flux_retr : float
}.

(** The column [res['tps']] (line 311). *)
Definition tps (t : trial) : float := (flux_retr t / flux t)%float.

(** One row of [med_res]: the key of a group and the aggregate of every other
    column. *)
Record med_trial : Type := MedTrial {
  med_seps : float;
  med_flux : float;
  med_pas : float;
  med_flux_retr : float;
  med_tps : float
}.

(** The data set a pass of the loop works on: the output directory of the
    scenario, the key of the observation and what lines 241-246 read off
    it. *)
Record dataset : Type := DataSet {
  odir : string;
  key : string;
  filt : string;
  mask : string;
  pxsc : float
}.

(** The arguments of [cal_contrast_curve]. *)
Record arguments : Type := Args {
  mstar : string -> float;
  ra_off : list float;
  de_off : list float;
  seps_inject_rnd : list float;
  pas_inject_rnd : list float;
  seps_inject_bar : list float;
  pas_inject_bar : list float;
  KL : Z;
  overwrite : bool
}.

(** The same arguments with another value of [overwrite]. *)
Definition with_overwrite (b : bool) (a : arguments) : arguments :=
  Args (mstar a) (ra_off a) (de_off a) (seps_inject_rnd a) (pas_inject_rnd a)
    (seps_inject_bar a) (pas_inject_bar a) (KL a) b.

(** What the function uses of [self].  The methods are not part of
    [contrast.py]; they are taken as they are called: [inject_recover] with
    the minimum separation, the fluxes, separations and position angles of
    the injections, [KL] and the offsets of the known companions; [func]
    with the fitted parameters and one separation (NumPy applies it to each
    element of an array); [least_squares] stands for
    [least_squares(self.func_lnprob, p0, args=(seps, tps))['x']]. *)
Record pipeline : Type := Pipeline {
  F0 : string -> float;
  wave : string -> float;
  diam : float;
  get_offsetpsf : dataset -> list float;
  inject_recover :
    dataset -> float -> list float -> list float -> list float -> Z ->
    list float -> list float -> columns;
  func : list float -> float -> float;
  least_squares : list float -> list float -> list float -> list float
}.

(** The calls to [self] that a pass makes, in order. *)
Inductive event : Type :=
| GetTransmission
| GetOffsetPsf
| InjectRecover (min_sep : float) (flux_inject seps_inject pas_inject : list float).

(** The persisted artifacts and the calls made so far. *)
Record state : Type := State {
  files : gmap string npy;
  trace : list event
}.

Definition np_load (path : string) : M state npy :=
  fun s =>
    match files s !! path with
    | Some a => (inr a, s)
    | None => (inl (FileNotFoundError path), s)
    end.

Definition np_save (path : string) (a : npy) : M state unit :=
  fun s => (inr (), State (<[path := a]> (files s)) (trace s)).

Definition call (ev : event) : M state unit :=
  fun s => (inr (), State (files s) (trace s ++ [ev])).

(** [odir+key+name] *)
Definition artifact (ds : dataset) (name : string) : string :=
  odir ds +:+ key ds +:+ name.

(** The names of the artifacts of a data set. *)
Definition table_artifacts : list string :=
  ["-flux_all.npy"; "-seps_all.npy"; "-pas_all.npy"; "-flux_retr_all.npy"].

(** [np.load(path)[KL]] of a raw curve. *)
Definition load_row (path : string) (i : Z) : M state (list float) :=
  let* a := np_load path in
  match a with
  | Arr2 rows => lift (getitem rows i)
  | Arr1 _ => raise (ValueError "the raw curves are a 2-D array")
  end.

(** A loaded artifact as a column of a table. *)
Definition as_column (a : npy) : exn + list float :=
  match a with
  | Arr1 v => inr v
  | Arr2 _ => inl (ValueError "a column of the injection table is a 1-D array")
  end.

Definition rad2mas : float := (180 / F64.np_pi * 3600 * 1000)%float.

Definition is_bar (ds : dataset) : bool :=
  bool_decide (mask ds = "MASKASWB") || bool_decide (mask ds = "MASKALWB").

Section Pass.
Context {lm : Libm}.
Variable self : pipeline.
Variable ds : dataset.
Variable args : arguments.

(** The separations and position angles of the injections: those of the bar
    masks or those of the round masks. *)
Definition seps_inject : list float :=
  if is_bar ds then seps_inject_bar args else seps_inject_rnd args.

Definition pas_inject : list float :=
  if is_bar ds then pas_inject_bar args else pas_inject_rnd args.

(** Lines 257-266: the four artifacts when [overwrite] is false and all of
    them load, [None] ([todo = True]) otherwise. *)
Definition load_table : M state (npy * npy * npy * npy) :=
  let* flux_all := np_load (artifact ds "-flux_all.npy") in
  let* seps_all := np_load (artifact ds "-seps_all.npy") in
  let* pas_all := np_load (artifact ds "-pas_all.npy") in
  let* flux_retr_all := np_load (artifact ds "-flux_retr_all.npy") in
  ret (flux_all, seps_all, pas_all, flux_retr_all).

Definition cached_table : M state (option (npy * npy * npy * npy)) :=
  if negb (overwrite args)
  then try_except (let* t := load_table in ret (Some t)) (ret None)
  else ret None.

(** Lines 281-291: the fluxes to inject, in the units of the data. *)
Definition flux_inject (seps cons : list float) : M state (list float) :=
  let* _ := call GetOffsetPsf in
  let offsetpsf := get_offsetpsf self ds in
  let* peak := lift (np_max offsetpsf) in
  let Fstar := (F0 self (filt ds) / pow 10 (mstar args (filt ds) / 2.5) / 1e6 * peak)%float in
  let* interp :=
    lift (np_interp ((fun s => s * pxsc ds / 1000)%float <$> seps_inject) seps cons) in
  let cons_inject := (fun c => c * 5)%float <$> interp in
  ret ((fun c => c * Fstar * pow rad2mas 2 / pow (pxsc ds) 2)%float <$> cons_inject).

(** Lines 275-305: the injection and recovery tests, and their results
    saved. *)
Definition recompute_table (seps cons : list float) : M state (npy * npy * npy * npy) :=
  let* flux_inject := flux_inject seps cons in
  let good := (fun f => negb (is_nan f)) <$> flux_inject in
  let fwhm := (wave self (filt ds) / diam self * rad2mas / pxsc ds)%float in
  let* flux_good := lift (bool_index flux_inject good) in
  let* seps_good := lift (bool_index seps_inject good) in
  let* _ := call (InjectRecover (10 * fwhm)%float flux_good seps_good pas_inject) in
  let r := inject_recover self ds (10 * fwhm)%float flux_good seps_good pas_inject
             (KL args) (ra_off args) (de_off args) in
  let* _ := np_save (artifact ds "-flux_all.npy") (Arr1 (flux_all r)) in
  let* _ := np_save (artifact ds "-seps_all.npy") (Arr1 (seps_all r)) in
  let* _ := np_save (artifact ds "-pas_all.npy") (Arr1 (pas_all r)) in
  let* _ := np_save (artifact ds "-flux_retr_all.npy") (Arr1 (flux_retr_all r)) in
  ret (Arr1 (flux_all r), Arr1 (seps_all r), Arr1 (pas_all r), Arr1 (flux_retr_all r)).

(** Lines 251-305: the injection table of the data set, loaded or
    computed. *)
Definition injection_table (seps cons : list float) : M state (npy * npy * npy * npy) :=
  let* cached := cached_table in
  let* _ := call GetTransmission in
  match cached with
  | Some t => ret t
  | None => recompute_table seps cons
  end.

(** [Table([flux_all, seps_all, pas_all, flux_retr_all], names=...)] *)
Definition Table (t : npy * npy * npy * npy) : exn + list trial :=
  let '(a, b, c, d) := t in
  match as_column a, as_column b, as_column c, as_column d with
  | inr fl, inr se, inr pa, inr fr =>
      if ((length fl =? length se)%nat && (length se =? length pa)%nat
          && (length pa =? length fr)%nat)%bool
      then inr (zip_with (fun '(f, s) '(p, r) => Trial f s p r) (zip fl se) (zip pa fr))
      else inl (ValueError "Inconsistent data column lengths")
  | inl e, _, _, _ | _, inl e, _, _ | _, _, inl e, _ | _, _, _, inl e => inl e
  end.

(** [med_res.groups.aggregate(np.nanmedian)]: the key column keeps the key of
    each group, every other column is reduced by [np.nanmedian]. *)
Definition aggregate (g : list trial) : med_trial :=
  MedTrial (default nan (seps <$> head g))
    (nanmedian (flux <$> g)) (nanmedian (pas <$> g))
    (nanmedian (flux_retr <$> g)) (nanmedian (tps <$> g)).

Definition med_res (res : list trial) : list med_trial :=
  aggregate <$> group_by seps res.

(** Line 318: the raw contrasts over the throughput at their separations. *)
Definition calibrate (pp seps cons : list float) : exn + list float :=
  np_divide cons (func self pp <$> ((fun s => s * 1000 / pxsc ds)%float <$> seps)).

(** What a pass hands to the plots that follow it. *)
Record outcome : Type := Outcome {
  out_res : list trial;
  out_med_res : list med_trial;
  out_pp : list float;
  out_seps : list float;
  out_corr_cons : list float
}.

(** Lines 251-319: one pass of the loops, for one data set.  The plots that
    follow (lines 321-388) are not modelled. *)
Definition pass : M state outcome :=
  let* seps := load_row (artifact ds "-seps.npy") (KL args) in
  let* cons := load_row (artifact ds "-cons.npy") (KL args) in
  let* t := injection_table seps cons in
  let* res := lift (Table t) in
  let med := med_res res in
  let p0 := [1; 0; 1; 0x1.999999999999ap-3; 15]%float in
  let pp := least_squares self p0 (med_seps <$> med) (med_tps <$> med) in
  let* corr_cons := lift (calibrate pp seps cons) in
  let* _ := np_save (artifact ds "-pp.npy") (Arr1 pp) in
  ret (Outcome res med pp seps corr_cons).

End Pass.

(** The loops of lines 218-234 over the modes, the numbers of annuli and of
    subsections and the observations, given as the list of the data sets in
    the order of the loops: a pass for each of them, until one raises. *)
Definition cal_contrast_curve {lm : Libm} (self : pipeline) (args : arguments)
    (datasets : list dataset) : M state unit :=
  for_each datasets (fun ds => let* _ := pass self ds args in ret ()).

End Cal.

(** ** Values of the C math library, and inputs to run the model on *)

Module Sample.

(** [atan2(a, b)] where its value is known in closed form: on the axes and
    the diagonals (C, Annex F, and the correctly rounded values of pi/4,
    pi/2, 3pi/4 and pi), and for [b = 1] and [|a| < 2^-27], where the angle
    rounds to [a] itself.  NaN stands for every other direction, which no
    run below asks for. *)
Definition compass_arctan2 (a b : float) : float :=
  match Prim2SF a, Prim2SF b with
  | S754_zero sa, S754_zero sb | S754_zero sa, S754_finite sb _ _ =>
      match sa, sb with
      | false, false => 0
      | true, false => -0
      | false, true => 0x1.921fb54442d18p+1
      | true, true => -0x1.921fb54442d18p+1
      end
  | S754_finite sa _ _, S754_zero _ =>
      if sa then -0x1.921fb54442d18p+0 else 0x1.921fb54442d18p+0
  | S754_finite sa ma ea, S754_finite sb mb eb =>
      if ((ma =? mb)%positive && (ea =? eb)%Z)%bool then
        match sa, sb with
        | false, false => 0x1.921fb54442d18p-1
        | true, false => -0x1.921fb54442d18p-1
        | false, true => 0x1.2d97c7f3321d2p+1
        | true, true => -0x1.2d97c7f3321d2p+1
        end
      else if (negb sb && (mb =? 4503599627370496)%positive && (eb =? -52)%Z
               && (ea <? -79)%Z)%bool then a
      else nan
  | _, _ => nan
  end%float.

(** [pow(x, y)] for the exponents 0, 1 and 2, where it is exact or the
    correctly rounded square; NaN stands for every other exponent. *)
Definition small_pow (x y : float) : float :=
  (if y =? 0 then 1 else if y =? 1 then x else if y =? 2 then x * x else nan)%float.

Definition libm : Libm := {| arctan2 := compass_arctan2; pow := small_pow |}.

(** A frame of 3 x 3 pixels, a row of three pixels and a single pixel. *)
Definition frame3 : ndarray := NdArray [1; 3; 3] [1; 2; 3; 4; 5; 6; 7; 8; 9]%float.

Definition row3 : ndarray := NdArray [1; 1; 3] [10; 20; 30]%float.

Definition two_frames : ndarray := NdArray [2; 1; 2] [1; 2; 3; 4]%float.

(** A 2-D image: not a cube. *)
Definition image : ndarray := NdArray [2; 2] [1; 2; 3; 4]%float.

Definition heap_of (a : ndarray) : heap := {[ 1%positive := a ]}.

End Sample.

(** ** A pipeline and a data set to run a pass on *)

Module CalSample.

Import Cal.

(** A stand-in for [self]: every injected companion is recovered with half
    of its flux, the fit returns its initial guess and the throughput model
    is 1 everywhere. *)
Definition self : pipeline := {|
  F0 := fun _ => 1000000%float;
  wave := fun _ => 1%float;
  diam := 1%float;
  get_offsetpsf := fun _ => [0.5; 1]%float;
  inject_recover := fun _ _ fl se pa _ _ _ =>
    Columns fl se ((fun _ => 0%float) <$> fl) ((fun f => f / 2)%float <$> fl);
  func := fun _ _ => 1%float;
  least_squares := fun p0 _ _ => p0
|}.

Definition ds : dataset := {|
  odir := "out/"; key := "obs"; filt := "F444W"; mask := "MASK335R";
  pxsc := 1000%float
|}.

(** Injections at 1, 2 and 3 pixels; with a pixel scale of 1000 mas these
    are raw separations of 1, 2 and 3 arcsec. *)
Definition args : arguments := {|
  mstar := fun _ => 0%float;
  ra_off := []; de_off := [];
  seps_inject_rnd := [1; 2; 3]%float; pas_inject_rnd := [0%float];
  seps_inject_bar := []; pas_inject_bar := [];
  KL := (-1)%Z; overwrite := false
|}.

(** Raw curves sampled at 1 and 2 arcsec; the contrast of the last KL mode is
    NaN at 1 arcsec. *)
Definition raw_only : state := {|
  files := {[ "out/obs-seps.npy" := Arr2 [[1; 2]; [1; 2]]%float;
              "out/obs-cons.npy" := Arr2 [[0.5; 0.25]; [nan; 0.25]]%float ]};
  trace := []
|}.

(** The same with an injection table of two trials at 2 pixels. *)
Definition with_table : state := {|
  files := {[ "out/obs-seps.npy" := Arr2 [[1; 2]; [1; 2]]%float;
              "out/obs-cons.npy" := Arr2 [[0.5; 0.25]; [nan; 0.25]]%float;
              "out/obs-flux_all.npy" := Arr1 [4; 8]%float;
              "out/obs-seps_all.npy" := Arr1 [2; 2]%float;
              "out/obs-pas_all.npy" := Arr1 [0; 90]%float;
              "out/obs-flux_retr_all.npy" := Arr1 [2; 8]%float ]};
  trace := []
|}.

End CalSample.

(** ** What the maskers make of a cube *)

Module Masked.

Import Masker.

(** What the loop of [mask_companions] makes of the cube [a]. *)
Definition companions_masked (pxsc : float) (cent : float * float) (mrad : float)
    (H W : nat) (a : ndarray) (srcs : list (float * float)) : ndarray :=
  foldl (fun c (src : float * float) =>
           setitem_mask
             (companion_mask pxsc cent mrad (indices H W).2 (indices H W).1 src.1 src.2)
             nan c) a srcs.

(** What the loop of [mask_bar] makes of the cube [c]. *)
Definition bar_masked {lm : Libm} (cent : float * float) (H W : nat) (c : ndarray)
    (ranges : list (float * float)) : ndarray :=
  match ranges with
  | [] => c
  | _ :: _ => foldl (restore_slice cent H W c) (fill nan c) ranges
  end.

End Masked.

(** ** Increasing samples *)

Module Order.

(** The sample points of an interpolation, each less than the next. *)
Abbreviation increasing := (StronglySorted (fun a b : float => (a <? b)%float = true)).

End Order.

(** ** The key of an observation *)

Module KeyName.

(** [[s.start() for s in re.finditer(c, key)]]: the positions of the
    character [c] in [key], counted from [i]. *)
Fixpoint finditer (c : ascii) (key : string) (i : nat) : list nat :=
  match key with
  | EmptyString => []
  | String a rest =>
      if Ascii.eqb a c then i :: finditer c rest (S i) else finditer c rest (S i)
  end.

(** [l[i]] on a Python list, for an index that is not negative. *)
Definition list_getitem {A : Type} (l : list A) (i : nat) : exn + A :=
  match l !! i with
  | Some a => inr a
  | None => inl (IndexError "list index out of range")
  end.

(** [s[a:b]] and [s[a:]] for indices that are not negative. *)
Definition slice (s : string) (a b : nat) : string := String.substring a (b - a) s.

Definition slice_from (s : string) (a : nat) : string :=
  String.substring a (String.length s - a) s.

(** Lines 73-76 and 243-246: the filter, the mask and the subarray that the
    key of an observation names. *)
Definition parse_key (key : string) : exn + (string * string * string) :=
  let temp := finditer "_"%char key 0 in
  match list_getitem temp 1, list_getitem temp 2 with
  | inr t1, inr t2 =>
      let filt := slice key (t1 + 1) t2 in
      match list_getitem temp 3, list_getitem temp 4 with
      | inr t3, inr t4 =>
          let mask := slice key (t3 + 1) t4 in
          let subarr := slice_from key (t4 + 1) in
          inr (filt, mask, subarr)
      | inl e, _ | _, inl e => inl e
      end
  | inl e, _ | _, inl e => inl e
  end.

(** The character [c] occurs in [s]. *)
Fixpoint occurs (c : ascii) (s : string) : bool :=
  match s with
  | EmptyString => false
  | String a rest => Ascii.eqb a c || occurs c rest
  end.

(** A key of six fields separated by underscores. *)
Definition join_key (a b filt c mask subarr : string) : string :=
  a +:+ "_" +:+ b +:+ "_" +:+ filt +:+ "_" +:+ c +:+ "_" +:+ mask +:+ "_" +:+ subarr.

End KeyName.

(** ** The raw contrast curve of one observation *)

Module Raw.

Import Masker KeyName.

(** What [raw_contrast_curve] uses of [params]; the dictionaries hold an
    entry for the filter of every observation. *)
Record params : Type := Params {
  wave : string -> float;
  diam : float;
  ra_off : list float;
  de_off : list float;
  pa_ranges_bar : list (float * float);
  F0 : string -> float;
  mstar : string -> float;
  iwa : float;
  owa : float
}.

(** An observation: its key, the cube [hdul[0].data] of its KLIP-subtracted
    file, its pixel scale [obs[key]['PIXSCALE'][0]] and the centre
    [(PSFCENTX, PSFCENTY)] of the header. *)
Record observation : Type := Observation {
  key : string;
  data : loc;
  pxsc : float;
  cent : float * float
}.

(** The routines of other modules: [utils.get_offsetpsf], called with the
    filter, the mask and the key, and [klip.meas_contrast], called with a
    frame, [iwa], [owa], the resolution and the centre; it returns the
    separations and the contrasts of a curve. *)
Record library : Type := Library {
  get_offsetpsf : string -> string -> string -> list float;
  meas_contrast :
    ndarray -> float -> float -> float -> float * float -> list float * list float
}.

(** The arrays in memory and the [.npy] artifacts on disk. *)
Record state : Type := State {
  arrays : heap;
  files : gmap string Cal.npy
}.

Definition on_arrays {A : Type} (m : M heap A) : M state A :=
  fun s => let '(r, h) := m (arrays s) in (r, State h (files s)).

Definition np_save (path : string) (a : Cal.npy) : M state unit :=
  fun s => (inr (), State (arrays s) (<[path := a]> (files s))).

Definition is_bar (mask : string) : bool :=
  bool_decide (mask = "MASKASWB") || bool_decide (mask = "MASKALWB").

(** [a[i]] of a cube, for [i] in range: a frame. *)
Definition frame (a : ndarray) (H W i : nat) : ndarray :=
  NdArray [H; W] (take (H * W) (drop (i * (H * W)) (buffer a))).

(** [a[-1]] of a cube. *)
Definition last_frame (a : ndarray) : exn + ndarray :=
  match shape a with
  | K :: H :: W :: _ =>
      if (K =? 0)%nat
      then inl (IndexError "index -1 is out of bounds for axis 0 with size 0")
      else inr (frame a H W (K - 1))
  | _ => inl (IndexError "too many indices for array")
  end.

(** An array and a scalar, element by element. *)
Definition elementwise (f : float -> float) (a : ndarray) : ndarray :=
  NdArray (shape a) (f <$> buffer a).

(** [np.array(rows)] of a list of 1-D arrays: a 2-D array when the rows have
    one length (no row at all when the list is empty); NumPy refuses rows of
    different lengths. *)
Definition np_array (rows : list (list float)) : exn + Cal.npy :=
  match rows with
  | [] => inr (Cal.Arr2 [])
  | r :: rest =>
      if forallb (fun r' => (length r' =? length r)%nat) rest then inr (Cal.Arr2 rows)
      else inl (ValueError "The requested array has an inhomogeneous shape")
  end.

(** What a pass hands on: the masked cube and the rows of the two arrays it
    saves. *)
Record outcome : Type := Outcome {
  out_masked : loc;
  out_seps : list (list float);
  out_cons : list (list float)
}.

Section Pass.
Context {lm : Libm}.
Variable p : params.
Variable lib : library.

(** Lines 84-86: the known companions masked, then the bar of a bar mask. *)
Definition masked (o : observation) (mask : string) (fwhm : float) : M heap loc :=
  let* data_masked :=
    mask_companions (data o) (pxsc o) (cent o) (12 * fwhm)%float (ra_off p) (de_off p) in
  if is_bar mask then mask_bar data_masked (cent o) (pa_ranges_bar p)
  else ret data_masked.

(** Lines 121-124, for frame [i]: the curve of the frame, its separations in
    arcsec. *)
Definition curve (o : observation) (fwhm Fstar : float) (Fdata : ndarray) (H W i : nat)
    : list float * list float :=
  let dat := elementwise (fun v => v / Fstar)%float (frame Fdata H W i) in
  let '(sep, con) := meas_contrast lib dat (iwa p) (owa p) (2 * fwhm)%float (cent o) in
  ((fun s => s * pxsc o / 1000)%float <$> sep, con).

(** Lines 69-128: one pass of the loops, for the observation [o] and the
    output directory [odir] of the scenario.  Of the first plot only the
    frames [data[-1]] and [data_masked[-1]] that it shows are modelled. *)
Definition pass (odir : string) (o : observation) : M state outcome :=
  let* fields := lift (parse_key (key o)) in
  let '(filt, mask, subarr) := fields in
  let fwhm := (wave p filt / diam p * Cal.rad2mas / pxsc o)%float in
  let* data_masked := on_arrays (masked o mask fwhm) in
  let* a := on_arrays (deref (data o)) in
  let* _ := lift (last_frame a) in
  let* m := on_arrays (deref data_masked) in
  let* _ := lift (last_frame m) in
  let offsetpsf := get_offsetpsf lib filt mask (key o) in
  let* peak := lift (np_max offsetpsf) in
  let Fstar := (F0 p filt / pow 10 (mstar p filt / 2.5) / 1e6 * peak)%float in
  let Fdata := elementwise (fun v => v * pow (pxsc o) 2 / pow Cal.rad2mas 2)%float m in
  match shape Fdata with
  | K :: H :: W :: _ =>
      let curves := curve o fwhm Fstar Fdata H W <$> seq 0 K in
      let* seps := lift (np_array (fst <$> curves)) in
      let* cons := lift (np_array (snd <$> curves)) in
      let* _ := np_save (odir +:+ key o +:+ "-seps.npy") seps in
      let* _ := np_save (odir +:+ key o +:+ "-cons.npy") cons in
      ret (Outcome data_masked (fst <$> curves) (snd <$> curves))
  | _ => raise (IndexError "tuple index out of range")
  end.

End Pass.

(** The loops of lines 52-68 over the scenarios and the observations, given
    as the list of the output directories and observations in the order of
    the loops. *)
Definition raw_contrast_curve {lm : Libm} (p : params) (lib : library)
    (passes : list (string * observation)) : M state unit :=
  for_each passes (fun '(odir, o) => let* _ := pass p lib odir o in ret ()).

End Raw.

(** ** The state of a raw pass *)

Module RawInv.

Import Raw.

(** A heap that only gained arrays. *)
Definition extends (h h' : heap) : Prop := ∀ l b, h !! l = Some b -> h' !! l = Some b.

(** The paths of the two files of an observation. *)
Definition seps_path (odir : string) (o : observation) : string :=
  odir +:+ key o +:+ "-seps.npy".

Definition cons_path (odir : string) (o : observation) : string :=
  odir +:+ key o +:+ "-cons.npy".

End RawInv.

(** ** An observation to run a raw pass on *)

Module RawSample.

Import Raw.

(** A run of [raw_contrast_curve]: one companion one pixel to the East and
    one to the North, the slice from North to East of a bar mask, and a
    routine that finds the same curve of two samples in every frame. *)
Definition params : Raw.params := {|
  wave := fun _ => 1%float;
  diam := (24 * Cal.rad2mas)%float;
  ra_off := [1%float]; de_off := [1%float];
  pa_ranges_bar := [(0, 90)%float];
  F0 := fun _ => 1000000%float;
  mstar := fun _ => 0%float;
  iwa := 1%float; owa := 2%float
|}.

Definition lib : library := {|
  get_offsetpsf := fun _ _ _ => [0.5; 1]%float;
  meas_contrast := fun _ _ _ _ _ => ([1; 2]%float, [0.5; 0.25]%float)
|}.

(** An observation with a round mask and one with a bar mask, both of the
    cube at location 1, with a pixel scale of 1 mas. *)
Definition round : observation :=
  Observation "JWST_NIRCAM_F356W_MASKRND_MASKA335R_SUB320" 1%positive 1%float (1, 1)%float.

Definition bar : observation :=
  Observation "JWST_NIRCAM_F356W_MASKBAR_MASKALWB_SUB320" 1%positive 1%float (1, 1)%float.

Definition memory (a : ndarray) : state := State (Sample.heap_of a) ∅.

End RawSample.

(** ** Data quality flags of a ramp (rampfit.py) *)

Module DQ.

(** The exceptions of [rampfit.py]: those that Python and NumPy raise in it,
    and [StepFailed] for whatever a step of the jwst pipeline raises. *)
Inductive error : Type :=
| ValueError (msg : string)
| RuntimeError (msg : string)
| IndexError (msg : string)
| AttributeError (msg : string)
| TypeError (msg : string)
| StepFailed (msg : string).

(** [jwst.datamodels.dqflags.pixel]: the two flags that the pipeline
    touches. *)
Definition SATURATED : Z := 2.

Definition REFERENCE_PIXEL : Z := 2147483648.

(** [np.roll(l, shift)] along one axis: the element at [i] moves to
    [(i + shift) mod n]. *)
Definition roll {A : Type} (shift : Z) (l : list A) : list A :=
  rotate (Z.to_nat ((- shift) mod Z.of_nat (length l))) l.

(** A Python index that is in range, counted from the end when negative. *)
Definition position (n : nat) (i : Z) : nat :=
  Z.to_nat (if (i <? 0)%Z then i + Z.of_nat n else i)%Z.

(** A 4-D array as the planes of its integrations and groups, each plane
    the list of its rows. *)
Abbreviation array4 A := (list (list (list (list A)))).

(** An operation on the last two axes, plane by plane. *)
Definition planewise {A B : Type} (f : list (list A) -> list (list B))
    (a : array4 A) : array4 B :=
  (fun groups : list (list (list A)) => f <$> groups) <$> a.

(** Two arrays of one shape, element by element. *)
Definition elementwise2 {A B C : Type} (f : A -> B -> C) (a : array4 A) (b : array4 B)
    : array4 C :=
  zip_with (zip_with (zip_with (zip_with f))) a b.

(** [np.roll(a, shift, axis=-1)] and [np.roll(a, shift, axis=-2)]. *)
Definition roll_last {A : Type} (shift : Z) : array4 A -> array4 A :=
  planewise (fun rows : list (list A) => roll shift <$> rows).

Definition roll_rows {A : Type} (shift : Z) : array4 A -> array4 A :=
  planewise (roll shift).

(** [a[:, :, i, :] = v] and [a[:, :, :, i] = v] for an index in range. *)
Definition set_row {A : Type} (i : Z) (v : A) : array4 A -> array4 A :=
  planewise (fun rows : list (list A) =>
               alter (fun row : list A => (fun _ => v) <$> row) (position (length rows) i) rows).

Definition set_col {A : Type} (i : Z) (v : A) : array4 A -> array4 A :=
  planewise (fun rows : list (list A) =>
               (fun row : list A => alter (fun _ => v) (position (length row) i) row) <$> rows).

(** The array [groupdq] of a ramp: a 4-D array of flags, with the lengths of
    its last two axes (which an array without planes also has). *)
Record groupdq : Type := GroupDQ {
  nrows : nat;
  ncols : nat;
  flags : array4 Z
}.

(** Every plane has [nrows] rows of [ncols] flags. *)
Definition well_shaped (dq : groupdq) : Prop :=
  Forall (Forall (fun plane =>
                    length plane = nrows dq
                    ∧ Forall (fun row => length row = ncols dq) plane)) (flags dq).

(** [a[i, g, y, x]] *)
Definition at4 {A : Type} (a : array4 A) (i g y x : nat) : option A :=
  match a !! i with
  | Some groups =>
      match groups !! g with
      | Some rows =>
          match rows !! y with
          | Some row => row !! x
          | None => None
          end
      | None => None
      end
  | None => None
  end.

(** Lines 227-245 of [do_saturation]: the saturation flags grown by one
    pixel along the last two axes. *)
Definition grow_saturation (dq : groupdq) : error + groupdq :=
  (* Performs a bitwise & in order to find flagged the saturation bits *)
  let mask_sat :=
    planewise (fun rows : list (list Z) =>
                 (fun row : list Z => (fun v => (0 <? Z.land v SATURATED)%Z) <$> row) <$> rows)
      (flags dq) in
  (* Create a bunch of shifted masks *)
  let mask_vp1 := roll_last 1 mask_sat in
  let mask_vm1 := roll_last (-1) mask_sat in
  let mask_hp1 := roll_rows 1 mask_sat in
  let mask_hm1 := roll_rows (-1) mask_sat in
  (* Zero out rows and columns that rolled over to the other side *)
  if (nrows dq =? 0)%nat
  then inl (IndexError "index 0 is out of bounds for axis 2 with size 0")
  else
    let mask_vp1 := set_row 0 false mask_vp1 in
    let mask_vm1 := set_row (-1) false mask_vm1 in
    if (ncols dq =? 0)%nat
    then inl (IndexError "index 0 is out of bounds for axis 3 with size 0")
    else
      let mask_hp1 := set_col 0 false mask_hp1 in
      let mask_hm1 := set_col (-1) false mask_hm1 in
      (* Combine saturation masks *)
      let mask_sat :=
        elementwise2 orb
          (elementwise2 orb
             (elementwise2 orb (elementwise2 orb mask_sat mask_vp1) mask_vm1) mask_hp1)
          mask_hm1 in
      (* Do a bitwise OR of new mask with groupdq to flip saturation bit *)
      inr (GroupDQ (nrows dq) (ncols dq)
             (elementwise2 (fun v (b : bool) => Z.lor v (Z.b2z b * SATURATED)) (flags dq)
                mask_sat)).

(** A flag of the array is set at a pixel. *)
Definition saturated (a : array4 Z) (i g y x : nat) : bool :=
  match at4 a i g y x with
  | Some v => (0 <? Z.land v SATURATED)%Z
  | None => false
  end.

(** What the combined mask of lines 230-242 holds at a pixel: the pixel is
    saturated, or a neighbour along a row or a column is, the neighbours
    being taken cyclically and those of the first and last row (for the
    rolls along the rows) and of the first and last column (for the rolls
    along the columns) being left out. *)
Definition grown (dq : groupdq) (i g y x : nat) : bool :=
  let H := Z.of_nat (nrows dq) in
  let W := Z.of_nat (ncols dq) in
  let sat := saturated (flags dq) i g in
  sat y x
  || negb (y =? 0)%nat && sat y (Z.to_nat ((Z.of_nat x - 1) mod W))
  || negb (y =? nrows dq - 1)%nat && sat y (Z.to_nat ((Z.of_nat x + 1) mod W))
  || negb (x =? 0)%nat && sat (Z.to_nat ((Z.of_nat y - 1) mod H)) x
  || negb (x =? ncols dq - 1)%nat && sat (Z.to_nat ((Z.of_nat y + 1) mod H)) x.

End DQ.

(** ** The planes of a 4-D array *)

Module Plane.

Import DQ.

(** A plane of [H] rows of [W] elements. *)
Definition plane_of {A : Type} (H W : nat) (rows : list (list A)) : Prop :=
  length rows = H ∧ Forall (fun row => length row = W) rows.

(** [rows[y, x]] *)
Definition at2 {A : Type} (rows : list (list A)) (y x : nat) : option A :=
  match rows !! y with
  | Some row => row !! x
  | None => None
  end.

(** The planes of a 4-D array. *)
Definition plane_at {A : Type} (a : array4 A) (i g : nat) : option (list (list A)) :=
  match a !! i with
  | Some groups => groups !! g
  | None => None
  end.

(** The flag SATURATED of a value, and of a pixel of a plane. *)
Definition test (v : Z) : bool := (0 <? Z.land v SATURATED)%Z.

Definition sat2 (rows : list (list Z)) (y x : nat) : bool :=
  match at2 rows y x with
  | Some v => test v
  | None => false
  end.

End Plane.

(** ** Planes to grow the saturation on *)

Module DQSample.

Import DQ.

(** One plane of 3 x 3 flags: the pixel in the middle of the last column is
    saturated, the pixel in the middle of the first row has another flag. *)
Definition plane3 : groupdq :=
  GroupDQ 3 3 [[[[0; 4; 0]; [0; 0; 2]; [0; 0; 0]]]]%Z.

(** A 5 x 5 plane, saturated in the middle. *)
Definition plane5 : groupdq :=
  GroupDQ 5 5 [[[[0; 0; 0; 0; 0]; [0; 0; 0; 0; 0]; [0; 0; 2; 0; 0];
                 [0; 0; 0; 0; 0]; [0; 0; 0; 0; 0]]]]%Z.

End DQSample.

(** ** The ramp fitting pipeline (rampfit.py) *)

Module Ramp.

Import DQ.

(** [str(e)] *)
Definition message (e : error) : string :=
  match e with
  | ValueError m | RuntimeError m | IndexError m | AttributeError m | TypeError m
  | StepFailed m => m
  end.

(** Computations over a state that return or raise. *)
Definition R (S A : Type) : Type := S -> (error + A) * S.

Definition ret {S A : Type} (a : A) : R S A := fun s => (inr a, s).

Definition raise {S A : Type} (e : error) : R S A := fun s => (inl e, s).

Definition bind {S A B : Type} (m : R S A) (k : A -> R S B) : R S B :=
  fun s =>
    match m s with
    | (inr a, s') => k a s'
    | (inl e, s') => (inl e, s')
    end.

Definition lift {S A : Type} (r : error + A) : R S A :=
  match r with
  | inr a => ret a
  | inl e => raise e
  end.

(** The part of a [RampModel] that the file reads and writes. *)
Record ramp : Type := RampModel {
  instrument : string;
  xsize : Z;
  pixeldq : list (list Z);
  groupdq : DQ.groupdq;
  cal_step : string -> string
}.

Definition with_pixeldq (dq : list (list Z)) (m : ramp) : ramp :=
  RampModel (instrument m) (xsize m) dq (groupdq m) (cal_step m).

Definition with_groupdq (dq : DQ.groupdq) (m : ramp) : ramp :=
  RampModel (instrument m) (xsize m) (pixeldq m) dq (cal_step m).

(** What a step returns: a model, or the two models of [ramp_fit]. *)
Inductive result : Type :=
| Model (m : ramp)
| Tuple (m1 m2 : ramp).

(** The attributes of a step that the file reads and writes. *)
Record step : Type := Step {
  skip : bool;
  save_results : bool;
  suffix : option string;
  output_dir : option string;
  n_pix_grow_sat : Z
}.

(** The pipeline object: its steps by name, its own attributes, and the
    calls to [save_model] made so far, each with the suffix it was given. *)
Record pipeline : Type := Pipeline {
  steps : gmap string step;
  nrow_ref : Z;
  grow_diagonal : bool;
  save_intermediates : bool;
  pipe_output_dir : option string;
  saved : list (ramp * option string)
}.

(** Running a step of the jwst pipeline, given its attributes at the time of
    the call: a parameter of the model. *)
Class Jwst := { call : string -> step -> ramp -> error + result }.

Definition get_step (name : string) : R pipeline step :=
  fun s =>
    match steps s !! name with
    | Some st => (inr st, s)
    | None => (inl (AttributeError name), s)
    end.

Definition set_step (name : string) (f : step -> step) : R pipeline unit :=
  fun s =>
    (inr (), Pipeline (alter f name (steps s)) (nrow_ref s) (grow_diagonal s)
               (save_intermediates s) (pipe_output_dir s) (saved s)).

Definition save_model (m : ramp) (suffix : option string) : R pipeline unit :=
  fun s =>
    (inr (), Pipeline (steps s) (nrow_ref s) (grow_diagonal s) (save_intermediates s)
               (pipe_output_dir s) (saved s ++ [(m, suffix)])).

Definition read {A : Type} (f : pipeline -> A) : R pipeline A := fun s => (inr (f s), s).

Definition with_save_results (b : bool) (st : step) : step :=
  Step (skip st) b (suffix st) (output_dir st) (n_pix_grow_sat st).

Definition with_output_dir (d : option string) (st : step) : step :=
  Step (skip st) (save_results st) (suffix st) d (n_pix_grow_sat st).

Definition with_n_pix_grow_sat (n : Z) (st : step) : step :=
  Step (skip st) (save_results st) (suffix st) (output_dir st) n.

(** [res.meta.cal_step.<name>] of what a step returned. *)
Definition cal_step_of (res : result) (name : string) : error + string :=
  match res with
  | Model m => inr (cal_step m name)
  | Tuple _ _ => inl (AttributeError "'tuple' object has no attribute 'meta'")
  end.

(** [suffix + tail] *)
Definition suffixed (suffix : option string) (tail : string) : error + option string :=
  match suffix with
  | Some s => inr (Some (s +:+ tail))
  | None => inl (TypeError "unsupported operand type(s) for +: 'NoneType' and 'str'")
  end.

Section Run.
Context {jwst : Jwst}.

Notation "'let!' x ':=' m 'in' k" := (bind m (fun x => k))
  (at level 10, x name, m at level 100, k at level 200, only parsing).

(** [Coron1Pipeline.run_step] *)
Definition run_step (name : string) (input : ramp) (save_results_kw : option bool)
    : R pipeline result :=
  let! step_obj := get_step name in
  let! save_intermediates := read save_intermediates in
  (* Determine if we're saving results for real *)
  let really_save_results :=
    if skip step_obj then false
    else match save_results_kw with
         | Some b => b
         | None =>
             if save_intermediates then true
             else if save_results step_obj then true
             else false
         end in
  (* Run step. Don't save yet. *)
  let step_save_orig := save_results step_obj in
  let! _ := set_step name (with_save_results false) in
  let! res := lift (call name (with_save_results false step_obj) input) in
  let! _ := set_step name (with_save_results step_save_orig) in
  (* Check if certain steps were skipped *)
  let! really_save_results :=
    if bool_decide (name = "group_scale") then
      let! status := lift (cal_step_of res "group_scale") in
      ret (if bool_decide (status = "SKIPPED") then false else really_save_results)
    else if bool_decide (name = "gain_scale") then
      let! status := lift (cal_step_of res "gain_scale") in
      ret (if bool_decide (status = "SKIPPED") then false else really_save_results)
    else ret really_save_results in
  (* Now save results if asked *)
  let! _ :=
    if really_save_results then
      let! dir := read pipe_output_dir in
      let! _ := set_step name (with_output_dir dir) in
      match res with
      | Tuple m1 m2 =>
          let! s0 := lift (suffixed (suffix step_obj) "0") in
          let! _ := save_model m1 s0 in
          let! s1 := lift (suffixed (suffix step_obj) "1") in
          save_model m2 s1
      | Model m => save_model m (suffix step_obj)
      end
    else ret () in
  ret res.

(** [res.pixeldq] and [res.groupdq] of what a step returned. *)
Definition model_of (res : result) (attr : string) : error + ramp :=
  match res with
  | Model m => inr m
  | Tuple _ _ => inl (AttributeError ("'tuple' object has no attribute '" +:+ attr +:+ "'"))
  end.

(** [s.lower()] on ASCII letters. *)
Definition lower_ascii (c : ascii) : ascii :=
  let n := Ascii.nat_of_ascii c in
  if ((65 <=? n)%nat && (n <=? 90)%nat)%bool then Ascii.ascii_of_nat (n + 32) else c.

Fixpoint lower (s : string) : string :=
  match s with
  | EmptyString => EmptyString
  | String c rest => String (lower_ascii c) (lower rest)
  end.

(** The bounds of the slice [a[lo:hi]] of an axis of length [n]; [None] is a
    bound that is left out. *)
Definition bound (n : nat) (i : Z) : nat :=
  Z.to_nat (if (i <? 0)%Z then Z.max (i + Z.of_nat n) 0 else Z.min i (Z.of_nat n)).

(** [a[lo:hi, :] = f(a[lo:hi, :])], element by element. *)
Definition update_rows (lo hi : nat) (f : Z -> Z) (a : list (list Z)) : list (list Z) :=
  imap (fun y row => if ((lo <=? y)%nat && (y <? hi)%nat)%bool then f <$> row else row) a.

(** Lines 200-201 and 207-208: the flag set, and cleared, in the first and
    the last [nrow_ref] rows. *)
Definition flag_reference_rows (nrow_ref : Z) (a : list (list Z)) : list (list Z) :=
  let a := update_rows (bound (length a) 0) (bound (length a) nrow_ref)
             (fun v => Z.lor v REFERENCE_PIXEL) a in
  update_rows (bound (length a) (- nrow_ref)) (length a)
    (fun v => Z.lor v REFERENCE_PIXEL) a.

Definition unflag_reference_rows (nrow_ref : Z) (a : list (list Z)) : list (list Z) :=
  let a := update_rows (bound (length a) 0) (bound (length a) nrow_ref)
             (fun v => Z.land v (Z.lnot REFERENCE_PIXEL)) a in
  update_rows (bound (length a) (- nrow_ref)) (length a)
    (fun v => Z.land v (Z.lnot REFERENCE_PIXEL)) a.

(** [Coron1Pipeline.do_nircam_refpix] *)
Definition do_nircam_refpix (input : ramp) (save_results_kw : option bool)
    : R pipeline result :=
  (* Slight modifications if NIRCam subarray *)
  let instrument := instrument input in
  let subsize := xsize input in
  (* Perform normal operations if not set *)
  let! nrow_ref := read nrow_ref in
  if negb (bool_decide (lower instrument = "nircam") && (subsize <? 2048)%Z
           && (0 <? nrow_ref)%Z)
  then run_step "refpix" input save_results_kw
  else
    (* Update pixel DQ mask to manually set reference pixels *)
    let input := with_pixeldq (flag_reference_rows nrow_ref (pixeldq input)) input in
    let! res := run_step "refpix" input save_results_kw in
    (* Return pixel DQ back to original using bitwise AND of inverted flag *)
    let! m := lift (model_of res "pixeldq") in
    ret (Model (with_pixeldq (unflag_reference_rows nrow_ref (pixeldq m)) m)).

(** [Coron1Pipeline.do_saturation] *)
Definition do_saturation (input : ramp) (save_results_kw : option bool)
    : R pipeline result :=
  (* Check current setting *)
  let! saturation := get_step "saturation" in
  let npix_grow := n_pix_grow_sat saturation in
  let! grow_diagonal := read grow_diagonal in
  (* Just return normal if growing diagonal or set to 0 *)
  if (grow_diagonal || (npix_grow =? 0)%Z)%bool
  then run_step "saturation" input save_results_kw
  else
    (* Run with 1 less pixel growth than specified *)
    let! _ := set_step "saturation" (with_n_pix_grow_sat (npix_grow - 1)) in
    let! res := run_step "saturation" input save_results_kw in
    let! m := lift (model_of res "groupdq") in
    let! dq := lift (grow_saturation (groupdq m)) in
    ret (Model (with_groupdq dq m)).

End Run.

End Ramp.

(** ** What a run of a step keeps *)

Module RampInv.

Import DQ Ramp.

(** What a run of a step leaves as it was: the attributes of the pipeline,
    the models saved so far, and of every step whether it is skipped, its
    suffix and the growth of the saturation; a step other than the one that
    is run keeps all its attributes. *)
Definition kept (name : string) (s s' : pipeline) : Prop :=
  nrow_ref s' = nrow_ref s
  ∧ grow_diagonal s' = grow_diagonal s
  ∧ save_intermediates s' = save_intermediates s
  ∧ pipe_output_dir s' = pipe_output_dir s
  ∧ (∃ l, saved s' = saved s ++ l)
  ∧ ∀ k, match steps s !! k, steps s' !! k with
         | Some st, Some st' =>
             skip st' = skip st ∧ suffix st' = suffix st
             ∧ n_pix_grow_sat st' = n_pix_grow_sat st
             ∧ (k ≠ name -> st' = st)
         | None, None => True
         | _, _ => False
         end.

(** A computation that keeps them, whatever it returns. *)
Definition keeps {A : Type} (name : string) (m : R pipeline A) : Prop :=
  ∀ s r s', m s = (r, s') -> kept name s s'.

(** The rows that lines 200-201 and 207-208 address: the first and the last
    [n] of [H]. *)
Definition reference_row (n : Z) (H y : nat) : bool :=
  ((Z.of_nat y <? n)%Z || (Z.of_nat H - n <=? Z.of_nat y)%Z)%bool.

(** [a[y, x]] *)
Definition pixel (a : list (list Z)) (y x : nat) : option Z :=
  match a !! y with
  | Some row => row !! x
  | None => None
  end.

End RampInv.

(** ** A pipeline and a ramp to run the steps on *)

Module RampSample.

Import DQ Ramp.

(** Steps that hand their input back, but [ramp_fit], which returns it
    twice, and [jump], which raises. *)
Definition echo : Jwst :=
  {| call name st input :=
       if bool_decide (name = "ramp_fit") then inr (Tuple input input)
       else if bool_decide (name = "jump") then inl (StepFailed "jump")
       else inr (Model input) |}.

Definition saturation : step := Step false false (Some "saturation") None 1.

Definition refpix : step := Step false true (Some "refpix") None 0.

Definition jump : step := Step false true (Some "jump") None 0.

Definition ramp_fit : step := Step false false (Some "fit") None 0.

(** A pipeline with one reference row, that grows the saturation by one
    pixel and has saved nothing. *)
Definition coron1 : pipeline :=
  Pipeline (list_to_map [("saturation", saturation); ("refpix", refpix); ("jump", jump);
                         ("ramp_fit", ramp_fit)])
    1 false false (Some "out/") [].

(** A NIRCam subarray of three rows; a pixel of the first row is a
    reference pixel. *)
Definition subarray : ramp :=
  RampModel "NIRCAM" 320 [[0; REFERENCE_PIXEL]; [4; 0]; [0; 1]]%Z DQSample.plane3
    (fun _ => "COMPLETE").

End RampSample.

(** ** Strings as Python reads them *)

Module Str.

Import KeyName.

(** [needle in s] *)
Fixpoint contains (needle s : string) : bool :=
  String.prefix needle s
  || match s with
     | EmptyString => false
     | String _ rest => contains needle rest
     end.

(** [s.split(c)] for a separator of one character. *)
Fixpoint split (c : ascii) (s : string) : list string :=
  match s with
  | EmptyString => [EmptyString]
  | String a rest =>
      if Ascii.eqb a c then EmptyString :: split c rest
      else match split c rest with
           | piece :: pieces => String a piece :: pieces
           | [] => [String a EmptyString]
           end
  end.

(** [s[-1]], when [s] is not empty. *)
Fixpoint last_char (s : string) : option ascii :=
  match s with
  | EmptyString => None
  | String a EmptyString => Some a
  | String _ rest => last_char rest
  end.

(** [os.path.basename(p)]: what follows the last slash. *)
Fixpoint basename (p : string) : string :=
  match p with
  | EmptyString => EmptyString
  | String c rest =>
      if occurs "/" rest then basename rest
      else if Ascii.eqb c "/" then rest
      else p
  end.

(** [s.replace(old, new)] for [old] that is not empty: the occurrences of
    [old] from the left, those that overlap an earlier one left out. *)
Fixpoint replace_within (n : nat) (old new s : string) : string :=
  match n, s with
  | S n, String c rest =>
      if String.prefix old s
      then new +:+ replace_within n old new
                     (String.substring (String.length old) (String.length s) s)
      else String c (replace_within n old new rest)
  | _, _ => s
  end.

Definition replace (old new s : string) : string :=
  replace_within (String.length s) old new s.

(** [os.path.join(a, b)] *)
Definition path_join (a b : string) : string :=
  if String.prefix "/" b then b
  else if bool_decide (a = "") || bool_decide (String.substring (String.length a - 1) 1 a = "/")
       then a +:+ b
       else a +:+ "/" +:+ b.

End Str.

(** ** Running the pipeline on the files of a directory (rampfit.py) *)

Module Fit.

Import DQ Ramp Str.

(** The attributes of [meta] that the file reads; those that it tests with
    [hasattr] may be missing. *)
Record meta : Type := Meta {
  ramp_ext : string;
  odir : string;
  skip_jump : option bool;
  skip_dark_current : option bool;
  skip_ipc : option bool;
  jump_threshold : option float;
  ramp_fit_max_cores : option string;
  meta_nrow_ref : option Z;
  meta_grow_diagonal : option bool;
  sat_boundary : option Z;
  meta_save_intermediates : option bool;
  rampfit_idir : bool;
  rampfit_bgdirs : bool;
  idir : string;
  bg_sci_dir : string;
  bg_ref_dir : string
}.

(** A [Coron1Pipeline] object: the attributes that its methods read, and
    those that only [run_ramp_fitting] assigns; an attribute of a step that
    was not assigned is [None]. *)
Record coron1 : Type := Coron1 {
  pipe : pipeline;
  rejection_threshold : option float;
  maximum_cores : option string;
  pipe_save_results : bool
}.

(** What lies outside the file: the steps that a new pipeline has, the
    files that [glob.glob] finds for a pattern, the time of the [n]-th call
    of [datetime.now] in ISO format, and how [pipeline.run] ends on a
    file. *)
Record env : Type := Env {
  step_defaults : gmap string step;
  glob : string -> list string;
  isoformat : nat -> string;
  run : coron1 -> string -> error + unit
}.

(** [Coron1Pipeline()]: the defaults of [spec], nothing saved. *)
Definition Coron1Pipeline (e : env) : coron1 :=
  Coron1 (Pipeline (step_defaults e) 20 false false None []) None None false.

Definition with_skip (b : bool) (st : step) : step :=
  Step b (save_results st) (suffix st) (output_dir st) (n_pix_grow_sat st).

Definition on_steps (f : gmap string step -> gmap string step) (p : coron1) : coron1 :=
  Coron1 (Pipeline (f (steps (pipe p))) (nrow_ref (pipe p)) (grow_diagonal (pipe p))
            (save_intermediates (pipe p)) (pipe_output_dir (pipe p)) (saved (pipe p)))
    (rejection_threshold p) (maximum_cores p) (pipe_save_results p).

Definition set_nrow_ref (n : Z) (p : coron1) : coron1 :=
  Coron1 (Pipeline (steps (pipe p)) n (grow_diagonal (pipe p))
            (save_intermediates (pipe p)) (pipe_output_dir (pipe p)) (saved (pipe p)))
    (rejection_threshold p) (maximum_cores p) (pipe_save_results p).

Definition set_save_intermediates (b : bool) (p : coron1) : coron1 :=
  Coron1 (Pipeline (steps (pipe p)) (nrow_ref (pipe p)) (grow_diagonal (pipe p)) b
            (pipe_output_dir (pipe p)) (saved (pipe p)))
    (rejection_threshold p) (maximum_cores p) (pipe_save_results p).

Definition set_output_dir (d : string) (p : coron1) : coron1 :=
  Coron1 (Pipeline (steps (pipe p)) (nrow_ref (pipe p)) (grow_diagonal (pipe p))
            (save_intermediates (pipe p)) (Some d) (saved (pipe p)))
    (rejection_threshold p) (maximum_cores p) (pipe_save_results p).

(** [if hasattr(meta, attr): assign meta.attr] *)
Definition if_hasattr {A : Type} (attr : option A) (assign : A -> coron1 -> coron1)
    (p : coron1) : coron1 :=
  match attr with
  | Some v => assign v p
  | None => p
  end.

(** Lines 265-293: the pipeline set up from [meta].  A truth value assigned
    to [nrow_ref] is the integer 1 or 0. *)
Definition configure (m : meta) (osubdir : string) (p : coron1) : coron1 :=
  (* Skip certain steps? *)
  let p := if_hasattr (skip_jump m) (fun v => on_steps (alter (with_skip v) "jump")) p in
  let p := if_hasattr (skip_dark_current m)
             (fun v => on_steps (alter (with_skip v) "dark_current")) p in
  let p := if_hasattr (skip_ipc m) (fun v => on_steps (alter (with_skip v) "ipc")) p in
  (* Skip persistence step for now since it doesn't do anything *)
  let p := on_steps (alter (with_skip true) "persistence") p in
  (* Set some Step parameters *)
  let p := if_hasattr (jump_threshold m)
             (fun v p => Coron1 (pipe p) (Some v) (maximum_cores p) (pipe_save_results p)) p in
  let p := if_hasattr (ramp_fit_max_cores m)
             (fun v p => Coron1 (pipe p) (rejection_threshold p) (Some v)
                           (pipe_save_results p)) p in
  let p := if_hasattr (meta_nrow_ref m) set_nrow_ref p in
  let p := if_hasattr (meta_grow_diagonal m) (fun v => set_nrow_ref (Z.b2z v)) p in
  let p := if_hasattr (sat_boundary m) (fun _ p => p) p in
  (* Options for saving intermediate results *)
  let p := if_hasattr (meta_save_intermediates m) set_save_intermediates p in
  let p := Coron1 (pipe p) (rejection_threshold p) (maximum_cores p) true in
  (* Set up directory to save into *)
  set_output_dir (odir m +:+ osubdir) p.

(** The directories that exist, the log files created, the handlers of the
    root logger (each with the number that tells it from the others, and its
    file), the number of calls of [datetime.now] and the calls of
    [pipeline.run] made so far. *)
Record world : Type := World {
  dirs : gset string;
  log_files : list string;
  handlers : list (nat * string);
  handlers_made : nat;
  ticks : nat;
  runs : list (coron1 * string)
}.

(** [if os.path.exists(d) == False: os.makedirs(d)] *)
Definition makedirs_if_missing (d : string) : R world unit :=
  fun w =>
    (inr (), World (if bool_decide (d ∈ dirs w) then dirs w else {[ d ]} ∪ dirs w)
               (log_files w) (handlers w) (handlers_made w) (ticks w) (runs w)).

(** [datetime.now().isoformat()] *)
Definition now (e : env) : R world string :=
  fun w =>
    (inr (isoformat e (ticks w)),
     World (dirs w) (log_files w) (handlers w) (handlers_made w) (S (ticks w)) (runs w)).

(** [with open(log_file, 'w') as f: pass] *)
Definition create (log_file : string) : R world unit :=
  fun w =>
    (inr (), World (dirs w) (log_files w ++ [log_file]) (handlers w) (handlers_made w)
               (ticks w) (runs w)).

(** [fh = logging.FileHandler(log_file, 'a'); logger.addHandler(fh)] *)
Definition addHandler (log_file : string) : R world nat :=
  fun w =>
    (inr (handlers_made w),
     World (dirs w) (log_files w) (handlers w ++ [(handlers_made w, log_file)])
       (S (handlers_made w)) (ticks w) (runs w)).

(** [logger.removeHandler(fh); fh.close()] *)
Definition removeHandler (fh : nat) : R world unit :=
  fun w =>
    (inr (), World (dirs w) (log_files w)
               (filter (fun h : nat * string => h.1 ≠ fh) (handlers w))
               (handlers_made w) (ticks w) (runs w)).

(** [pipeline.run(file)] *)
Definition pipeline_run (e : env) (p : coron1) (file : string) : R world unit :=
  fun w =>
    (run e p file,
     World (dirs w) (log_files w) (handlers w) (handlers_made w) (ticks w)
       (runs w ++ [(p, file)])).

(** [try: m except Exception as e: handler e finally: final] *)
Definition try_except_finally {S A : Type} (m : R S A) (handler : error -> R S A)
    (final : R S unit) : R S A :=
  fun s =>
    let '(r, s1) :=
      match m s with
      | (inr a, s1) => (inr a, s1)
      | (inl e, s1) => handler e s1
      end in
    match final s1 with
    | (inr _, s2) => (r, s2)
    | (inl e, s2) => (inl e, s2)
    end.

(** [for x in xs: body x] *)
Fixpoint for_each {S A : Type} (xs : list A) (body : A -> R S unit) : R S unit :=
  match xs with
  | [] => ret ()
  | x :: rest => bind (body x) (fun _ => for_each rest body)
  end.

Section Run.
Variable e : env.

Notation "'let!' x ':=' m 'in' k" := (bind m (fun x => k))
  (at level 10, x name, m at level 100, k at level 200, only parsing).

(** Lines 262-323: the body of the loop, for one file. *)
Definition fit (m : meta) (osubdir : string) (file : string) : R world unit :=
  (* Set up pipeline *)
  let pipeline := configure m osubdir (Coron1Pipeline e) in
  let output_dir := odir m +:+ osubdir in
  let! _ := makedirs_if_missing output_dir in
  (* Create log file output *)
  let file_base := replace "uncal.fits" "" (basename file) in
  let! date_str := now e in
  let fname := file_base +:+ "_detector1_" +:+ date_str +:+ ".log" in
  let log_file := path_join output_dir fname in
  (* Create empty file *)
  let! _ := create log_file in
  (* Add file stream handler to also append log messages to file *)
  let! fh := addHandler log_file in
  (* Run pipeline, raise exception on error, and close log file handler *)
  try_except_finally (pipeline_run e pipeline file)
    (fun exc =>
       raise (RuntimeError ("Caugh exception during pipeline processing."
                            +:+ String "010" "Exception: " +:+ message exc)))
    (removeHandler fh).

(** [run_ramp_fitting] *)
Definition run_ramp_fitting (m : meta) (idir osubdir : string) : R world unit :=
  let search := "*" +:+ ramp_ext m in
  (* Get all of the files in the input directory *)
  let files := glob e (idir +:+ search) in
  if (length files =? 0)%nat
  then raise (ValueError ("Unable to locate any " +:+ search +:+ " files in directory "
                          +:+ idir))
  else
    (* Run the pipeline on every file in a directory *)
    for_each files (fit m osubdir).

(** [stsci_ramp_fitting] *)
Definition stsci_ramp_fitting (m : meta) : R world unit :=
  let! _ :=
    if rampfit_idir m then run_ramp_fitting m (idir m) "RAMPFIT/SCI+REF/" else ret () in
  if rampfit_bgdirs m then
    let! _ :=
      if negb (bool_decide (bg_sci_dir m = "None"))
      then run_ramp_fitting m (bg_sci_dir m) "RAMPFIT/BGSCI/" else ret () in
    if negb (bool_decide (bg_ref_dir m = "None"))
    then run_ramp_fitting m (bg_ref_dir m) "RAMPFIT/BGREF/" else ret ()
  else ret ().

End Run.

End Fit.

(** ** A directory of two files to run the pipeline on *)

Module FitSample.

Import DQ Ramp Fit.

(** Two files are found in [in/]; the pipeline raises on the second. *)
Definition env : Fit.env := {|
  step_defaults := steps RampSample.coron1;
  glob := fun pattern =>
    if bool_decide (pattern = "in/*uncal.fits")
    then ["in/a_uncal.fits"; "in/b_uncal.fits"] else [];
  isoformat := fun _ => "2022-07-01T07:20:00";
  run := fun _ file =>
    if bool_decide (file = "in/b_uncal.fits") then inl (StepFailed "no reference file")
    else inr ()
|}.

(** A [meta] that asks for four reference rows and for the growth along
    the diagonals. *)
Definition meta : Fit.meta := {|
  ramp_ext := "uncal.fits"; odir := "out/";
  skip_jump := None; skip_dark_current := None; skip_ipc := None;
  jump_threshold := None; ramp_fit_max_cores := None;
  meta_nrow_ref := Some 4%Z; meta_grow_diagonal := Some true; sat_boundary := Some 2%Z;
  meta_save_intermediates := None;
  rampfit_idir := true; rampfit_bgdirs := false;
  idir := "in/"; bg_sci_dir := "None"; bg_ref_dir := "None"
|}.

Definition start : world := World ∅ [] [] 0 0 [].

End FitSample.

(** ** Model PSFs (psf.py) *)

Module Psf.

Import Str.

(** The exceptions of [psf.py]: those that the file raises, those that
    Python and NumPy raise in it, and [External] for what a routine of
    another package raises. *)
Inductive error : Type :=
| ValueError (msg : string)
| TypeError (msg : string)
| IndexError (msg : string)
| UnboundLocalError (name : string)
| UserWarning (msg : string)
| External (msg : string).

(** An image: the list of its rows. *)
Abbreviation image := (list (list float)).

(** *** The masks of [JWST_PSF] *)

(** What lines 102-155 of [JWST_PSF.__init__] choose; [ND_acq] is assigned
    for NIRCam only. *)
Record selection : Type := Selection {
  inst : string;
  image_mask : option string;
  pupil_mask : option string;
  ND_acq : option bool
}.

(** Lines 113-138: the masks of a NIRCam aperture.  A mask that ends in
    neither R nor B leaves [pupil_mask] unassigned, which line 159 reads. *)
Definition nircam_masks (apername : string) : error + selection :=
  if contains "FULL_WEDGE" apername
  then inl (ValueError "NIRCam FULL_WEDGE not supported. Use more specific aperture.")
  else
    let ND_acq := false in
    match
      (if negb (contains "MASK" apername) then inr None
       else
         match find (contains "MASK") (split "_" apername) with
         | None => inl (UnboundLocalError "image_mask")
         | Some image_mask =>
             (* Special case for TA apertures *)
             if contains "TA" image_mask
             then
               (* the mask is set to None, and then searched for FS *)
               inl (TypeError "argument of type 'NoneType' is not iterable")
             else inr (Some image_mask)
         end)
    with
    | inl e => inl e
    | inr None => inr (Selection "NIRCAM" None None (Some ND_acq))
    | inr (Some image_mask) =>
        (* Choose Lyot stop based on coronagraphic mask input *)
        match last_char image_mask with
        | None => inl (IndexError "string index out of range")
        | Some c =>
            if Ascii.eqb c "R"
            then inr (Selection "NIRCAM" (Some image_mask) (Some "CIRCLYOT") (Some ND_acq))
            else if Ascii.eqb c "B"
            then inr (Selection "NIRCAM" (Some image_mask) (Some "WEDGELYOT") (Some ND_acq))
            else inl (UnboundLocalError "pupil_mask")
        end
    end.

(** Lines 140-153: the masks of a MIRI aperture. *)
Definition miri_masks (apername : string) : selection :=
  if contains "1065" apername then Selection "MIRI" (Some "FQPM1065") (Some "MASKFQPM") None
  else if contains "1140" apername
  then Selection "MIRI" (Some "FQPM1140") (Some "MASKFQPM") None
  else if contains "1550" apername
  then Selection "MIRI" (Some "FQPM1550") (Some "MASKFQPM") None
  else if contains "LYOT" apername
  then Selection "MIRI" (Some "LYOT2300") (Some "MASKLYOT") None
  else Selection "MIRI" None None None.

(** Lines 102-155, given the aperture names of the two SIAF lists. *)
Definition select_masks (nrc mir : list string) (apername : string) : error + selection :=
  if bool_decide (apername ∈ nrc) then nircam_masks apername
  else if bool_decide (apername ∈ mir) then inr (miri_masks apername)
  else inl (ValueError "apername not found in NIRCam or MIRI SIAF lists").

(** The rest of [__init__] lies in [webbpsf_ext]: lines 157-207, which set
    up the two instruments, and lines 209-242, which compute and centre
    the PSFs, given whether the mask is a bar. *)
Record setup : Type := Setup {
  instruments : selection -> error + unit;
  psfs : selection -> bool -> error + unit
}.

(** [JWST_PSF.__init__]: the masks that the object is built with. *)
Definition init (nrc mir : list string) (ext : setup) (apername : string)
    : error + selection :=
  match select_masks nrc mir apername with
  | inl e => inl e
  | inr sel =>
      match instruments ext sel with
      | inl e => inl e
      | inr _ =>
          (* line 208: [image_mask[-1] == 'B'] *)
          match image_mask sel with
          | None => inl (TypeError "'NoneType' object is not subscriptable")
          | Some mask =>
              match last_char mask with
              | None => inl (IndexError "string index out of range")
              | Some c =>
                  match psfs ext sel (Ascii.eqb c "B") with
                  | inl e => inl e
                  | inr _ => inr sel
                  end
              end
          end
      end
  end.

(** *** The offset PSF *)

(** A row of the observations table: the columns that the file reads.
    [NINTS] is the number of integrations as the binary64 number that the
    product with [EFFINTTM] makes of it. *)
Record row : Type := Row {
  TYPE : string;
  TELESCOP : string;
  INSTRUME : string;
  PUPIL : string;
  CORONMSK : string;
  FILTER : string;
  NINTS : float;
  EFFINTTM : float;
  ROLL_REF : float
}.

(** [np.where(obs['TYPE'] == 'SCI')[0]], counting the rows from [i]. *)
Fixpoint where_sci (i : nat) (obs : list row) : list nat :=
  match obs with
  | [] => []
  | r :: rest =>
      if bool_decide (TYPE r = "SCI") then i :: where_sci (S i) rest
      else where_sci (S i) rest
  end.

(** A WebbPSF instrument as [gen_offsetpsf] leaves it: which instrument it
    is, and the attributes and options assigned; [pupil_mask] is [None]
    when nothing was assigned to it. *)
Record instrument : Type := Instrument {
  webbpsf : string;
  inst_pupil_mask : option (option string);
  inst_image_mask : option string;
  inst_filter : string;
  source_offset : option (float * float);
  opd_date : option string
}.

(** Lines 737-817 of [gen_offsetpsf]: the instrument set up from the first
    science row. *)
Definition webbpsf_inst (obs : list row) (xyoff : option (float * float))
    (date : option string) : error + instrument :=
  (* Find the science target observations. *)
  match where_sci 0 obs with
  | [] => inl (IndexError "index 0 is out of bounds for axis 0 with size 0")
  | j :: _ =>
      match obs !! j with
      | None => inl (IndexError "index out of bounds")
      | Some r =>
          if bool_decide (TELESCOP r = "JWST") then
            if bool_decide (INSTRUME r = "NIRCAM") then
              let pupil_mask :=
                if negb (bool_decide (PUPIL r = "NONE")) then
                  if bool_decide (PUPIL r = "MASKBAR") then
                    if contains "LWB" (CORONMSK r) then Some "MASKLWB" else Some "MASKSWB"
                  else Some (PUPIL r)
                else None in
              let image_mask :=
                match xyoff with Some _ => Some (CORONMSK r) | None => None end in
              inr (Instrument "NIRCam" (Some pupil_mask) image_mask (FILTER r) xyoff date)
            else if bool_decide (INSTRUME r = "NIRISS") then
              let pupil_mask :=
                if negb (bool_decide (PUPIL r = "NONE")) then Some (PUPIL r) else None in
              inr (Instrument "NIRISS" (Some pupil_mask) None (FILTER r) xyoff date)
            else if bool_decide (INSTRUME r = "MIRI") then
              let pupil_mask :=
                if contains "4QPM" (CORONMSK r) then Some (Some "MASKFQPM")
                else if contains "LYOT" (CORONMSK r) then Some (Some "MASKLYOT")
                else None in
              let image_mask :=
                match xyoff with
                | Some _ => Some (replace "4QPM_" "FQPM" (CORONMSK r))
                | None => None
                end in
              inr (Instrument "MIRI" pupil_mask image_mask (FILTER r) xyoff date)
            else inl (UserWarning "Data originates from unknown JWST instrument")
          else inl (UserWarning "Data originates from unknown telescope")
      end
  end.

(** The routines of other packages: [calc_psf] of WebbPSF with
    [oversample=1, fov_pixels=65, normalize='exit_pupil'] and a source,
    [recenter_jens] (a minimisation) and [imshift] of [utils],
    [scipy.ndimage.rotate] with [reshape=False, mode='constant', cval=0.],
    and [np.sum(np.array(images), axis=0)]. *)
Record library : Type := Library {
  calc_psf : instrument -> option string -> error + image;
  recenter_jens : image -> float * float;
  imshift : image -> float * float -> image;
  rotate : image -> float -> image;
  sum_images : list image -> image
}.

(** [gen_offsetpsf] *)
Definition gen_offsetpsf (lib : library) (obs : list row) (xyoff : option (float * float))
    (date : option string) (source : option string) : error + image :=
  match webbpsf_inst obs xyoff date with
  | inl e => inl e
  | inr inst => calc_psf lib inst source
  end.

(** [np.argmax] of binary64 numbers, as NumPy scans them: the first NaN, or
    else the first of the largest; [mp] is the largest so far, at [best]. *)
Fixpoint argmax_from (mp : float) (best i : nat) (l : list float) : nat :=
  match l with
  | [] => best
  | x :: rest =>
      if negb (x <=? mp)%float
      then if is_nan x then i else argmax_from x i (S i) rest
      else argmax_from mp best (S i) rest
  end.

Definition argmax (l : list float) : error + nat :=
  match l with
  | [] => inl (ValueError "attempt to get argmax of an empty sequence")
  | x :: rest => inr (if is_nan x then 0 else argmax_from x 0 1 rest)
  end.

(** [a.shape] of a 2-D array given by its rows. *)
Definition shape2 (a : image) : nat * nat :=
  (length a, match a with row :: _ => length row | [] => 0 end).

(** [np.roll(np.roll(a, dx, axis=1), dy, axis=0)] *)
Definition roll2 (dx dy : Z) (a : image) : image :=
  DQ.roll dy (DQ.roll dx <$> a).

(** Lines 681-684: the largest pixel moved to [(32, 32)]. *)
Definition center_peak (offsetpsf : image) : error + image :=
  match argmax (concat offsetpsf) with
  | inl e => inl e
  | inr i =>
      let W := (shape2 offsetpsf).2 in
      let ww_max := (i / W, i mod W) in
      if negb (bool_decide (ww_max = (32, 32))) then
        let dx := (32 - Z.of_nat ww_max.2)%Z in
        let dy := (32 - Z.of_nat ww_max.1)%Z in
        inr (roll2 dx dy offsetpsf)
      else inr offsetpsf
  end.

(** An image times a number, and divided by one. *)
Definition scale (c : float) (a : image) : image :=
  (fun row : list float => (fun v => c * v)%float <$> row) <$> a.

Definition divide (a : image) (c : float) : image :=
  (fun row : list float => (fun v => v / c)%float <$> row) <$> a.

(** [get_offsetpsf] *)
Definition get_offsetpsf (lib : library) (obs : list row) (recenter derotate : bool)
    : error + image :=
  (* Generate an unocculted model PSF using WebbPSF. *)
  match gen_offsetpsf lib obs None None None with
  | inl e => inl e
  | inr offsetpsf =>
      (* Recenter the offset PSF. *)
      match
        (if recenter then
           let shift := recenter_jens lib offsetpsf in
           center_peak (imshift lib offsetpsf shift)
         else inr offsetpsf)
      with
      | inl e => inl e
      | inr offsetpsf =>
          (* Find the science target observations. *)
          let ww_sci := where_sci 0 obs in
          if derotate then
            let rows := omap (fun j => obs !! j) ww_sci in
            let totpsf :=
              (fun r => scale (NINTS r * EFFINTTM r)%float
                          (rotate lib offsetpsf (- ROLL_REF r)%float)) <$> rows in
            let totexp :=
              foldl (fun acc r => acc + NINTS r * EFFINTTM r)%float 0%float rows in
            inr (divide (sum_images lib totpsf) totexp)
          else inr offsetpsf
      end
  end.

End Psf.

(** ** An image and a table to make an offset PSF of *)

Module PsfSample.

Import Psf.

(** An image of 33 x 33 pixels, 0 but for a pixel in row 3 and column 5. *)
Definition spot : image :=
  (fun y => (fun x => if ((y =? 3)%nat && (x =? 5)%nat)%bool then 1%float else 0%float)
              <$> seq 0 33) <$> seq 0 33.

(** Routines that return the spot as the PSF and leave an image as it is;
    the sum adds the images one after the other. *)
Definition lib : library := {|
  calc_psf := fun _ _ => inr spot;
  recenter_jens := fun _ => (0%float, 0%float);
  imshift := fun a _ => a;
  rotate := fun a _ => a;
  sum_images := fun images =>
    match images with
    | [] => []
    | a :: rest =>
        foldl (zip_with (zip_with (fun u v : float => (u + v)%float))) a rest
    end
|}.

Definition science : row := {|
  TYPE := "SCI"; TELESCOP := "JWST"; INSTRUME := "NIRCAM"; PUPIL := "MASKRND";
  CORONMSK := "MASKA335R"; FILTER := "F356W";
  NINTS := 2%float; EFFINTTM := 10%float; ROLL_REF := 0%float
|}.

Definition reference : row := {|
  TYPE := "REF"; TELESCOP := "HST"; INSTRUME := "WFC3"; PUPIL := "NONE";
  CORONMSK := "NONE"; FILTER := "F160W";
  NINTS := 1%float; EFFINTTM := 1%float; ROLL_REF := 0%float
|}.

End PsfSample.

(** * Part II: properties *)

(** ** Facts about binary64 numbers *)

Module F64Facts.

Local Open Scope Z_scope.

Lemma SF64div_one (x : spec_float) :
  valid_binary x = true ->
  SF64div x (S754_finite false 4503599627370496 (-52)) = x.
Proof.
  destruct x as [s|s| |s m e]; simpl; intros Hv.
  - now rewrite xorb_false_r.
  - now rewrite xorb_false_r.
  - reflexivity.
  - unfold SF64div, SFdiv. rewrite xorb_false_r.
    unfold SpecFloat.valid_binary, bounded, canonical_mantissa in Hv.
    apply andb_prop in Hv as [Hc He].
    apply Z.eqb_eq in Hc. apply Z.leb_le in He.
    unfold fexp, SpecFloat.emin in Hc.
    unfold prec, emax in *.
    unfold SFdiv_core_binary.
    change (Zdigits2 (Z.pos m)) with (Z.pos (digits2_pos m)).
    change (Zdigits2 4503599627370496) with 53.
    set (d := Z.pos (digits2_pos m)) in *.
    assert (Hd : 0 < d) by (unfold d; lia).
    unfold fexp, SpecFloat.emin.
    destruct (Z.eq_dec e (-1074)) as [->|Hne].
    + (* the least exponent: no shift is needed *)
      assert (Hd53 : d <= 53) by lia.
      replace (Z.min (Z.max (d + -1074 - (53 + -52) - 53) (3 - 1024 - 53)) (-1074 - -52))
        with (-1074) by lia.
      change (-1074 - -52 - -1074) with 52.
      cbv zeta.
      rewrite Z.shiftl_mul_pow2 by lia.
      replace (IntDef.Z.div_eucl (Z.pos m * 2 ^ 52) 4503599627370496) with (Z.pos m, 0).
      2:{ symmetry. change IntDef.Z.div_eucl with Z.div_eucl.
          pose proof (Z.div_eucl_eq (Z.pos m * 2 ^ 52) 4503599627370496 ltac:(lia)) as Heq.
          pose proof (Z.mod_pos_bound (Z.pos m * 2 ^ 52) 4503599627370496 ltac:(lia)) as Hb.
          unfold Z.modulo in Hb.
          destruct (Z.div_eucl (Z.pos m * 2 ^ 52) 4503599627370496) as [q r].
          change (2 ^ 52) with 4503599627370496 in *.
          f_equal; lia. }
      change (new_location 4503599627370496 0) with loc_Exact.
      unfold binary_round_aux, shr_fexp.
      change (Zdigits2 (Z.pos m)) with d.
      unfold fexp, SpecFloat.emin.
      replace (Z.max (d + -1074 - 53) (3 - 1024 - 53) - -1074) with 0 by lia.
      cbn [shr shr_record_of_loc shr_m loc_of_shr_record round_nearest_even fst snd].
      change (Zdigits2 (Z.pos m)) with d.
      replace (Z.max (d + -1074 - 53) (3 - 1024 - 53) - -1074) with 0 by lia.
      cbn [shr shr_record_of_loc shr_m].
      destruct (Z.leb_spec (-1074) (1024 - 53)); [reflexivity | lia].
    + (* a normal number: the quotient has one digit too many *)
      assert (Hd53 : d = 53) by lia.
      rewrite Hd53.
      replace (Z.min (Z.max (53 + e - (53 + -52) - 53) (3 - 1024 - 53)) (e - -52))
        with (e - 1) by lia.
      replace (e - -52 - (e - 1)) with 53 by lia.
      cbv zeta.
      rewrite Z.shiftl_mul_pow2 by lia.
      replace (IntDef.Z.div_eucl (Z.pos m * 2 ^ 53) 4503599627370496)
        with (Z.pos (xO m), 0).
      2:{ symmetry. change IntDef.Z.div_eucl with Z.div_eucl.
          pose proof (Z.div_eucl_eq (Z.pos m * 2 ^ 53) 4503599627370496 ltac:(lia)) as Heq.
          pose proof (Z.mod_pos_bound (Z.pos m * 2 ^ 53) 4503599627370496 ltac:(lia)) as Hb.
          unfold Z.modulo in Hb.
          destruct (Z.div_eucl (Z.pos m * 2 ^ 53) 4503599627370496) as [q r].
          change (2 ^ 53) with 9007199254740992 in *.
          f_equal; lia. }
      change (new_location 4503599627370496 0) with loc_Exact.
      unfold binary_round_aux, shr_fexp.
      change (Zdigits2 (Z.pos m~0)) with (Z.pos (Pos.succ (digits2_pos m))).
      rewrite Pos2Z.inj_succ. fold d. rewrite Hd53.
      unfold fexp, SpecFloat.emin.
      replace (Z.max (Z.succ 53 + (e - 1) - 53) (3 - 1024 - 53) - (e - 1)) with 1 by lia.
      cbn [shr shr_record_of_loc shr_m loc_of_shr_record round_nearest_even fst snd
           SpecFloat.iter_pos shr_1 shr_r shr_s orb].
      change (Zdigits2 (Z.pos m)) with d. rewrite Hd53.
      replace (e - 1 + 1) with e by lia.
      replace (Z.max (53 + e - 53) (3 - 1024 - 53) - e) with 0 by lia.
      cbn [shr shr_record_of_loc shr_m].
      destruct (Z.leb_spec e (1024 - 53)); [reflexivity | lia].
Qed.

(** Dividing by one is exact. *)
Lemma div_one (x : float) : (x / 1)%float = x.
Proof.
  apply Prim2SF_inj. rewrite FloatAxioms.div_spec.
  change (Prim2SF 1) with (S754_finite false 4503599627370496 (-52)).
  apply SF64div_one, Prim2SF_valid.
Qed.

Ltac cmp_cases :=
  repeat match goal with
  | H : context [Z.compare ?a ?b] |- _ => destruct (Z.compare_spec a b); subst
  | |- context [Z.compare ?a ?b] => destruct (Z.compare_spec a b); subst
  | H : context [PosDef.Pos.compare_cont Eq ?a ?b] |- _ =>
      change (PosDef.Pos.compare_cont Eq a b) with (Pos.compare a b) in *;
      destruct (Pos.compare_spec a b); subst
  | |- context [PosDef.Pos.compare_cont Eq ?a ?b] =>
      change (PosDef.Pos.compare_cont Eq a b) with (Pos.compare a b) in *;
      destruct (Pos.compare_spec a b); subst
  end.

Ltac sf_cases := simpl in *; try reflexivity; try discriminate; try lia.

Lemma SFleb_trans x y z :
  SFleb x y = true -> SFleb y z = true -> SFleb x z = true.
Proof.
  unfold SFleb, SFcompare.
  destruct x as [[]|[]| |[] m1 e1], y as [[]|[]| |[] m2 e2], z as [[]|[]| |[] m3 e3];
    try reflexivity; try discriminate; intros H1 H2; cmp_cases; sf_cases.
Qed.

Lemma SFleb_total x y :
  SFeqb x x = true -> SFeqb y y = true -> SFleb x y = false -> SFltb y x = true.
Proof.
  unfold SFleb, SFltb, SFeqb, SFcompare.
  destruct x as [[]|[]| |[] m1 e1], y as [[]|[]| |[] m2 e2];
    try reflexivity; try discriminate; intros _ _ H1; cmp_cases; sf_cases.
Qed.

Lemma SFltb_leb x y : SFltb x y = true -> SFleb x y = true.
Proof. unfold SFltb, SFleb. destruct (SFcompare x y) as [[]|]; congruence. Qed.

Lemma SFltb_not_leb x y : SFltb x y = true -> SFleb y x = false.
Proof.
  unfold SFleb, SFltb, SFcompare.
  destruct x as [[]|[]| |[] m1 e1], y as [[]|[]| |[] m2 e2];
    try reflexivity; try discriminate; intros H1; cmp_cases; sf_cases.
Qed.

(** The order of binary64 on numbers: reflexive, transitive and total. *)
Lemma leb_refl (x : float) : is_nan x = false -> (x <=? x)%float = true.
Proof.
  unfold is_nan. rewrite FloatAxioms.eqb_spec, FloatAxioms.leb_spec.
  unfold SFeqb, SFleb. destruct (SFcompare _ _) as [[]|]; simpl; congruence.
Qed.

Lemma leb_trans (x y z : float) :
  (x <=? y)%float = true -> (y <=? z)%float = true -> (x <=? z)%float = true.
Proof. rewrite !FloatAxioms.leb_spec. apply SFleb_trans. Qed.

Lemma ltb_leb (x y : float) : (x <? y)%float = true -> (x <=? y)%float = true.
Proof. rewrite FloatAxioms.ltb_spec, FloatAxioms.leb_spec. apply SFltb_leb. Qed.

Lemma ltb_not_leb (x y : float) : (x <? y)%float = true -> (y <=? x)%float = false.
Proof. rewrite FloatAxioms.ltb_spec, FloatAxioms.leb_spec. apply SFltb_not_leb. Qed.

Lemma not_leb_ltb (x y : float) :
  is_nan x = false -> is_nan y = false ->
  (x <=? y)%float = false -> (y <? x)%float = true.
Proof.
  unfold is_nan. rewrite !FloatAxioms.eqb_spec, FloatAxioms.leb_spec, FloatAxioms.ltb_spec.
  intros Hx Hy. apply SFleb_total.
  - now destruct (SFeqb (Prim2SF x) (Prim2SF x)).
  - now destruct (SFeqb (Prim2SF y) (Prim2SF y)).
Qed.

(** A comparison with NaN is false. *)
Lemma leb_nan_l (x y : float) : is_nan x = true -> (x <=? y)%float = false.
Proof.
  unfold is_nan. rewrite FloatAxioms.eqb_spec, FloatAxioms.leb_spec.
  unfold SFeqb, SFleb, SFcompare.
  destruct (Prim2SF x) as [[]|[]| |[] m1 e1], (Prim2SF y) as [[]|[]| |[] m2 e2];
    try reflexivity; try discriminate; intros H1; cmp_cases; sf_cases;
    rewrite ?Z.compare_refl, ?Pos.compare_cont_refl in H1; discriminate.
Qed.

End F64Facts.

(** ** The heap and the assignments through a mask *)

Module NpFacts.

Lemma deref_live (h : heap) l a : h !! l = Some a -> deref l h = (inr a, h).
Proof. intros H. unfold deref. now rewrite H. Qed.

Lemma update_live (h : heap) l a g :
  h !! l = Some a -> update l g h = (inr (), <[l := g a]> h).
Proof. intros H. unfold update. now rewrite H. Qed.

Lemma copy_live (h : heap) l a :
  h !! l = Some a -> copy l h = (inr (fresh (dom h)), <[fresh (dom h) := a]> h).
Proof. intros H. unfold copy, Py.bind. now rewrite (deref_live h l a H). Qed.

Lemma fresh_unbound (h : heap) : h !! fresh (dom h) = None.
Proof. apply not_elem_of_dom, is_fresh. Qed.

Lemma fresh_ne (h : heap) l a : h !! l = Some a -> fresh (dom h) ≠ l.
Proof. intros H Heq. rewrite <- Heq, fresh_unbound in H. discriminate. Qed.

(** A loop of assignments to one array is one assignment of their
    composition. *)
Lemma for_each_update {A : Type} (g : A -> ndarray -> ndarray) l (xs : list A) :
  ∀ (h : heap) b, h !! l = Some b ->
    for_each xs (fun x => update l (g x)) h
    = (inr (), <[l := foldl (fun c x => g x c) b xs]> h).
Proof.
  induction xs as [|x xs IH]; intros h b Hb; simpl.
  - unfold ret. now rewrite insert_id.
  - unfold Py.bind. rewrite (update_live h l b _ Hb).
    rewrite (IH _ (g x b)) by apply lookup_insert_eq.
    now rewrite insert_insert_eq.
Qed.

Lemma shape_foldl_setitem_mask {A : Type} (m : A -> list bool) v (xs : list A) :
  ∀ b, shape (foldl (fun c x => setitem_mask (m x) v c) b xs) = shape b.
Proof. induction xs as [|x xs IH]; intros b; simpl; [done|]. now rewrite IH. Qed.

Lemma buffer_foldl_setitem_mask {A : Type} (m : A -> list bool) v (xs : list A) i :
  ∀ b, buffer (foldl (fun c x => setitem_mask (m x) v c) b xs) !! i
       = (fun d => if existsb (fun x => frame_mask (m x) i) xs then v else d)
           <$> buffer b !! i.
Proof.
  induction xs as [|x xs IH]; intros b; simpl.
  - now destruct (buffer b !! i).
  - rewrite IH. simpl. rewrite list_lookup_imap.
    destruct (buffer b !! i) as [d|]; simpl; [|done].
    destruct (frame_mask (m x) i); simpl; [|done].
    now destruct (existsb _ xs).
Qed.

Lemma shape_foldl_setitem_mask_from {A : Type} (m : A -> list bool) src (xs : list A) :
  ∀ b, shape (foldl (fun c x => setitem_mask_from (m x) src c) b xs) = shape b.
Proof. induction xs as [|x xs IH]; intros b; simpl; [done|]. now rewrite IH. Qed.

Lemma buffer_foldl_setitem_mask_from {A : Type} (m : A -> list bool) src (xs : list A) i :
  ∀ b, buffer (foldl (fun c x => setitem_mask_from (m x) src c) b xs) !! i
       = (fun d => if existsb (fun x => frame_mask (m x) i) xs
                   then default d (buffer src !! i) else d)
           <$> buffer b !! i.
Proof.
  induction xs as [|x xs IH]; intros b; simpl.
  - now destruct (buffer b !! i).
  - rewrite IH. simpl. rewrite list_lookup_imap.
    destruct (buffer b !! i) as [d|]; simpl; [|done].
    destruct (frame_mask (m x) i); simpl; [|done].
    destruct (existsb _ xs); [|done].
    now destruct (buffer src !! i).
Qed.

(** The position of pixel [(y, x)] of frame [f] in the buffer, and back. *)
Lemma flat_index_mod (H W f y x : nat) :
  y < H -> x < W -> (f * (H * W) + y * W + x) mod (H * W) = y * W + x.
Proof.
  intros Hy Hx.
  replace (f * (H * W) + y * W + x) with (y * W + x + f * (H * W)) by lia.
  rewrite Nat.Div0.mod_add. apply Nat.mod_small. nia.
Qed.

Lemma flat_index_col (W y x : nat) : x < W -> (y * W + x) mod W = x.
Proof.
  intros Hx. rewrite Nat.add_comm, Nat.Div0.mod_add. now apply Nat.mod_small.
Qed.

Lemma flat_index_row (W y x : nat) : x < W -> (y * W + x) / W = y.
Proof.
  intros Hx. rewrite Nat.add_comm, Nat.div_add by lia.
  rewrite Nat.div_small by done. done.
Qed.

(** A mask computed pixel by pixel from the grids of [indices], read at the
    position of a pixel. *)
Lemma frame_mask_grid {A : Type} (H W : nat) (p : nat -> nat -> A) (g : A -> bool)
    (f y x : nat) :
  y < H -> x < W ->
  frame_mask (g <$> zip_with p (indices H W).2 (indices H W).1)
    (f * (H * W) + y * W + x)
  = g (p x y).
Proof.
  intros Hy Hx. unfold frame_mask, indices. simpl.
  rewrite length_fmap, length_zip_with, !length_fmap, !length_seq, Nat.min_id.
  rewrite flat_index_mod by done.
  assert (Hlt : y * W + x < H * W) by nia.
  rewrite list_lookup_fmap, lookup_zip_with, !list_lookup_fmap, lookup_seq_lt by done.
  simpl. now rewrite flat_index_col, flat_index_row.
Qed.

Lemma pixel_lookup (a : ndarray) (K H W f y x : nat) :
  shape a = [K; H; W] -> f < K -> y < H -> x < W ->
  pixel a f y x = buffer a !! (f * (H * W) + y * W + x).
Proof.
  intros Hs Hf Hy Hx. unfold pixel. rewrite Hs.
  now rewrite bool_decide_eq_true_2.
Qed.

Lemma pixel_Some (a : ndarray) (f y x : nat) v :
  pixel a f y x = Some v ->
  ∃ K H W, shape a = [K; H; W] ∧ f < K ∧ y < H ∧ x < W
           ∧ buffer a !! (f * (H * W) + y * W + x) = Some v.
Proof.
  unfold pixel. intros Hp.
  destruct (shape a) as [|K [|H [|W [|]]]]; try discriminate.
  case_bool_decide as Hb; [|discriminate].
  destruct Hb as (Hf & Hy & Hx). now exists K, H, W.
Qed.

(** Every pixel of a well-formed cube holds a value. *)
Lemma pixel_well_formed (a : ndarray) (K H W f y x : nat) :
  well_formed a -> shape a = [K; H; W] -> f < K -> y < H -> x < W ->
  is_Some (pixel a f y x).
Proof.
  unfold well_formed. intros Hwf Hs Hf Hy Hx.
  rewrite (pixel_lookup a K H W) by done. apply lookup_lt_is_Some.
  rewrite Hwf, Hs. simpl. rewrite Nat.mul_1_r.
  assert (Hrow : y * W + x < H * W) by nia.
  assert (Hframe : S f * (H * W) <= K * (H * W)) by (apply Nat.mul_le_mono_r; lia).
  lia.
Qed.

End NpFacts.

(** ** What the maskers compute *)

Module MaskerFacts.

Import NpFacts Masker.

Lemma for_each_ext {S A : Type} (xs : list A) (f g : A -> M S unit) :
  (∀ x s, f x s = g x s) -> ∀ s, for_each xs f s = for_each xs g s.
Proof.
  intros Hfg. induction xs as [|x xs IH]; intros s; simpl; [done|].
  unfold Py.bind. rewrite Hfg. destruct (g x s) as [[e|[]] s']; [done|]. apply IH.
Qed.

(** The array [mask_companions] returns for the cube [a]. *)
Lemma mask_companions_run (h : heap) data a K H W pxsc cent mrad ra_off de_off :
  h !! data = Some a -> shape a = [K; H; W] ->
  mask_companions data pxsc cent mrad ra_off de_off h
  = (inr (fresh (dom h)),
     <[fresh (dom h) :=
         foldl (fun c src =>
                  setitem_mask
                    (companion_mask pxsc cent mrad (indices H W).2 (indices H W).1
                       src.1 src.2) nan c)
           a (zip ra_off de_off)]> h).
Proof.
  intros Ha Hs. unfold mask_companions, Py.bind at 1.
  rewrite (deref_live h data a Ha), Hs.
  unfold Py.bind at 1. rewrite (copy_live h data a Ha).
  destruct (indices H W) as [yy xx] eqn:Hi. simpl.
  unfold Py.bind.
  rewrite (for_each_ext _ _
             (fun src => update (fresh (dom h))
                (setitem_mask (companion_mask pxsc cent mrad xx yy src.1 src.2) nan)))
    by (now intros [ra de] s).
  rewrite (for_each_update _ _ _ _ a) by apply lookup_insert_eq.
  unfold ret. now rewrite insert_insert_eq.
Qed.

(** Its elements, position by position. *)
Lemma mask_companions_buffer (a : ndarray) H W pxsc cent mrad srcs f y x :
  y < H -> x < W ->
  buffer (foldl (fun c (src : float * float) =>
                   setitem_mask
                     (companion_mask pxsc cent mrad (indices H W).2 (indices H W).1
                        src.1 src.2) nan c) a srcs)
    !! (f * (H * W) + y * W + x)
  = (fun d => if existsb (fun src : float * float =>
                   (companion_dist pxsc cent src.1 src.2 x y <=? mrad)%float) srcs
              then nan else d)
      <$> buffer a !! (f * (H * W) + y * W + x).
Proof.
  intros Hy Hx.
  rewrite (buffer_foldl_setitem_mask
             (fun src : float * float =>
                companion_mask pxsc cent mrad (indices H W).2 (indices H W).1 src.1 src.2)).
  assert (Hm : ∀ src : float * float,
             frame_mask (companion_mask pxsc cent mrad (indices H W).2 (indices H W).1
                           src.1 src.2) (f * (H * W) + y * W + x)
             = (companion_dist pxsc cent src.1 src.2 x y <=? mrad)%float).
  { intros src. unfold companion_mask.
    apply (frame_mask_grid H W (companion_dist pxsc cent src.1 src.2)
             (fun d => (d <=? mrad)%float) f y x Hy Hx). }
  assert (Hex : existsb (fun src : float * float =>
                   frame_mask (companion_mask pxsc cent mrad (indices H W).2
                                 (indices H W).1 src.1 src.2)
                     (f * (H * W) + y * W + x)) srcs
                = existsb (fun src : float * float =>
                     (companion_dist pxsc cent src.1 src.2 x y <=? mrad)%float) srcs).
  { induction srcs as [|src srcs IH]; cbn [existsb]; [done|]. now rewrite Hm, IH. }
  cbv beta. now rewrite Hex.
Qed.

Section Bar.
Context {lm : Libm}.

Lemma mask_bar_loop_tail (data data_masked : loc) tt a ranges :
  data_masked ≠ data ->
  ∀ i (h : heap) b, h !! data = Some a -> h !! data_masked = Some b ->
    mask_bar_loop data data_masked tt (S i) ranges h
    = (inr (),
       <[data_masked :=
           foldl (fun c r => setitem_mask_from (slice_mask tt r) a c) b ranges]> h).
Proof.
  intros Hne. induction ranges as [|r rest IH]; intros i h b Ha Hb; simpl.
  - unfold ret. now rewrite insert_id.
  - unfold Py.bind, ret.
    rewrite (deref_live h data a Ha), (update_live h data_masked b _ Hb).
    rewrite (IH (S i) _ (setitem_mask_from (slice_mask tt r) a b)).
    + now rewrite insert_insert_eq.
    + now rewrite lookup_insert_ne.
    + apply lookup_insert_eq.
Qed.

Lemma mask_bar_loop_run (data data_masked : loc) tt a ranges (h : heap) b :
  data_masked ≠ data -> h !! data = Some a -> h !! data_masked = Some b ->
  mask_bar_loop data data_masked tt 0 ranges h
  = (inr (),
     <[data_masked :=
         match ranges with
         | [] => b
         | _ :: _ =>
             foldl (fun c r => setitem_mask_from (slice_mask tt r) a c) (fill nan b) ranges
         end]> h).
Proof.
  intros Hne Ha Hb. destruct ranges as [|r rest]; simpl.
  - unfold ret. now rewrite insert_id.
  - unfold Py.bind.
    rewrite (update_live h data_masked b _ Hb).
    rewrite (deref_live _ data a) by now rewrite lookup_insert_ne.
    rewrite (update_live _ data_masked (fill nan b)) by apply lookup_insert_eq.
    rewrite (mask_bar_loop_tail data data_masked tt a rest Hne 0 _
               (setitem_mask_from (slice_mask tt r) a (fill nan b))).
    + now rewrite !insert_insert_eq.
    + now rewrite !lookup_insert_ne.
    + apply lookup_insert_eq.
Qed.

(** The array [mask_bar] returns for the cube [a]. *)
Lemma mask_bar_run (h : heap) data a K H W cent ranges :
  h !! data = Some a -> shape a = [K; H; W] ->
  mask_bar data cent ranges h
  = (inr (fresh (dom h)),
     <[fresh (dom h) :=
         match ranges with
         | [] => a
         | _ :: _ => foldl (restore_slice cent H W a) (fill nan a) ranges
         end]> h).
Proof.
  intros Ha Hs. unfold mask_bar, Py.bind at 1.
  rewrite (deref_live h data a Ha), Hs.
  unfold Py.bind at 1. rewrite (copy_live h data a Ha).
  destruct (indices H W) as [yy xx] eqn:Hi. unfold Py.bind.
  rewrite (mask_bar_loop_run data (fresh (dom h)) _ a ranges _ a).
  - unfold ret. rewrite insert_insert_eq. unfold restore_slice. now rewrite Hi.
  - now apply (fresh_ne h data a).
  - rewrite lookup_insert_ne; [done|]. now apply (fresh_ne h data a).
  - apply lookup_insert_eq.
Qed.

(** Its elements, position by position: with no range the input, otherwise
    the input inside the slices and NaN outside. *)
Lemma mask_bar_buffer (a : ndarray) H W cent ranges f y x :
  y < H -> x < W ->
  buffer (match ranges with
          | [] => a
          | _ :: _ => foldl (restore_slice cent H W a) (fill nan a) ranges
          end) !! (f * (H * W) + y * W + x)
  = (fun v =>
       match ranges with
       | [] => v
       | _ :: _ =>
           if existsb (fun r : float * float =>
                         (r.1 <=? position_angle cent x y)%float
                         && (position_angle cent x y <=? r.2)%float) ranges
           then v else nan
       end) <$> buffer a !! (f * (H * W) + y * W + x).
Proof.
  intros Hy Hx. destruct ranges as [|r0 rest]; [now destruct (buffer a !! _)|].
  set (ranges := r0 :: rest). set (i := f * (H * W) + y * W + x).
  unfold restore_slice.
  rewrite (buffer_foldl_setitem_mask_from
             (slice_mask (zip_with (position_angle cent) (indices H W).2 (indices H W).1))).
  assert (Hex : existsb (fun r : float * float =>
                   frame_mask
                     (slice_mask (zip_with (position_angle cent) (indices H W).2
                                    (indices H W).1) r) i) ranges
                = existsb (fun r : float * float =>
                     (r.1 <=? position_angle cent x y)%float
                     && (position_angle cent x y <=? r.2)%float) ranges).
  { clearbody ranges. induction ranges as [|r rs IH]; cbn [existsb]; [done|].
    rewrite IH. f_equal. unfold slice_mask.
    apply (frame_mask_grid H W (position_angle cent)
             (fun t => (r.1 <=? t)%float && (t <=? r.2)%float) f y x Hy Hx). }
  rewrite Hex. simpl.
  destruct (buffer a !! i) as [v|] eqn:Hv.
  - rewrite lookup_replicate_2 by (now apply lookup_lt_Some in Hv). simpl.
    now destruct (existsb _ ranges).
  - apply lookup_ge_None in Hv.
    rewrite (proj2 (lookup_ge_None _ _)); [done|]. now rewrite length_replicate.
Qed.

End Bar.

End MaskerFacts.

(** ** Properties of the maskers *)

Module MaskerSpec.

Import NpFacts Masker MaskerFacts.

Lemma shape_3d (a : ndarray) :
  length (shape a) = 3 -> ∃ K H W, shape a = [K; H; W].
Proof.
  destruct (shape a) as [|K [|H [|W [|]]]]; try discriminate. intros _. now exists K, H, W.
Qed.

Lemma mask_companions_raise (h : heap) data a pxsc cent mrad ra_off de_off :
  h !! data = Some a -> length (shape a) ≠ 3 ->
  mask_companions data pxsc cent mrad ra_off de_off h
  = (inl (UserWarning "Data has invalid shape"), h).
Proof.
  intros Ha Hn. unfold mask_companions, Py.bind. rewrite (deref_live h data a Ha).
  now destruct (shape a) as [|K [|H [|W [|]]]].
Qed.

Lemma mask_bar_raise {lm : Libm} (h : heap) data a cent ranges :
  h !! data = Some a -> length (shape a) ≠ 3 ->
  mask_bar data cent ranges h = (inl (UserWarning "Data has invalid shape"), h).
Proof.
  intros Ha Hn. unfold mask_bar, Py.bind. rewrite (deref_live h data a Ha).
  now destruct (shape a) as [|K [|H [|W [|]]]].
Qed.

Lemma existsb_elem_of {A : Type} (p : A -> bool) (l : list A) :
  existsb p l = true <-> ∃ x, x ∈ l ∧ p x = true.
Proof.
  rewrite existsb_exists. split; intros (x & Hx & Hp); exists x; split; try done;
    now apply list_elem_of_In.
Qed.

(** C1.  For a cube [a] of shape [(K, H, W)], [mask_companions] returns a new
    cube of that shape in which, in every frame, a pixel [(x, y)] is NaN when
    some known companion [(ra, de)] of [zip(ra_off, de_off)] has
    [companion_dist <= mrad], and keeps its value when every companion has
    [companion_dist > mrad].  [companion_dist] is the distance of lines
    437: the square root of [(x - cent[0] + ra/pxsc)^2 + (y - cent[1] -
    de/pxsc)^2], that is the distance to the point [(cent[0] - ra/pxsc,
    cent[1] + de/pxsc)], RA growing to the left and Dec upwards. *)
Theorem mask_companions_masks_sources (h : heap) data a K H W pxsc cent mrad
    ra_off de_off :
  h !! data = Some a -> shape a = [K; H; W] ->
  ∃ data_masked out,
    mask_companions data pxsc cent mrad ra_off de_off h
    = (inr data_masked, <[data_masked := out]> h)
    ∧ shape out = shape a
    ∧ ∀ f y x v, pixel a f y x = Some v ->
        ((∃ ra de, (ra, de) ∈ zip ra_off de_off
                   ∧ (companion_dist pxsc cent ra de x y <=? mrad)%float = true) ->
         pixel out f y x = Some nan)
        ∧ ((∀ ra de, (ra, de) ∈ zip ra_off de_off ->
                     (mrad <? companion_dist pxsc cent ra de x y)%float = true) ->
           pixel out f y x = Some v).
Proof.
  intros Ha Hs. eexists _, _. split; [exact (mask_companions_run h data a K H W _ _ _ _ _ Ha Hs)|].
  split; [now rewrite shape_foldl_setitem_mask|].
  intros f y x v Hp.
  destruct (pixel_Some a f y x v Hp) as (K' & H' & W' & Hs' & Hf & Hy & Hx & Hv).
  rewrite Hs in Hs'. injection Hs' as <- <- <-.
  rewrite (pixel_lookup _ K H W f y x) by (rewrite ?shape_foldl_setitem_mask; done).
  rewrite mask_companions_buffer, Hv by done. simpl.
  split.
  - intros (ra & de & Hin & Hle).
    rewrite (proj2 (existsb_elem_of _ _)); [done|]. now exists (ra, de).
  - intros Hout.
    destruct (existsb _ (zip ra_off de_off)) eqn:Hex; [|done].
    apply existsb_elem_of in Hex as ([ra de] & Hin & Hle). simpl in Hle.
    rewrite (F64Facts.ltb_not_leb _ _ (Hout ra de Hin)) in Hle. discriminate.
Qed.

(** A companion one pixel to the East and one to the North of the centre
    [(1, 1)] of a 3 x 3 frame, masked with a radius of half a pixel: its
    projected position is the pixel [(x, y) = (0, 2)], to the left of and
    above the centre, which becomes NaN; the centre keeps its value. *)
Lemma mask_companions_masks_sources_witness :
  projected_position 1%float (1, 1)%float 1%float 1%float
  = (F64.of_index 0, F64.of_index 2)
  ∧ ∃ data_masked out,
      mask_companions 1%positive 1%float (1, 1)%float 0.5%float [1%float] [1%float]
        (Sample.heap_of Sample.frame3)
      = (inr data_masked, <[data_masked := out]> (Sample.heap_of Sample.frame3))
      ∧ pixel out 0 2 0 = Some nan
      ∧ pixel out 0 1 1 = Some 5%float.
Proof.
  split; [reflexivity|].
  destruct (mask_companions_masks_sources (Sample.heap_of Sample.frame3) 1%positive
              Sample.frame3 1 3 3 1%float (1, 1)%float 0.5%float [1%float] [1%float])
    as (l & out & Hrun & _ & Hpix); [reflexivity | reflexivity |].
  exists l, out. split; [exact Hrun|]. split.
  - apply (Hpix 0 2 0 7%float); [reflexivity|].
    exists 1%float, 1%float. split; [apply list_elem_of_here | reflexivity].
  - apply (Hpix 0 1 1 5%float); [reflexivity|].
    intros ra de Hin. apply list_elem_of_singleton in Hin. injection Hin as -> ->.
    reflexivity.
Defined.

(** C8.  On an array that does not have exactly three dimensions both maskers
    raise [UserWarning('Data has invalid shape')] before anything is
    allocated or assigned; on a cube they return an array of the shape of
    their argument. *)
Theorem maskers_check_the_shape {lm : Libm} (h : heap) data a pxsc cent mrad
    ra_off de_off ranges :
  h !! data = Some a ->
  (length (shape a) ≠ 3 ->
     mask_companions data pxsc cent mrad ra_off de_off h
     = (inl (UserWarning "Data has invalid shape"), h)
     ∧ mask_bar data cent ranges h = (inl (UserWarning "Data has invalid shape"), h))
  ∧ (length (shape a) = 3 ->
     (∃ l out, mask_companions data pxsc cent mrad ra_off de_off h
               = (inr l, <[l := out]> h) ∧ shape out = shape a)
     ∧ (∃ l out, mask_bar data cent ranges h = (inr l, <[l := out]> h)
                 ∧ shape out = shape a)).
Proof.
  intros Ha. split.
  - intros Hn. split; [now apply (mask_companions_raise h data a) | now apply (mask_bar_raise h data a)].
  - intros Hn. destruct (shape_3d a Hn) as (K & H & W & Hs). split.
    + eexists _, _. split; [exact (mask_companions_run h data a K H W _ _ _ _ _ Ha Hs)|].
      now rewrite shape_foldl_setitem_mask.
    + eexists _, _. split; [exact (mask_bar_run h data a K H W _ _ Ha Hs)|].
      destruct ranges; [done|]. unfold restore_slice.
      now rewrite shape_foldl_setitem_mask_from.
Qed.

(** A 2 x 2 image is refused by both maskers. *)
Lemma maskers_check_the_shape_witness :
  mask_companions 1%positive 1%float (0, 0)%float 1%float [0%float] [0%float]
    (Sample.heap_of Sample.image)
  = (inl (UserWarning "Data has invalid shape"), Sample.heap_of Sample.image)
  ∧ mask_bar (lm := Sample.libm) 1%positive (0, 0)%float [(0, 360)%float]
      (Sample.heap_of Sample.image)
    = (inl (UserWarning "Data has invalid shape"), Sample.heap_of Sample.image).
Proof.
  apply (maskers_check_the_shape (lm := Sample.libm) (Sample.heap_of Sample.image)
           1%positive Sample.image 1%float (0, 0)%float 1%float [0%float] [0%float]
           [(0, 360)%float]).
  - reflexivity.
  - simpl. lia.
Defined.

(** C9.  Neither masker changes its argument: after the call the argument
    holds what it held, and a call that returns returns an array that did not
    exist before, every other array being as it was; a call that raises
    leaves the heap as it was. *)
Theorem maskers_are_pure {lm : Libm} (h : heap) data a pxsc cent mrad
    ra_off de_off ranges :
  h !! data = Some a ->
  (∀ r h', mask_companions data pxsc cent mrad ra_off de_off h = (r, h') ->
     h' !! data = Some a
     ∧ match r with
       | inr l => h !! l = None ∧ l ≠ data ∧ delete l h' = h
       | inl _ => h' = h
       end)
  ∧ (∀ r h', mask_bar data cent ranges h = (r, h') ->
     h' !! data = Some a
     ∧ match r with
       | inr l => h !! l = None ∧ l ≠ data ∧ delete l h' = h
       | inl _ => h' = h
       end).
Proof.
  intros Ha.
  assert (Hnew : ∀ out : ndarray,
            <[fresh (dom h) := out]> h !! data = Some a
            ∧ h !! fresh (dom h) = None ∧ fresh (dom h) ≠ data
            ∧ delete (fresh (dom h)) (<[fresh (dom h) := out]> h) = h).
  { intros out. pose proof (fresh_ne h data a Ha) as Hne.
    pose proof (fresh_unbound h) as Hf.
    rewrite lookup_insert_ne by done.
    repeat split; try done. apply delete_insert_id, Hf. }
  destruct (decide (length (shape a) = 3)) as [H3|H3].
  - destruct (shape_3d a H3) as (K & H & W & Hs). split; intros r h' Hrun.
    + rewrite (mask_companions_run h data a K H W _ _ _ _ _ Ha Hs) in Hrun.
      injection Hrun as <- <-. apply Hnew.
    + rewrite (mask_bar_run h data a K H W _ _ Ha Hs) in Hrun.
      injection Hrun as <- <-. apply Hnew.
  - split; intros r h' Hrun.
    + rewrite (mask_companions_raise h data a _ _ _ _ _ Ha H3) in Hrun.
      now injection Hrun as <- <-.
    + rewrite (mask_bar_raise h data a _ _ Ha H3) in Hrun.
      now injection Hrun as <- <-.
Qed.

(** Masking a companion at the centre of the 3 x 3 frame, and masking the
    whole frame with the bar masker, leave the frame as it was. *)
Lemma maskers_are_pure_witness :
  (mask_companions 1%positive 1%float (1, 1)%float 1%float [0%float] [0%float]
     (Sample.heap_of Sample.frame3)).2 !! 1%positive = Some Sample.frame3
  ∧ (mask_bar (lm := Sample.libm) 1%positive (1, 1)%float [(400, 500)%float]
       (Sample.heap_of Sample.frame3)).2 !! 1%positive = Some Sample.frame3.
Proof.
  destruct (maskers_are_pure (lm := Sample.libm) (Sample.heap_of Sample.frame3)
              1%positive Sample.frame3 1%float (1, 1)%float 1%float [0%float]
              [0%float] [(400, 500)%float]) as [Hc Hb]; [reflexivity|].
  split.
  - exact (proj1 (Hc _ _ (surjective_pairing _))).
  - exact (proj1 (Hb _ _ (surjective_pairing _))).
Defined.

(** C10.  For a cube, every element of the array that a masker returns is NaN
    or the element of the argument at the same position; the returned array
    has the shape and the size of the argument. *)
Theorem maskers_only_invalidate {lm : Libm} (h : heap) data a K H W pxsc cent mrad
    ra_off de_off ranges :
  h !! data = Some a -> shape a = [K; H; W] ->
  (∃ l out, mask_companions data pxsc cent mrad ra_off de_off h
            = (inr l, <[l := out]> h)
            ∧ shape out = shape a
            ∧ ∀ i, buffer out !! i = None ∧ buffer a !! i = None
                   ∨ ∃ v, buffer a !! i = Some v
                          ∧ (buffer out !! i = Some nan ∨ buffer out !! i = Some v))
  ∧ (∃ l out, mask_bar data cent ranges h = (inr l, <[l := out]> h)
              ∧ shape out = shape a
              ∧ ∀ i, buffer out !! i = None ∧ buffer a !! i = None
                     ∨ ∃ v, buffer a !! i = Some v
                            ∧ (buffer out !! i = Some nan ∨ buffer out !! i = Some v)).
Proof.
  intros Ha Hs. split.
  - eexists _, _. split; [exact (mask_companions_run h data a K H W _ _ _ _ _ Ha Hs)|].
    split; [now rewrite shape_foldl_setitem_mask|].
    intros i.
    rewrite (buffer_foldl_setitem_mask
               (fun src : float * float =>
                  companion_mask pxsc cent mrad (indices H W).2 (indices H W).1
                    src.1 src.2)).
    destruct (buffer a !! i) as [v|]; [right|left; done].
    exists v. split; [done|]. simpl. destruct (existsb _ _); auto.
  - eexists _, _. split; [exact (mask_bar_run h data a K H W _ _ Ha Hs)|].
    destruct ranges as [|r0 rest].
    + split; [done|]. intros i. destruct (buffer a !! i) as [v|]; [right|left; done].
      exists v. auto.
    + unfold restore_slice. split; [now rewrite shape_foldl_setitem_mask_from|].
      intros i. rewrite buffer_foldl_setitem_mask_from.
      match goal with |- context [existsb ?p ?l] => generalize (existsb p l) end.
      intros ex. simpl.
      destruct (buffer a !! i) as [v|] eqn:Hv.
      * right. exists v. split; [done|].
        rewrite lookup_replicate_2 by (now apply lookup_lt_Some in Hv). simpl.
        destruct ex; auto.
      * left. split; [|done]. apply lookup_ge_None in Hv.
        rewrite (proj2 (lookup_ge_None _ _)); [done|]. now rewrite length_replicate.
Qed.

(** The second pixel of a row of three, masked around a companion at the
    centre and then by the bar masker. *)
Lemma maskers_only_invalidate_witness :
  (∃ l out, mask_companions 1%positive 1%float (1, 0)%float 0.5%float [0%float]
              [0%float] (Sample.heap_of Sample.row3)
            = (inr l, <[l := out]> (Sample.heap_of Sample.row3))
            ∧ buffer out !! 1 = Some nan)
  ∧ (∃ l out, mask_bar (lm := Sample.libm) 1%positive (1, 0)%float [(0, 180)%float]
                (Sample.heap_of Sample.row3)
              = (inr l, <[l := out]> (Sample.heap_of Sample.row3))
              ∧ buffer out !! 1 = Some 20%float).
Proof.
  destruct (maskers_only_invalidate (lm := Sample.libm) (Sample.heap_of Sample.row3)
              1%positive Sample.row3 1 1 3 1%float (1, 0)%float 0.5%float [0%float]
              [0%float] [(0, 180)%float])
    as [(l1 & o1 & Hr1 & _ & _) (l2 & o2 & Hr2 & _ & _)]; [reflexivity | reflexivity |].
  split.
  - exists l1, o1. split; [exact Hr1|].
    assert (Hc : mask_companions 1%positive 1%float (1, 0)%float 0.5%float [0%float]
                   [0%float] (Sample.heap_of Sample.row3)
                 = (inr 2%positive,
                    <[2%positive := NdArray [1; 1; 3] [10; nan; 30]%float]>
                      (Sample.heap_of Sample.row3)))
      by (vm_compute; reflexivity).
    rewrite Hc in Hr1. apply pair_equal_spec in Hr1 as [Hl Hh]. injection Hl as <-.
    apply (f_equal (fun m : heap => m !! 2%positive)) in Hh.
    rewrite !lookup_insert_eq in Hh. now injection Hh as <-.
  - exists l2, o2. split; [exact Hr2|].
    assert (Hc : mask_bar (lm := Sample.libm) 1%positive (1, 0)%float [(0, 180)%float]
                   (Sample.heap_of Sample.row3)
                 = (inr 2%positive,
                    <[2%positive := NdArray [1; 1; 3] [10; 20; nan]%float]>
                      (Sample.heap_of Sample.row3)))
      by (vm_compute; reflexivity).
    rewrite Hc in Hr2. apply pair_equal_spec in Hr2 as [Hl Hh]. injection Hl as <-.
    apply (f_equal (fun m : heap => m !! 2%positive)) in Hh.
    rewrite !lookup_insert_eq in Hh. now injection Hh as <-.
Defined.

(** C2, as the claim states it, fails: with no range the row [10, 20, 30]
    comes back as it is, and none of its pixels is NaN. *)
Lemma mask_bar_without_ranges_not_nan :
  mask_bar (lm := Sample.libm) 1%positive (1, 0)%float [] (Sample.heap_of Sample.row3)
  = (inr 2%positive, <[2%positive := Sample.row3]> (Sample.heap_of Sample.row3))
  ∧ pixel Sample.row3 0 0 0 = Some 10%float
  ∧ is_nan 10%float = false.
Proof. vm_compute. repeat split; reflexivity. Qed.

(** C2, amended.  For a cube and an empty list of ranges the loop of
    [mask_bar] does not run, so that nothing is set to NaN: the result is a
    new array equal to the argument. *)
Theorem mask_bar_without_ranges_copies {lm : Libm} (h : heap) data a K H W cent :
  h !! data = Some a -> shape a = [K; H; W] ->
  ∃ l, mask_bar data cent [] h = (inr l, <[l := a]> h) ∧ h !! l = None.
Proof.
  intros Ha Hs. exists (fresh (dom h)). split.
  - exact (mask_bar_run h data a K H W cent [] Ha Hs).
  - apply fresh_unbound.
Qed.

Lemma mask_bar_without_ranges_copies_witness :
  ∃ l, mask_bar (lm := Sample.libm) 1%positive (1, 1)%float []
         (Sample.heap_of Sample.frame3)
       = (inr l, <[l := Sample.frame3]> (Sample.heap_of Sample.frame3))
       ∧ Sample.heap_of Sample.frame3 !! l = None.
Proof.
  apply (mask_bar_without_ranges_copies (lm := Sample.libm)
           (Sample.heap_of Sample.frame3) 1%positive Sample.frame3 1 3 3);
    reflexivity.
Defined.

(** C7, as the claim states it, fails on the row [10, 20, 30] centred on its
    second pixel.  With the range [(0, 180)]: the third pixel is one pixel to
    the right of the centre, the angle of the claim is 90 degrees, inside the
    range, yet the pixel is NaN, because the angle of the code is 270
    degrees; the first pixel is kept although the angle of the claim, 270
    degrees, is outside the range.  With no range: every pixel keeps its
    value, although its angle is in no range.  And the angle is not always
    below 360: for a pixel 1e-20 pixels to the right of and one pixel above
    the centre, [%] rounds the angle to 360 exactly. *)
Lemma mask_bar_angle_and_ranges_cex :
  (claimed_position_angle (lm := Sample.libm) (1, 0)%float 2 0 = 90%float
   ∧ position_angle (lm := Sample.libm) (1, 0)%float 2 0 = 270%float
   ∧ claimed_position_angle (lm := Sample.libm) (1, 0)%float 0 0 = 270%float
   ∧ mask_bar (lm := Sample.libm) 1%positive (1, 0)%float [(0, 180)%float]
       (Sample.heap_of Sample.row3)
     = (inr 2%positive,
        <[2%positive := NdArray [1; 1; 3] [10; 20; nan]%float]>
          (Sample.heap_of Sample.row3)))
  ∧ mask_bar (lm := Sample.libm) 1%positive (1, 0)%float []
      (Sample.heap_of Sample.row3)
    = (inr 2%positive, <[2%positive := Sample.row3]> (Sample.heap_of Sample.row3))
  ∧ position_angle (lm := Sample.libm) (-0x1.79ca10c924223p-67, -1)%float 0 0
    = 360%float.
Proof. vm_compute. repeat split; reflexivity. Qed.

(** C7, amended.  The position angle of pixel [(x, y)] is
    [rad2deg(-arctan2(x - cent[0], y - cent[1])) % 360].  When at least one
    range is given, a pixel of the result holds its input value if this angle
    lies in one of the ranges, both bounds included, and NaN otherwise; when
    no range is given, every pixel holds its input value. *)
Theorem mask_bar_restores_slices {lm : Libm} (h : heap) data a K H W cent ranges :
  h !! data = Some a -> shape a = [K; H; W] ->
  ∃ l out,
    mask_bar data cent ranges h = (inr l, <[l := out]> h)
    ∧ ∀ f y x v, pixel a f y x = Some v ->
        let t := F64.np_mod
                   (F64.rad2deg
                      (-1 * arctan2 (F64.of_index x - cent.1) (F64.of_index y - cent.2)))
                   360%float in
        pixel out f y x
        = Some (match ranges with
                | [] => v
                | _ :: _ =>
                    if existsb (fun r : float * float =>
                                  (r.1 <=? t)%float && (t <=? r.2)%float) ranges
                    then v else nan
                end).
Proof.
  intros Ha Hs. eexists _, _. split; [exact (mask_bar_run h data a K H W _ _ Ha Hs)|].
  intros f y x v Hp t.
  destruct (pixel_Some a f y x v Hp) as (K' & H' & W' & Hs' & Hf & Hy & Hx & Hv).
  rewrite Hs in Hs'. injection Hs' as <- <- <-.
  rewrite (pixel_lookup _ K H W f y x); try done.
  - rewrite mask_bar_buffer, Hv by done. reflexivity.
  - destruct ranges; [done|]. unfold restore_slice.
    now rewrite shape_foldl_setitem_mask_from.
Qed.

(** The 3 x 3 frame centred on its middle pixel, with the quadrants from
    North to East and from South to West: the pixel to the left of the centre
    (90 degrees) is kept, the upper right corner (315 degrees) is NaN. *)
Lemma mask_bar_restores_slices_witness :
  ∃ l out,
    mask_bar (lm := Sample.libm) 1%positive (1, 1)%float
      [(0, 90)%float; (180, 270)%float] (Sample.heap_of Sample.frame3)
    = (inr l, <[l := out]> (Sample.heap_of Sample.frame3))
    ∧ pixel out 0 1 0 = Some 4%float
    ∧ pixel out 0 2 2 = Some nan.
Proof.
  destruct (mask_bar_restores_slices (lm := Sample.libm) (Sample.heap_of Sample.frame3)
              1%positive Sample.frame3 1 3 3 (1, 1)%float
              [(0, 90)%float; (180, 270)%float])
    as (l & out & Hrun & Hpix); [reflexivity | reflexivity |].
  exists l, out. split; [exact Hrun|]. split.
  - rewrite (Hpix 0 1 0 4%float) by reflexivity. vm_compute. reflexivity.
  - rewrite (Hpix 0 2 2 9%float) by reflexivity. vm_compute. reflexivity.
Defined.

End MaskerSpec.

(** ** The routines of NumPy *)

Module LibFacts.

Lemma zip_with_div_ones (cons ones : list float) :
  length ones = length cons -> Forall (fun m => m = 1%float) ones ->
  zip_with PrimFloat.div cons ones = cons.
Proof.
  revert ones. induction cons as [|c cons IH]; intros [|m ones] Hl Hm; simpl;
    try done.
  apply Forall_cons in Hm as [-> Hm]. rewrite F64Facts.div_one. f_equal.
  apply IH; [now injection Hl | done].
Qed.

Lemma np_divide_same_length (a b : list float) :
  length a = length b -> np_divide a b = inr (zip_with PrimFloat.div a b).
Proof. intros Hl. unfold np_divide. now rewrite Hl, Nat.eqb_refl. Qed.

Lemma np_interp_ok (x xp fp : list float) :
  xp ≠ [] -> length xp = length fp -> np_interp x xp fp = inr (interp1 xp fp <$> x).
Proof.
  intros Hne Hl. unfold np_interp. destruct xp as [|p0 rest]; [done|].
  now rewrite Hl, Nat.eqb_refl.
Qed.

Lemma np_interp_length (x xp fp r : list float) :
  np_interp x xp fp = inr r -> length r = length x.
Proof.
  unfold np_interp. destruct xp as [|p0 rest]; [discriminate|].
  destruct (_ =? _)%nat; [|discriminate]. intros [= <-]. now rewrite length_fmap.
Qed.

(** To the right of the last sample the interpolant is the last value. *)
Lemma interp1_right (xp fp : list float) (x p : float) :
  length xp = length fp ->
  last xp = Some p -> is_nan x = false -> (p <? x)%float = true ->
  interp1 xp fp x = default nan (last fp).
Proof.
  intros Hl Hp Hx Hlt. unfold interp1, interp_index.
  destruct xp as [|p0 [|p1 rest]]; [discriminate| |].
  - destruct fp as [|f0 [|f1 fp]]; done.
  - rewrite Hx, Hp. simpl default. rewrite Hlt. now rewrite Nat.leb_refl.
Qed.

(** To the left of the first sample (and not to the right of the last one)
    it is the first value. *)
Lemma interp1_left (xp fp : list float) (x p0 p : float) :
  head xp = Some p0 -> last xp = Some p -> is_nan x = false ->
  (p <? x)%float = false -> (x <? p0)%float = true ->
  interp1 xp fp x = default nan (head fp).
Proof.
  intros Hh Hp Hx Hr Hlt. unfold interp1, interp_index.
  destruct xp as [|q [|q1 rest]]; [discriminate|done|].
  injection Hh as ->. rewrite Hx, Hp. simpl default. now rewrite Hr, Hlt.
Qed.

(** Indexing by the mask [g <$> ys] keeps the elements whose partner in [ys]
    satisfies [g]. *)
Lemma bool_index_fmap {A B : Type} (g : B -> bool) (xs : list A) (ys : list B) :
  length xs = length ys ->
  bool_index xs (g <$> ys)
  = inr (fst <$> filter (fun p : A * B => g p.2 = true) (zip xs ys)).
Proof.
  intros Hl. unfold bool_index. rewrite length_fmap, Hl, Nat.eqb_refl. f_equal.
  revert ys Hl. induction xs as [|x xs IH]; intros [|y ys] Hl; simpl; try done.
  injection Hl as Hl. rewrite !filter_cons. simpl.
  destruct (decide (g y = true)) as [Hg|Hg]; simpl; now rewrite IH.
Qed.

(** The pairs that indexing two arrays by one mask keeps. *)
Lemma zip_bool_index (fl se : list float) :
  length fl = length se ->
  zip (fst <$> filter (fun p : float * float => negb (is_nan p.2) = true) (zip fl fl))
      (fst <$> filter (fun p : float * float => negb (is_nan p.2) = true) (zip se fl))
  = filter (fun p : float * float => is_nan p.1 = false) (zip fl se).
Proof.
  revert se. induction fl as [|f fl IH]; intros [|s se] Hl; simpl; try done.
  injection Hl as Hl. rewrite !filter_cons. cbn [fst snd].
  destruct (is_nan f) eqn:Hf; cbn [negb].
  - rewrite !decide_False by done. now apply IH.
  - rewrite !decide_True by done. cbn [fmap list_fmap zip zip_with fst]. f_equal.
    now apply IH.
Qed.

Lemma bool_index_not_nan (fl : list float) (f : float) :
  f ∈ fst <$> filter (fun p : float * float => negb (is_nan p.2) = true) (zip fl fl) ->
  is_nan f = false.
Proof.
  induction fl as [|g fl IH]; simpl; [now intros ?%elem_of_nil|].
  rewrite filter_cons. cbn [fst snd]. destruct (is_nan g) eqn:Hg; cbn [negb].
  - rewrite decide_False by done. apply IH.
  - rewrite decide_True by done. cbn [fmap list_fmap fst].
    intros [->|Hin]%elem_of_cons; [done|]. now apply IH.
Qed.

End LibFacts.

(** ** One pass of [cal_contrast_curve], step by step *)

Module CalFacts.

Import Cal LibFacts.

Lemma bind_inr {S A B : Type} (m : M S A) (k : A -> M S B) s a s' :
  m s = (inr a, s') -> Py.bind m k s = k a s'.
Proof. intros H. unfold Py.bind. now rewrite H. Qed.

Lemma bind_inl {S A B : Type} (m : M S A) (k : A -> M S B) s e s' :
  m s = (inl e, s') -> Py.bind m k s = (inl e, s').
Proof. intros H. unfold Py.bind. now rewrite H. Qed.

Lemma lift_run {S A : Type} (r : exn + A) (s : S) : lift r s = (r, s).
Proof. now destruct r. Qed.

Lemma append_inj_r (p a b : string) : p +:+ a = p +:+ b -> a = b.
Proof. induction p as [|c p IH]; simpl; [done|]. intros H. injection H as H. auto. Qed.

(** Two artifacts of a data set with different names are different files. *)
Lemma artifact_inj (ds : dataset) (n1 n2 : string) :
  artifact ds n1 = artifact ds n2 -> n1 = n2.
Proof. unfold artifact. intros H. now apply append_inj_r, append_inj_r in H. Qed.

Lemma artifact_ne (ds : dataset) (n1 n2 : string) :
  n1 ≠ n2 -> artifact ds n1 ≠ artifact ds n2.
Proof. intros Hn H. now apply Hn, (artifact_inj ds). Qed.

Lemma np_load_hit (st : state) path a :
  files st !! path = Some a -> np_load path st = (inr a, st).
Proof. intros H. unfold np_load. now rewrite H. Qed.

Lemma np_load_miss (st : state) path :
  files st !! path = None -> np_load path st = (inl (FileNotFoundError path), st).
Proof. intros H. unfold np_load. now rewrite H. Qed.

(** Loading reads: whatever it returns, the state is as before. *)
Lemma np_load_state (st : state) path : (np_load path st).2 = st.
Proof. unfold np_load. now destruct (files st !! path). Qed.

Lemma load_row_state (st : state) path i : (load_row path i st).2 = st.
Proof.
  unfold load_row, Py.bind, np_load.
  destruct (files st !! path) as [[v|rows]|]; simpl; try done.
  now destruct (getitem rows i).
Qed.

(** A row that loads from some files loads from any files that agree with
    them on its path. *)
Lemma load_row_agree (st st' : state) path i row :
  files st' !! path = files st !! path ->
  load_row path i st = (inr row, st) -> load_row path i st' = (inr row, st').
Proof.
  unfold load_row, Py.bind, np_load. intros ->.
  destruct (files st !! path) as [[v|rows]|]; simpl; try done.
  destruct (getitem rows i); simpl; [done|]. now intros [= ->].
Qed.

Section Pass.
Context {lm : Libm}.
Variable self : pipeline.
Variable ds : dataset.
Variable args : arguments.

Lemma load_table_hit (st : state) a b c d :
  files st !! artifact ds "-flux_all.npy" = Some a ->
  files st !! artifact ds "-seps_all.npy" = Some b ->
  files st !! artifact ds "-pas_all.npy" = Some c ->
  files st !! artifact ds "-flux_retr_all.npy" = Some d ->
  load_table ds st = (inr (a, b, c, d), st).
Proof.
  intros Ha Hb Hc Hd. unfold load_table.
  rewrite (bind_inr _ _ st a st) by now apply np_load_hit.
  rewrite (bind_inr _ _ st b st) by now apply np_load_hit.
  rewrite (bind_inr _ _ st c st) by now apply np_load_hit.
  rewrite (bind_inr _ _ st d st) by now apply np_load_hit.
  reflexivity.
Qed.

(** When the four artifacts do not all load, [load_table] raises, and
    otherwise it returns them; it never changes the state. *)
Lemma load_table_cases (st : state) :
  (∃ a b c d,
      files st !! artifact ds "-flux_all.npy" = Some a
      ∧ files st !! artifact ds "-seps_all.npy" = Some b
      ∧ files st !! artifact ds "-pas_all.npy" = Some c
      ∧ files st !! artifact ds "-flux_retr_all.npy" = Some d
      ∧ load_table ds st = (inr (a, b, c, d), st))
  ∨ (∃ e, load_table ds st = (inl e, st)).
Proof.
  destruct (files st !! artifact ds "-flux_all.npy") as [a|] eqn:Ha.
  2:{ right. eexists. unfold load_table. now rewrite (bind_inl _ _ st _ st (np_load_miss st _ Ha)). }
  destruct (files st !! artifact ds "-seps_all.npy") as [b|] eqn:Hb.
  2:{ right. eexists. unfold load_table.
      rewrite (bind_inr _ _ st a st) by now apply np_load_hit.
      now rewrite (bind_inl _ _ st _ st (np_load_miss st _ Hb)). }
  destruct (files st !! artifact ds "-pas_all.npy") as [c|] eqn:Hc.
  2:{ right. eexists. unfold load_table.
      rewrite (bind_inr _ _ st a st) by now apply np_load_hit.
      rewrite (bind_inr _ _ st b st) by now apply np_load_hit.
      now rewrite (bind_inl _ _ st _ st (np_load_miss st _ Hc)). }
  destruct (files st !! artifact ds "-flux_retr_all.npy") as [d|] eqn:Hd.
  2:{ right. eexists. unfold load_table.
      rewrite (bind_inr _ _ st a st) by now apply np_load_hit.
      rewrite (bind_inr _ _ st b st) by now apply np_load_hit.
      rewrite (bind_inr _ _ st c st) by now apply np_load_hit.
      now rewrite (bind_inl _ _ st _ st (np_load_miss st _ Hd)). }
  left. exists a, b, c, d. repeat split. now apply load_table_hit.
Qed.

Lemma load_table_miss (st : state) name :
  name ∈ table_artifacts -> files st !! artifact ds name = None ->
  ∃ e, load_table ds st = (inl e, st).
Proof.
  intros Hin Hmiss.
  destruct (load_table_cases st) as [(a & b & c & d & Ha & Hb & Hc & Hd & _)|He]; [|done].
  unfold table_artifacts in Hin. rewrite !elem_of_cons, elem_of_nil in Hin.
  destruct Hin as [->|[->|[->|[->|[]]]]]; congruence.
Qed.

(** Lines 256-266. *)
Lemma cached_table_hit (st : state) a b c d :
  overwrite args = false ->
  files st !! artifact ds "-flux_all.npy" = Some a ->
  files st !! artifact ds "-seps_all.npy" = Some b ->
  files st !! artifact ds "-pas_all.npy" = Some c ->
  files st !! artifact ds "-flux_retr_all.npy" = Some d ->
  cached_table ds args st = (inr (Some (a, b, c, d)), st).
Proof.
  intros Ho Ha Hb Hc Hd. unfold cached_table, try_except. rewrite Ho. simpl.
  now rewrite (bind_inr _ _ st _ st (load_table_hit st a b c d Ha Hb Hc Hd)).
Qed.

Lemma cached_table_miss (st : state) name :
  name ∈ table_artifacts -> files st !! artifact ds name = None ->
  cached_table ds args st = (inr None, st).
Proof.
  intros Hin Hmiss. unfold cached_table, try_except.
  destruct (overwrite args); simpl; [done|].
  destruct (load_table_miss st name Hin Hmiss) as [e He].
  now rewrite (bind_inl _ _ st e st He).
Qed.

Lemma cached_table_overwrite (st : state) :
  overwrite args = true -> cached_table ds args st = (inr None, st).
Proof. intros Ho. unfold cached_table. now rewrite Ho. Qed.

(** Lines 281-291: one call to [self], no file written; the fluxes are as
    many as the separations of the injections. *)
Lemma flux_inject_run (seps cons : list float) (st : state) r st' :
  flux_inject self ds args seps cons st = (r, st') ->
  st' = State (files st) (trace st ++ [GetOffsetPsf])
  ∧ ∀ fi, r = inr fi -> length fi = length (seps_inject ds args).
Proof.
  unfold flux_inject, Py.bind, call, lift, ret, raise.
  destruct (np_max (get_offsetpsf self ds)) as [e|peak].
  { intros [= <- <-]. split; [done|]. discriminate. }
  destruct (np_interp _ seps cons) as [e|interp] eqn:Hi.
  { intros [= <- <-]. split; [done|]. discriminate. }
  intros [= <- <-]. split; [done|]. intros fi [= <-].
  apply np_interp_length in Hi. now rewrite !length_fmap, Hi, length_fmap.
Qed.

(** Lines 297-305: the injections at the separations whose flux is not NaN,
    and their results saved. *)
Lemma recompute_table_run (seps cons : list float) (st st1 : state) fi :
  flux_inject self ds args seps cons st = (inr fi, st1) ->
  let keep := fun p : float * float => negb (is_nan p.2) = true in
  let flux_good := fst <$> filter keep (zip fi fi) in
  let seps_good := fst <$> filter keep (zip (seps_inject ds args) fi) in
  let min_sep := (10 * (wave self (filt ds) / diam self * rad2mas / pxsc ds))%float in
  let r := inject_recover self ds min_sep flux_good seps_good (pas_inject ds args)
             (KL args) (ra_off args) (de_off args) in
  recompute_table self ds args seps cons st
  = (inr (Arr1 (flux_all r), Arr1 (seps_all r), Arr1 (pas_all r), Arr1 (flux_retr_all r)),
     State (<[artifact ds "-flux_retr_all.npy" := Arr1 (flux_retr_all r)]>
              (<[artifact ds "-pas_all.npy" := Arr1 (pas_all r)]>
                 (<[artifact ds "-seps_all.npy" := Arr1 (seps_all r)]>
                    (<[artifact ds "-flux_all.npy" := Arr1 (flux_all r)]> (files st1)))))
           (trace st1
            ++ [InjectRecover min_sep flux_good seps_good (pas_inject ds args)])).
Proof.
  intros Hfi keep flux_good seps_good min_sep r.
  destruct (flux_inject_run seps cons st _ _ Hfi) as [_ Hlen].
  specialize (Hlen fi eq_refl).
  unfold recompute_table. rewrite (bind_inr _ _ st fi st1 Hfi).
  rewrite (bind_inr _ _ st1 flux_good st1).
  2:{ rewrite lift_run. now rewrite (bool_index_fmap (fun f => negb (is_nan f)) fi fi). }
  rewrite (bind_inr _ _ st1 seps_good st1).
  2:{ rewrite lift_run.
      now rewrite (bool_index_fmap (fun f => negb (is_nan f)) (seps_inject ds args) fi). }
  reflexivity.
Qed.

Lemma recompute_table_raise (seps cons : list float) (st st1 : state) e :
  flux_inject self ds args seps cons st = (inl e, st1) ->
  recompute_table self ds args seps cons st = (inl e, st1).
Proof. intros Hfi. unfold recompute_table. now rewrite (bind_inl _ _ st e st1 Hfi). Qed.

(** Lines 251-305 when the table is reused: one call to [self], for the
    transmission map of the plots, and nothing else. *)
Lemma injection_table_cached (seps cons : list float) (st : state) a b c d :
  overwrite args = false ->
  files st !! artifact ds "-flux_all.npy" = Some a ->
  files st !! artifact ds "-seps_all.npy" = Some b ->
  files st !! artifact ds "-pas_all.npy" = Some c ->
  files st !! artifact ds "-flux_retr_all.npy" = Some d ->
  injection_table self ds args seps cons st
  = (inr (a, b, c, d), State (files st) (trace st ++ [GetTransmission])).
Proof.
  intros Ho Ha Hb Hc Hd. unfold injection_table.
  rewrite (bind_inr _ _ st _ st (cached_table_hit st a b c d Ho Ha Hb Hc Hd)).
  reflexivity.
Qed.

(** Lines 251-305 when the table is computed. *)
Lemma injection_table_todo (seps cons : list float) (st : state) :
  cached_table ds args st = (inr None, st) ->
  injection_table self ds args seps cons st
  = recompute_table self ds args seps cons
      (State (files st) (trace st ++ [GetTransmission])).
Proof. intros Hc. unfold injection_table. now rewrite (bind_inr _ _ st _ st Hc). Qed.

(** After lines 251-305 the four artifacts hold the table in use, and every
    other file is as before. *)
Lemma injection_table_persisted (seps cons : list float) (st st' : state) a b c d :
  injection_table self ds args seps cons st = (inr (a, b, c, d), st') ->
  files st' !! artifact ds "-flux_all.npy" = Some a
  ∧ files st' !! artifact ds "-seps_all.npy" = Some b
  ∧ files st' !! artifact ds "-pas_all.npy" = Some c
  ∧ files st' !! artifact ds "-flux_retr_all.npy" = Some d
  ∧ ∀ name, name ∉ table_artifacts ->
      files st' !! artifact ds name = files st !! artifact ds name.
Proof.
  intros Hrun.
  assert (Hcases : (∃ a' b' c' d',
                       overwrite args = false
                       ∧ files st !! artifact ds "-flux_all.npy" = Some a'
                       ∧ files st !! artifact ds "-seps_all.npy" = Some b'
                       ∧ files st !! artifact ds "-pas_all.npy" = Some c'
                       ∧ files st !! artifact ds "-flux_retr_all.npy" = Some d')
                   ∨ cached_table ds args st = (inr None, st)).
  { destruct (overwrite args) eqn:Ho; [right; now apply cached_table_overwrite|].
    destruct (load_table_cases st) as [(a' & b' & c' & d' & Ha & Hb & Hc & Hd & _)|[e He]].
    - left. now exists a', b', c', d'.
    - right. unfold cached_table, try_except. rewrite Ho. simpl.
      now rewrite (bind_inl _ _ st e st He). }
  destruct Hcases as [(a' & b' & c' & d' & Ho & Ha & Hb & Hc & Hd)|Htodo].
  - rewrite (injection_table_cached seps cons st a' b' c' d' Ho Ha Hb Hc Hd) in Hrun.
    injection Hrun as <- <- <- <- <-. simpl. auto.
  - rewrite (injection_table_todo seps cons st Htodo) in Hrun.
    destruct (flux_inject self ds args seps cons
                (State (files st) (trace st ++ [GetTransmission]))) as [[e|fi] st1] eqn:Hfi.
    { rewrite (recompute_table_raise seps cons _ st1 e Hfi) in Hrun. discriminate. }
    destruct (flux_inject_run seps cons _ _ _ Hfi) as [-> _].
    rewrite (recompute_table_run seps cons _ _ fi Hfi) in Hrun.
    injection Hrun as <- <- <- <- <-. simpl.
    assert (Hne : ∀ n1 n2 : string, n1 ≠ n2 -> artifact ds n1 ≠ artifact ds n2)
      by apply artifact_ne.
    repeat split.
    + rewrite !lookup_insert_ne by (apply Hne; discriminate). apply lookup_insert_eq.
    + rewrite !lookup_insert_ne by (apply Hne; discriminate). apply lookup_insert_eq.
    + rewrite !lookup_insert_ne by (apply Hne; discriminate). apply lookup_insert_eq.
    + apply lookup_insert_eq.
    + intros name Hn. unfold table_artifacts in Hn.
      rewrite !not_elem_of_cons in Hn. destruct Hn as (H1 & H2 & H3 & H4 & _).
      rewrite !lookup_insert_ne by (apply Hne; congruence). done.
Qed.

(** The pass, given what its steps return. *)
Lemma pass_run (st st' : state) seps cons t res corr :
  load_row (artifact ds "-seps.npy") (KL args) st = (inr seps, st) ->
  load_row (artifact ds "-cons.npy") (KL args) st = (inr cons, st) ->
  injection_table self ds args seps cons st = (inr t, st') ->
  Table t = inr res ->
  let pp := least_squares self [1; 0; 1; 0x1.999999999999ap-3; 15]%float
              (med_seps <$> med_res res) (med_tps <$> med_res res) in
  calibrate self ds pp seps cons = inr corr ->
  pass self ds args st
  = (inr (Outcome res (med_res res) pp seps corr),
     State (<[artifact ds "-pp.npy" := Arr1 pp]> (files st')) (trace st')).
Proof.
  intros Hs Hc Ht Hres pp Hcorr. unfold pass.
  rewrite (bind_inr _ _ st seps st Hs), (bind_inr _ _ st cons st Hc).
  rewrite (bind_inr _ _ st t st' Ht).
  rewrite (bind_inr _ _ st' res st') by now rewrite lift_run, Hres.
  fold pp. rewrite (bind_inr _ _ st' corr st') by now rewrite lift_run, Hcorr.
  reflexivity.
Qed.

(** What a pass that returns went through. *)
Lemma pass_inv (st st1 : state) r :
  pass self ds args st = (inr r, st1) ->
  ∃ seps cons t st' res corr,
    load_row (artifact ds "-seps.npy") (KL args) st = (inr seps, st)
    ∧ load_row (artifact ds "-cons.npy") (KL args) st = (inr cons, st)
    ∧ injection_table self ds args seps cons st = (inr t, st')
    ∧ Table t = inr res
    ∧ calibrate self ds
        (least_squares self [1; 0; 1; 0x1.999999999999ap-3; 15]%float
           (med_seps <$> med_res res) (med_tps <$> med_res res)) seps cons = inr corr
    ∧ r = Outcome res (med_res res)
            (least_squares self [1; 0; 1; 0x1.999999999999ap-3; 15]%float
               (med_seps <$> med_res res) (med_tps <$> med_res res)) seps corr
    ∧ st1 = State
              (<[artifact ds "-pp.npy" :=
                   Arr1 (least_squares self [1; 0; 1; 0x1.999999999999ap-3; 15]%float
                           (med_seps <$> med_res res) (med_tps <$> med_res res))]>
                 (files st'))
              (trace st').
Proof.
  unfold pass. intros Hrun.
  pose proof (load_row_state st (artifact ds "-seps.npy") (KL args)) as Hs.
  destruct (load_row (artifact ds "-seps.npy") (KL args) st) as [[e|seps] s1] eqn:H1;
    simpl in Hs; subst s1.
  { rewrite (bind_inl _ _ st e st H1) in Hrun. discriminate. }
  rewrite (bind_inr _ _ st seps st H1) in Hrun.
  pose proof (load_row_state st (artifact ds "-cons.npy") (KL args)) as Hc.
  destruct (load_row (artifact ds "-cons.npy") (KL args) st) as [[e|cons] s1] eqn:H2;
    simpl in Hc; subst s1.
  { rewrite (bind_inl _ _ st e st H2) in Hrun. discriminate. }
  rewrite (bind_inr _ _ st cons st H2) in Hrun.
  destruct (injection_table self ds args seps cons st) as [[e|t] st'] eqn:H3.
  { rewrite (bind_inl _ _ st e st' H3) in Hrun. discriminate. }
  rewrite (bind_inr _ _ st t st' H3) in Hrun.
  destruct (Table t) as [e|res] eqn:H4.
  { rewrite (bind_inl _ _ st' e st') in Hrun by apply lift_run. discriminate. }
  rewrite (bind_inr _ _ st' res st') in Hrun by apply lift_run.
  cbv zeta in Hrun.
  destruct (calibrate self ds _ seps cons) as [e|corr] eqn:H5.
  { rewrite (bind_inl _ _ st' e st') in Hrun by apply lift_run. discriminate. }
  rewrite (bind_inr _ _ st' corr st') in Hrun by apply lift_run.
  unfold Py.bind, np_save, ret in Hrun. injection Hrun as <- <-.
  exists seps, cons, t, st', res, corr. repeat split; done.
Qed.

End Pass.

End CalFacts.

(** ** Properties of the calibration *)

Module CalSpec.

Import Cal LibFacts CalFacts.

Lemma injection_table_rerun {lm : Libm} (self : pipeline) (ds : dataset)
    (args args' : arguments) seps cons seps' cons' st t st1 :
  injection_table self ds args seps cons st = (inr t, st1) ->
  overwrite args' = false ->
  injection_table self ds args' seps' cons' st1
  = (inr t, State (files st1) (trace st1 ++ [GetTransmission])).
Proof.
  intros Hrun Ho. destruct t as [[[ta tb] tc] td].
  destruct (injection_table_persisted self ds args seps cons st st1 ta tb tc td Hrun)
    as (Ha & Hb & Hc & Hd & _).
  now apply injection_table_cached.
Qed.

(** C3.  With [overwrite] false, when the four artifacts of the injection
    table load, lines 251-305 return them and do nothing but ask for the
    transmission map: no injection, no file written.  When one of them does
    not load, the pass does what it does with [overwrite] true: the error is
    caught and the table is computed.  Lines 251-305 run again with
    [overwrite] false on the files they have left (whatever [overwrite] was)
    return the same table and write nothing; and a whole pass over the files
    that a pass has left returns the same results and leaves every file as it
    is: it only asks for the transmission map. *)
Theorem injection_table_is_reused {lm : Libm} (self : pipeline) (ds : dataset)
    (args : arguments) :
  (∀ seps cons st a b c d,
     overwrite args = false ->
     files st !! artifact ds "-flux_all.npy" = Some a ->
     files st !! artifact ds "-seps_all.npy" = Some b ->
     files st !! artifact ds "-pas_all.npy" = Some c ->
     files st !! artifact ds "-flux_retr_all.npy" = Some d ->
     injection_table self ds args seps cons st
     = (inr (a, b, c, d), State (files st) (trace st ++ [GetTransmission])))
  ∧ (∀ seps cons st name,
       name ∈ table_artifacts -> files st !! artifact ds name = None ->
       injection_table self ds args seps cons st
       = injection_table self ds (with_overwrite true args) seps cons st)
  ∧ (∀ b seps cons st t st1,
       injection_table self ds (with_overwrite b args) seps cons st = (inr t, st1) ->
       injection_table self ds (with_overwrite false args) seps cons st1
       = (inr t, State (files st1) (trace st1 ++ [GetTransmission])))
  ∧ (∀ b st r st1,
       pass self ds (with_overwrite b args) st = (inr r, st1) ->
       pass self ds (with_overwrite false args) st1
       = (inr r, State (files st1) (trace st1 ++ [GetTransmission]))).
Proof.
  split; [|split; [|split]].
  - intros seps cons st a b c d. apply injection_table_cached.
  - intros seps cons st name Hin Hmiss.
    rewrite (injection_table_todo self ds args seps cons st
               (cached_table_miss ds args st name Hin Hmiss)).
    rewrite (injection_table_todo self ds (with_overwrite true args) seps cons st
               (cached_table_overwrite ds (with_overwrite true args) st eq_refl)).
    reflexivity.
  - intros b seps cons st t st1 Hrun.
    now apply (injection_table_rerun self ds (with_overwrite b args) _ seps cons _ _ st).
  - intros b st r st1 Hrun.
    destruct (pass_inv self ds (with_overwrite b args) st st1 r Hrun)
      as (seps & cons & t & st' & res & corr & H1 & H2 & H3 & H4 & H5 & -> & ->).
    destruct t as [[[ta tb] tc] td].
    destruct (injection_table_persisted self ds _ seps cons st st' ta tb tc td H3)
      as (Ha & Hb & Hc & Hd & Hother).
    set (pp := least_squares self [1; 0; 1; 0x1.999999999999ap-3; 15]%float
                 (med_seps <$> med_res res) (med_tps <$> med_res res)) in *.
    set (st1 := State (<[artifact ds "-pp.npy" := Arr1 pp]> (files st')) (trace st')).
    assert (Hne : ∀ n : string, n ≠ "-pp.npy" ->
              files st1 !! artifact ds n = files st' !! artifact ds n).
    { intros n Hn. simpl. apply lookup_insert_ne, artifact_ne. congruence. }
    assert (Hraw : ∀ n : string, n ≠ "-pp.npy" -> n ∉ table_artifacts ->
              files st1 !! artifact ds n = files st !! artifact ds n).
    { intros n Hn Hnt. rewrite Hne by done. now apply Hother. }
    rewrite (pass_run self ds (with_overwrite false args) st1
               (State (files st1) (trace st1 ++ [GetTransmission]))
               seps cons (ta, tb, tc, td) res corr).
    + simpl. now rewrite insert_insert_eq.
    + apply (load_row_agree st); [|exact H1].
      apply Hraw; [discriminate|]. unfold table_artifacts.
      rewrite !not_elem_of_cons. repeat split; try discriminate. apply not_elem_of_nil.
    + apply (load_row_agree st); [|exact H2].
      apply Hraw; [discriminate|]. unfold table_artifacts.
      rewrite !not_elem_of_cons. repeat split; try discriminate. apply not_elem_of_nil.
    + apply injection_table_cached; [reflexivity|..]; rewrite Hne; done.
    + exact H4.
    + exact H5.
Qed.

(** On the sample data set: a table on disk is reused, a missing one is
    computed, and a second pass changes no file. *)
Lemma injection_table_is_reused_witness :
  injection_table (lm := Sample.libm) CalSample.self CalSample.ds CalSample.args
    [1; 2]%float [nan; 0.25]%float CalSample.with_table
  = (inr (Arr1 [4; 8]%float, Arr1 [2; 2]%float, Arr1 [0; 90]%float, Arr1 [2; 8]%float),
     State (files CalSample.with_table) [GetTransmission])
  ∧ injection_table (lm := Sample.libm) CalSample.self CalSample.ds CalSample.args
      [1; 2]%float [nan; 0.25]%float CalSample.raw_only
    = injection_table (lm := Sample.libm) CalSample.self CalSample.ds
        (with_overwrite true CalSample.args) [1; 2]%float [nan; 0.25]%float
        CalSample.raw_only
  ∧ files
      (pass (lm := Sample.libm) CalSample.self CalSample.ds
         (with_overwrite false CalSample.args)
         (pass (lm := Sample.libm) CalSample.self CalSample.ds
            (with_overwrite false CalSample.args) CalSample.raw_only).2).2
    = files
        (pass (lm := Sample.libm) CalSample.self CalSample.ds
           (with_overwrite false CalSample.args) CalSample.raw_only).2.
Proof.
  destruct (injection_table_is_reused (lm := Sample.libm) CalSample.self CalSample.ds
              CalSample.args) as (Hreuse & Hfall & _ & Hidem).
  split; [|split].
  - apply (Hreuse [1; 2]%float [nan; 0.25]%float CalSample.with_table); reflexivity.
  - apply (Hfall [1; 2]%float [nan; 0.25]%float CalSample.raw_only "-flux_all.npy").
    + apply list_elem_of_here.
    + reflexivity.
  - destruct (pass (lm := Sample.libm) CalSample.self CalSample.ds
                (with_overwrite false CalSample.args) CalSample.raw_only)
      as [[e|r] st1] eqn:Hrun; [vm_compute in Hrun; discriminate|].
    simpl. now rewrite (Hidem false CalSample.raw_only r st1 Hrun).
Defined.

(** C4.  Line 318 divides each raw contrast by the throughput model at the
    separation of that contrast (in pixels: the separation times 1000 over
    the pixel scale), for a raw curve with one contrast per separation; when
    the model is 1 at every separation of the curve, the calibrated contrasts
    are the raw contrasts.  In a pass, the separations handed on are the row
    of the raw curve as loaded, and the file of the raw separations is not
    written. *)
Theorem calibration_divides_by_throughput {lm : Libm} (self : pipeline) (ds : dataset) :
  (∀ pp seps cons,
     length seps = length cons ->
     calibrate self ds pp seps cons
     = inr (zip_with (fun c s => (c / func self pp (s * 1000 / pxsc ds))%float) cons seps)
     ∧ ((∀ s, s ∈ seps -> func self pp (s * 1000 / pxsc ds)%float = 1%float) ->
        calibrate self ds pp seps cons = inr cons))
  ∧ (∀ args st r st1,
       pass self ds args st = (inr r, st1) ->
       load_row (artifact ds "-seps.npy") (KL args) st = (inr (out_seps r), st)
       ∧ files st1 !! artifact ds "-seps.npy" = files st !! artifact ds "-seps.npy"
       ∧ ∃ cons, load_row (artifact ds "-cons.npy") (KL args) st = (inr cons, st)
                 ∧ calibrate self ds (out_pp r) (out_seps r) cons
                   = inr (out_corr_cons r)).
Proof.
  split.
  - intros pp seps cons Hl. unfold calibrate.
    rewrite np_divide_same_length by now rewrite !length_fmap.
    split.
    + now rewrite <- list_fmap_compose, zip_with_fmap_r.
    + intros Hone. f_equal. apply zip_with_div_ones; [now rewrite !length_fmap|].
      rewrite <- list_fmap_compose. apply Forall_fmap, Forall_forall.
      intros s Hs. now apply Hone.
  - intros args st r st1 Hrun.
    destruct (pass_inv self ds args st st1 r Hrun)
      as (seps & cons & t & st' & res & corr & H1 & H2 & H3 & H4 & H5 & -> & ->).
    destruct t as [[[ta tb] tc] td].
    destruct (injection_table_persisted self ds _ seps cons st st' ta tb tc td H3)
      as (_ & _ & _ & _ & Hother).
    simpl. split; [exact H1|]. split.
    + rewrite lookup_insert_ne by (apply artifact_ne; discriminate).
      apply Hother. unfold table_artifacts.
      rewrite !not_elem_of_cons. repeat split; try discriminate. apply not_elem_of_nil.
    + now exists cons.
Qed.

(** With the throughput of the sample pipeline, 1 everywhere, the raw
    contrasts 0.5 and 0.25 are their own calibration. *)
Lemma calibration_divides_by_throughput_witness :
  calibrate CalSample.self CalSample.ds [1; 0; 1]%float [1; 2]%float [0.5; 0.25]%float
  = inr [0.5; 0.25]%float.
Proof.
  apply (proj1 (calibration_divides_by_throughput (lm := Sample.libm)
                  CalSample.self CalSample.ds) [1; 0; 1]%float [1; 2]%float
           [0.5; 0.25]%float); reflexivity.
Defined.

(** C6, as the claim states it, fails: a separation outside the sampled
    range is given the contrast of the nearest end of the raw curve, not
    NaN.  With samples at 1 and 2 arcsec, [np.interp] at 3 arcsec returns the
    contrast at 2 arcsec; in the pass over the sample data set the injection
    at 3 pixels (3 arcsec) is not filtered out: it is made, with the flux of
    the injection at 2 pixels, while the injection at 1 pixel, where the raw
    contrast is NaN, is dropped. *)
Lemma interp_outside_range_is_not_nan :
  np_interp [3]%float [1; 2]%float [0.5; 0.25]%float = inr [0.25]%float
  ∧ is_nan 0.25%float = false
  ∧ ∃ min_sep f,
      trace (pass (lm := Sample.libm) CalSample.self CalSample.ds
               CalSample.args CalSample.raw_only).2
      = [GetTransmission; GetOffsetPsf;
         InjectRecover min_sep [f; f] [2; 3]%float [0%float]]
      ∧ is_nan f = false.
Proof.
  split; [reflexivity|]. split; [reflexivity|].
  eexists _, _. split; [vm_compute; reflexivity | reflexivity].
Qed.

Lemma length_bool_index (fl se : list float) :
  length fl = length se ->
  length (fst <$> filter (fun p : float * float => negb (is_nan p.2) = true) (zip fl fl))
  = length (fst <$> filter (fun p : float * float => negb (is_nan p.2) = true)
              (zip se fl)).
Proof.
  revert se. induction fl as [|f fl IH]; intros [|s se] Hl; simpl; try done.
  injection Hl as Hl. rewrite !filter_cons. cbn [fst snd].
  destruct (is_nan f) eqn:Hf; cbn [negb].
  - rewrite !decide_False by done. now apply IH.
  - rewrite !decide_True by done. cbn [fmap list_fmap length]. f_equal. now apply IH.
Qed.

(** C6, amended.  For a raw curve that is not empty and has one contrast per
    separation, [np.interp] does not raise; at a separation to the right of
    the last sample it returns the last contrast and at one to the left of
    the first sample the first contrast, so that it is NaN there only when
    that contrast is.  When lines 275-305 run, either the fluxes cannot be
    computed and nothing is injected, or [inject_recover] is called once,
    with the fluxes that are not NaN and the separations they belong to, in
    their order: the candidates whose flux is NaN are in neither list. *)
Theorem nan_fluxes_are_not_injected {lm : Libm} (self : pipeline) (ds : dataset)
    (args : arguments) :
  (∀ x xp fp,
     xp ≠ [] -> length xp = length fp ->
     np_interp x xp fp = inr (interp1 xp fp <$> x)
     ∧ ∀ s p0 p,
         head xp = Some p0 -> last xp = Some p -> is_nan s = false ->
         ((p <? s)%float = true -> interp1 xp fp s = default nan (last fp))
         ∧ ((p <? s)%float = false -> (s <? p0)%float = true ->
            interp1 xp fp s = default nan (head fp)))
  ∧ (∀ seps cons st r st',
       recompute_table self ds args seps cons st = (r, st') ->
       (∃ e, r = inl e ∧ trace st' = trace st ++ [GetOffsetPsf])
       ∨ (∃ fi st1 min_sep fl se,
            flux_inject self ds args seps cons st = (inr fi, st1)
            ∧ trace st'
              = trace st
                ++ [GetOffsetPsf; InjectRecover min_sep fl se (pas_inject ds args)]
            ∧ length fl = length se
            ∧ zip fl se
              = filter (fun p : float * float => is_nan p.1 = false)
                  (zip fi (seps_inject ds args))
            ∧ ∀ f, f ∈ fl -> is_nan f = false)).
Proof.
  split.
  - intros x xp fp Hne Hl. split; [now apply np_interp_ok|].
    intros s p0 p Hh Hp Hs. split.
    + intros Hlt. now apply (interp1_right xp fp s p).
    + intros Hr Hlt. now apply (interp1_left xp fp s p0 p).
  - intros seps cons st r st' Hrun.
    destruct (flux_inject self ds args seps cons st) as [[e|fi] st1] eqn:Hfi.
    + left. destruct (flux_inject_run self ds args seps cons st _ _ Hfi) as [-> _].
      rewrite (recompute_table_raise self ds args seps cons st _ e Hfi) in Hrun.
      injection Hrun as <- <-. now exists e.
    + right. destruct (flux_inject_run self ds args seps cons st _ _ Hfi) as [-> Hlen].
      specialize (Hlen fi eq_refl).
      rewrite (recompute_table_run self ds args seps cons st _ fi Hfi) in Hrun.
      injection Hrun as <- <-. eexists fi, _, _, _, _.
      split; [reflexivity|]. split; [simpl; now rewrite <- app_assoc|].
      split; [now apply length_bool_index|].
      split; [now apply zip_bool_index|].
      apply bool_index_not_nan.
Qed.

(** On the sample data set the raw contrast is NaN at 1 arcsec: of the
    injections at 1, 2 and 3 pixels, those at 2 and 3 pixels are made. *)
Lemma nan_fluxes_are_not_injected_witness :
  ∃ fi st1 min_sep fl se,
    flux_inject (lm := Sample.libm) CalSample.self CalSample.ds CalSample.args
      [1; 2]%float [nan; 0.25]%float CalSample.raw_only = (inr fi, st1)
    ∧ fi !! 0 = Some nan
    ∧ trace (recompute_table (lm := Sample.libm) CalSample.self CalSample.ds
               CalSample.args [1; 2]%float [nan; 0.25]%float CalSample.raw_only).2
      = [GetOffsetPsf; InjectRecover min_sep fl se [0%float]]
    ∧ zip fl se
      = filter (fun p : float * float => is_nan p.1 = false) (zip fi [1; 2; 3]%float)
    ∧ ∀ f, f ∈ fl -> is_nan f = false.
Proof.
  destruct (proj2 (nan_fluxes_are_not_injected (lm := Sample.libm) CalSample.self
                     CalSample.ds CalSample.args)
              [1; 2]%float [nan; 0.25]%float CalSample.raw_only _ _
              (surjective_pairing _))
    as [(e & He & _)|(fi & st1 & min_sep & fl & se & Hfi & Htr & _ & Hzip & Hnan)].
  - vm_compute in He. discriminate.
  - exists fi, st1, min_sep, fl, se. split; [exact Hfi|].
    split; [|split; [exact Htr|split; [exact Hzip|exact Hnan]]].
    apply (f_equal fst) in Hfi. vm_compute in Hfi. injection Hfi as <-. reflexivity.
Defined.

End CalSpec.

(** ** Sorting and grouping *)

Module SortFacts.

Import F64Facts.

Local Open Scope Z_scope.

Lemma sort_lt_spec (a b : float) : sort_lt a b = sf_sort_lt (Prim2SF a) (Prim2SF b).
Proof.
  unfold sort_lt, sf_sort_lt, is_nan.
  now rewrite FloatAxioms.ltb_spec, !FloatAxioms.eqb_spec.
Qed.

Ltac sf_brute :=
  unfold sf_sort_lt, SFltb, SFeqb, SFleb, SFcompare;
  repeat match goal with x : spec_float |- _ => destruct x as [[]|[]| |[] ? ?] end;
  try reflexivity; try discriminate; intros; cmp_cases; sf_cases;
  rewrite ?Z.compare_refl, ?Pos.compare_cont_refl, ?Pos.compare_refl in *; sf_cases.

Lemma sf_sort_lt_asym a b : sf_sort_lt a b = true -> sf_sort_lt b a = false.
Proof. sf_brute. Qed.

Lemma sf_sort_le_trans a b c :
  sf_sort_lt b a = false -> sf_sort_lt c b = false -> sf_sort_lt c a = false.
Proof. sf_brute. Qed.

Lemma SFeqb_trans a b c : SFeqb a b = true -> SFeqb a c = true -> SFeqb b c = true.
Proof. sf_brute. Qed.

Lemma SFeqb_sym a b : SFeqb a b = true -> SFeqb b a = true.
Proof. sf_brute. Qed.

Lemma sf_squeeze a b c :
  sf_sort_lt b a = false -> sf_sort_lt c b = false -> SFeqb a c = true ->
  SFeqb a b = true.
Proof. sf_brute. Qed.

Lemma sf_sorted_leb a b :
  SFeqb a a = true -> SFeqb b b = true -> sf_sort_lt b a = false -> SFleb a b = true.
Proof. sf_brute. Qed.

Local Close Scope Z_scope.


(** The order of sorting is asymmetric and its complement is transitive. *)
Lemma sort_lt_asym (a b : float) : sort_lt a b = true -> sort_lt b a = false.
Proof. rewrite !sort_lt_spec. apply sf_sort_lt_asym. Qed.

Lemma sort_le_trans (a b c : float) :
  sort_lt b a = false -> sort_lt c b = false -> sort_lt c a = false.
Proof. rewrite !sort_lt_spec. apply sf_sort_le_trans. Qed.

Lemma eqb_trans (a b c : float) :
  (a =? b)%float = true -> (a =? c)%float = true -> (b =? c)%float = true.
Proof. rewrite !FloatAxioms.eqb_spec. apply SFeqb_trans. Qed.

Lemma eqb_squeeze (a b c : float) :
  sort_lt b a = false -> sort_lt c b = false -> (a =? c)%float = true ->
  (a =? b)%float = true.
Proof. rewrite !sort_lt_spec, !FloatAxioms.eqb_spec. apply sf_squeeze. Qed.

Lemma sorted_leb (a b : float) :
  is_nan a = false -> is_nan b = false -> sort_lt b a = false ->
  (a <=? b)%float = true.
Proof.
  unfold is_nan. rewrite sort_lt_spec, !FloatAxioms.eqb_spec, FloatAxioms.leb_spec.
  intros Ha Hb. apply sf_sorted_leb.
  - now destruct (SFeqb (Prim2SF a) (Prim2SF a)).
  - now destruct (SFeqb (Prim2SF b) (Prim2SF b)).
Qed.

Section Sort.
Context {A : Type} (key : A -> float).

#[local] Instance sort_le_transitive : Transitive (sort_le key).
Proof. intros a b c. unfold sort_le. apply sort_le_trans. Qed.

Lemma insert_by_perm (x : A) (l : list A) : insert_by key x l ≡ₚ x :: l.
Proof.
  induction l as [|y l IH]; simpl; [done|].
  destruct (sort_lt (key y) (key x)); [|done].
  rewrite IH. apply Permutation_swap.
Qed.

Lemma sort_by_perm (l : list A) : sort_by key l ≡ₚ l.
Proof.
  induction l as [|x l IH]; simpl; [done|].
  unfold sort_by in *. simpl. now rewrite insert_by_perm, IH.
Qed.

Lemma insert_by_HdRel (x y : A) (l : list A) :
  sort_le key y x -> HdRel (sort_le key) y l -> HdRel (sort_le key) y (insert_by key x l).
Proof.
  intros Hyx Hl. destruct l as [|z l]; simpl; [now constructor|].
  destruct (sort_lt (key z) (key x)); constructor; [|done].
  now inversion Hl.
Qed.

Lemma insert_by_sorted (x : A) (l : list A) :
  Sorted (sort_le key) l -> Sorted (sort_le key) (insert_by key x l).
Proof.
  induction l as [|y l IH]; simpl; intros Hs.
  - repeat constructor.
  - inversion Hs as [|? ? Hs' Hhd]; subst.
    destruct (sort_lt (key y) (key x)) eqn:Hlt.
    + constructor; [now apply IH|].
      apply insert_by_HdRel; [|done]. unfold sort_le. now apply sort_lt_asym.
    + constructor; [done|]. now constructor.
Qed.

Lemma sort_by_sorted (l : list A) : StronglySorted (sort_le key) (sort_by key l).
Proof.
  apply Sorted_StronglySorted; [apply sort_le_transitive|].
  induction l as [|x l IH]; simpl; [constructor|].
  unfold sort_by in *. simpl. now apply insert_by_sorted.
Qed.

(** The runs of a list are the list, cut in pieces. *)
Lemma runs_concat (l : list A) : concat (runs key l) = l.
Proof.
  induction l as [|x l IH]; simpl; [done|].
  destruct (runs key l) as [|[|y g] gs] eqn:Hr; simpl in *.
  - now rewrite <- IH.
  - (* an empty run does not occur *)
    exfalso. clear IH. revert Hr. clear. revert gs.
    induction l as [|z l IH]; simpl; [done|]. intros gs.
    destruct (runs key l) as [|[|y g] gs'] eqn:Hr; [done| |].
    + now destruct (IH gs').
    + now destruct (key z =? key y)%float.
  - destruct (key x =? key y)%float; simpl; now rewrite <- IH.
Qed.

Lemma runs_nonempty (l : list A) : Forall (fun g => g ≠ []) (runs key l).
Proof.
  induction l as [|x l IH]; simpl; [constructor|].
  destruct (runs key l) as [|[|y g] gs] eqn:Hr.
  - now repeat constructor.
  - now repeat constructor.
  - apply Forall_cons in IH as [_ IH].
    destruct (key x =? key y)%float; repeat constructor; done.
Qed.

Lemma eqb_sym (a b : float) : (a =? b)%float = true -> (b =? a)%float = true.
Proof. rewrite !FloatAxioms.eqb_spec. apply SFeqb_sym. Qed.

Lemma same_key_cons (x y : A) (g : list A) :
  (key x =? key y)%float = true -> same_key key (y :: g) -> same_key key (x :: y :: g).
Proof.
  intros Hxy Hg. right.
  assert (Hy : ∀ t, t ∈ y :: g -> (key y =? key t)%float = true).
  { intros t Ht. destruct Hg as [[t0 Hg]|Hg].
    - injection Hg as -> ->. apply list_elem_of_singleton in Ht as ->.
      now apply (eqb_trans (key x)).
    - apply Hg; [apply list_elem_of_here | done]. }
  assert (Hx : ∀ t, t ∈ x :: y :: g -> (key y =? key t)%float = true).
  { intros t [->|Ht]%elem_of_cons; [now apply eqb_sym | now apply Hy]. }
  intros t1 t2 H1 H2. apply (eqb_trans (key y)); now apply Hx.
Qed.

Lemma runs_same_key (l : list A) : Forall (same_key key) (runs key l).
Proof.
  induction l as [|x l IH]; simpl; [constructor|].
  destruct (runs key l) as [|[|y g] gs] eqn:Hr.
  - constructor; [left; now exists x | constructor].
  - constructor; [left; now exists x | constructor].
  - apply Forall_cons in IH as [Hg IH].
    destruct (key x =? key y)%float eqn:Hxy.
    + constructor; [now apply same_key_cons | done].
    + constructor; [left; now exists x|]. now constructor.
Qed.

Lemma elem_of_concat (t : A) (g : list A) (gs : list (list A)) :
  g ∈ gs -> t ∈ g -> t ∈ concat gs.
Proof.
  induction gs as [|g' gs IH]; simpl; [now intros ?%elem_of_nil|].
  intros [->|Hg]%elem_of_cons Ht; apply elem_of_app; [now left | right; now apply IH].
Qed.

Lemma runs_head (l : list A) (y : A) (g : list A) (gs : list (list A)) :
  runs key l = (y :: g) :: gs -> l = y :: g ++ concat gs.
Proof. intros Hr. rewrite <- (runs_concat l), Hr. reflexivity. Qed.

Lemma runs_other_key (l : list A) :
  StronglySorted (sort_le key) l -> ForallOrdPairs (other_key key) (runs key l).
Proof.
  induction l as [|x l IH]; simpl; intros Hs; [constructor|].
  apply StronglySorted_inv in Hs as [Hs Hx].
  specialize (IH Hs).
  destruct (runs key l) as [|[|y g] gs] eqn:Hr.
  - repeat constructor.
  - repeat constructor.
  - inversion IH as [|? ? Hyg IH']; subst.
    pose proof (runs_head l y g gs Hr) as Hl.
    rewrite Forall_forall in Hx. rewrite Forall_forall in Hyg.
    assert (Hxy' : sort_le key x y).
    { apply Hx. rewrite Hl. apply list_elem_of_here. }
    assert (Hy : ∀ t, t ∈ g ++ concat gs -> sort_le key y t).
    { intros t Ht. rewrite Hl in Hs. apply StronglySorted_inv in Hs as [_ Hy].
      rewrite Forall_forall in Hy. now apply Hy. }
    assert (Hlater : ∀ g2 t2, g2 ∈ gs -> t2 ∈ g2 -> sort_le key y t2).
    { intros g2 t2 Hg2 Ht2. apply Hy, elem_of_app. right.
      now apply (elem_of_concat t2 g2). }
    destruct (key x =? key y)%float eqn:Hxy.
    + constructor; [|done].
      rewrite Forall_forall. intros g2 Hg2 t1 t2 Ht1 Ht2.
      specialize (Hyg g2 Hg2).
      apply elem_of_cons in Ht1 as [->|Ht1]; [|now apply Hyg].
      destruct (key x =? key t2)%float eqn:Hxt; [|done].
      rewrite <- (Hyg y t2 (list_elem_of_here _ _) Ht2). symmetry.
      now apply (eqb_trans (key x)).
    + constructor; [|done].
      rewrite Forall_forall. intros g2 Hg2 t1 t2 Ht1 Ht2.
      apply list_elem_of_singleton in Ht1 as ->.
      destruct (key x =? key t2)%float eqn:Hxt; [|done].
      apply elem_of_cons in Hg2 as [->|Hg2].
      * apply elem_of_cons in Ht2 as [->|Ht2]; [congruence|].
        assert (Hyt : sort_le key y t2) by (apply Hy, elem_of_app; now left).
        rewrite (eqb_squeeze (key x) (key y) (key t2)) in Hxy; done.
      * pose proof (Hlater g2 t2 Hg2 Ht2) as Hyt.
        rewrite (eqb_squeeze (key x) (key y) (key t2)) in Hxy; done.
Qed.

End Sort.

End SortFacts.

(** ** The median *)

Module MedianFacts.

Import F64Facts SortFacts.

Lemma StronglySorted_lookup {A : Type} (R : A -> A -> Prop) (l : list A) i j a b :
  StronglySorted R l -> i < j -> l !! i = Some a -> l !! j = Some b -> R a b.
Proof.
  intros Hs. revert i j. induction Hs as [|x l Hs IH Hx]; intros i j Hij Hi Hj.
  - now rewrite lookup_nil in Hi.
  - destruct j as [|j]; [lia|]. simpl in Hj. destruct i as [|i].
    + injection Hi as <-. rewrite Forall_forall in Hx.
      apply Hx. now apply list_elem_of_lookup_2 in Hj.
    + simpl in Hi. apply (IH i j); [lia|done|done].
Qed.

(** Sorting numbers leaves them in the order of binary64. *)
Lemma sort_by_id_leb (xs : list float) :
  Forall (fun x => is_nan x = false) xs ->
  StronglySorted (fun a b => (a <=? b)%float = true) (sort_by id xs).
Proof.
  intros Hnan.
  assert (Hs : Forall (fun x => is_nan x = false) (sort_by id xs)).
  { rewrite Forall_forall in *. intros x Hx. apply Hnan.
    now rewrite <- (sort_by_perm id xs). }
  pose proof (sort_by_sorted id xs) as Hsorted.
  induction Hsorted as [|x l Hl IH Hx]; [constructor|].
  apply Forall_cons in Hs as [Hxn Hs]. constructor; [now apply IH|].
  rewrite Forall_forall in *. intros y Hy.
  apply sorted_leb; [done | now apply Hs | now apply Hx].
Qed.

Lemma even_half (n : nat) : Nat.even n = true -> 0 < n -> n / 2 - 1 = (n - 1) / 2.
Proof.
  intros He Hn. apply Nat.even_spec in He as [k ->].
  replace (2 * k - 1) with (1 + (k - 1) * 2) by lia.
  rewrite Nat.div_add by lia. rewrite (Nat.mul_comm 2 k), Nat.div_mul by lia. simpl. lia.
Qed.

Lemma odd_half (n : nat) : Nat.even n = false -> (n - 1) / 2 = n / 2.
Proof.
  intros He. rewrite <- Nat.negb_odd in He. apply negb_false_iff, Nat.odd_spec in He.
  destruct He as [k ->].
  replace (2 * k + 1 - 1) with (k * 2) by lia. rewrite Nat.div_mul by lia.
  replace (2 * k + 1) with (1 + k * 2) by lia. rewrite Nat.div_add by lia. reflexivity.
Qed.

(** The median of numbers: with the numbers sorted, the middle one when they
    are an odd number, the mean of the two middle ones otherwise. *)
Lemma median_spec (rs : list float) :
  rs ≠ [] -> Forall (fun x => is_nan x = false) rs ->
  ∃ s lo hi,
    s ≡ₚ rs
    ∧ StronglySorted (fun a b => (a <=? b)%float = true) s
    ∧ s !! ((length s - 1) / 2) = Some lo
    ∧ s !! (length s / 2) = Some hi
    ∧ median rs = (if Nat.even (length s) then (lo + hi) / 2 else hi)%float.
Proof.
  intros Hne Hnan. set (s := sort_by id rs).
  assert (Hperm : s ≡ₚ rs) by apply sort_by_perm.
  assert (Hlen : 0 < length s).
  { rewrite (Permutation_length Hperm). destruct rs; [done|simpl; lia]. }
  destruct (lookup_lt_is_Some_2 s ((length s - 1) / 2)) as [lo Hlo].
  { apply Nat.Div0.div_lt_upper_bound. lia. }
  destruct (lookup_lt_is_Some_2 s (length s / 2)) as [hi Hhi].
  { apply Nat.Div0.div_lt_upper_bound. lia. }
  exists s, lo, hi. split; [done|]. split; [now apply sort_by_id_leb|].
  split; [done|]. split; [done|].
  unfold median. fold s. cbv zeta.
  destruct (Nat.even (length s)) eqn:He.
  - rewrite (even_half _ He Hlen), Hlo, Hhi. reflexivity.
  - rewrite Hhi. simpl. apply div_one.
Qed.

Lemma filter_not_nan (xs : list float) :
  Forall (fun x => is_nan x = false) (filter (fun x => is_nan x = false) xs).
Proof. rewrite Forall_forall. now intros x [Hx _]%list_elem_of_filter. Qed.

(** [np.nanmedian]: NaN when every element is NaN, the median of the others
    otherwise; the middle elements lie between any two bounds of the
    others. *)
Lemma nanmedian_spec (xs : list float) :
  let rs := filter (fun x => is_nan x = false) xs in
  (rs = [] ∧ nanmedian xs = nan)
  ∨ (∃ s lo hi,
       s ≡ₚ rs
       ∧ StronglySorted (fun a b => (a <=? b)%float = true) s
       ∧ s !! ((length s - 1) / 2) = Some lo
       ∧ s !! (length s / 2) = Some hi
       ∧ nanmedian xs = (if Nat.even (length s) then (lo + hi) / 2 else hi)%float
       ∧ (Nat.even (length s) = false -> lo = hi)
       ∧ ∀ mn mx,
           (∀ r, r ∈ rs -> (mn <=? r)%float = true ∧ (r <=? mx)%float = true) ->
           (mn <=? lo)%float = true ∧ (lo <=? hi)%float = true
           ∧ (hi <=? mx)%float = true).
Proof.
  intros rs. unfold nanmedian. fold rs.
  destruct rs as [|r0 rs'] eqn:Hrs; [now left|right].
  rewrite <- Hrs.
  assert (Hnan : Forall (fun x => is_nan x = false) rs) by apply filter_not_nan.
  destruct (median_spec rs) as (s & lo & hi & Hperm & Hsorted & Hlo & Hhi & Hmed);
    [now rewrite Hrs | done |].
  exists s, lo, hi. repeat (split; [done|]).
  assert (Hin : ∀ i x, s !! i = Some x -> x ∈ rs).
  { intros i x Hx. rewrite <- Hperm. now apply list_elem_of_lookup_2 in Hx. }
  split.
  - intros He. rewrite (odd_half _ He) in Hlo. congruence.
  - intros mn mx Hb. split; [now apply Hb, (Hin _ _ Hlo)|].
    split; [|now apply Hb, (Hin _ _ Hhi)].
    destruct (decide ((length s - 1) / 2 = length s / 2)) as [Heq|Hneq].
    + rewrite Heq in Hlo. assert (lo = hi) as -> by congruence.
      apply leb_refl. rewrite Forall_forall in Hnan. now apply Hnan, (Hin _ _ Hhi).
    + apply (StronglySorted_lookup (fun a b => (a <=? b)%float = true) s
               ((length s - 1) / 2) (length s / 2)); try done.
      assert ((length s - 1) / 2 ≤ length s / 2) by (apply Nat.Div0.div_le_mono; lia).
      lia.
Qed.

End MedianFacts.

(** ** Properties of the aggregation *)

Module AggregateSpec.

Import Cal F64Facts SortFacts MedianFacts.

(** C5, as the claim states it, fails for a group whose trials all have a
    ratio that is NaN (here one trial with no injected and no recovered
    flux): its aggregate is NaN, which lies in no interval.  It also fails
    when the sum of the two middle ratios of a group overflows: two trials
    with the ratio 1.5e308 have the aggregate infinity, above both. *)
Lemma median_outside_ratios_cex :
  (tps (Trial 0 5 0 0) = nan
   ∧ med_res [Trial 0 5 0 0] = [MedTrial 5 0 0 0 nan]
   ∧ (nan <=? nan)%float = false)
  ∧ (tps (Trial 1 10 0 0x1.ab36d48e1acfp+1023) = 0x1.ab36d48e1acfp+1023%float
     ∧ med_tps <$> med_res [Trial 1 10 0 0x1.ab36d48e1acfp+1023;
                            Trial 1 10 90 0x1.ab36d48e1acfp+1023]
       = [infinity]
     ∧ (infinity <=? 0x1.ab36d48e1acfp+1023)%float = false).
Proof. vm_compute. repeat split; reflexivity. Qed.

(** C5, amended.  [med_res] has one row per group of [res.group_by('seps')]:
    the groups partition the trials, the trials of a group have equal
    separations (a trial whose separation is NaN is alone in its group) and
    trials of different groups have different separations.  The throughput
    of a group is [np.nanmedian] of the ratios [flux_retr/flux] of its
    trials: NaN when every ratio is NaN; otherwise, with the ratios that are
    not NaN sorted, the middle ratio when they are an odd number and the
    mean [(lo + hi)/2] of the two middle ratios when they are an even number,
    where [lo <= hi] and both lie between any bounds [mn] and [mx] of the
    ratios that are not NaN (their minimum and maximum in particular). *)
Theorem throughput_is_median_by_separation (res : list trial) :
  let groups := group_by seps res in
  med_res res = aggregate <$> groups
  ∧ concat groups ≡ₚ res
  ∧ Forall (fun g => g ≠ [] ∧ same_key seps g) groups
  ∧ ForallOrdPairs (other_key seps) groups
  ∧ Forall (fun g =>
      let rs := filter (fun r => is_nan r = false) (tps <$> g) in
      med_tps (aggregate g) = nanmedian (tps <$> g)
      ∧ ((rs = [] ∧ med_tps (aggregate g) = nan)
         ∨ (∃ s lo hi,
              s ≡ₚ rs
              ∧ StronglySorted (fun a b => (a <=? b)%float = true) s
              ∧ s !! ((length s - 1) / 2) = Some lo
              ∧ s !! (length s / 2) = Some hi
              ∧ med_tps (aggregate g)
                = (if Nat.even (length s) then (lo + hi) / 2 else hi)%float
              ∧ (Nat.even (length s) = false -> lo = hi)
              ∧ ∀ mn mx,
                  (∀ r, r ∈ rs -> (mn <=? r)%float = true ∧ (r <=? mx)%float = true) ->
                  (mn <=? lo)%float = true ∧ (lo <=? hi)%float = true
                  ∧ (hi <=? mx)%float = true))) groups.
Proof.
  intros groups. split; [reflexivity|].
  split. { unfold groups, group_by. rewrite runs_concat. apply sort_by_perm. }
  split. { apply Forall_and. split; [apply runs_nonempty | apply runs_same_key]. }
  split. { apply runs_other_key, sort_by_sorted. }
  apply Forall_forall. intros g _. cbv zeta. split; [reflexivity|].
  apply (nanmedian_spec (tps <$> g)).
Qed.

(** Two trials at 2 pixels recovered with a half and with all of their flux,
    and one at 3 pixels that is not recovered at all: the throughput at 2
    pixels is the mean 0.75 of the two ratios and the one at 3 pixels is
    0. *)
Lemma throughput_is_median_by_separation_witness :
  med_res [Trial 8 2 90 8; Trial 5 3 0 0; Trial 4 2 0 2]
  = aggregate <$> [[Trial 8 2 90 8; Trial 4 2 0 2]; [Trial 5 3 0 0]]
  ∧ med_tps <$> med_res [Trial 8 2 90 8; Trial 5 3 0 0; Trial 4 2 0 2]
    = [0.75; 0]%float.
Proof.
  destruct (throughput_is_median_by_separation
              [Trial 8 2 90 8; Trial 5 3 0 0; Trial 4 2 0 2]) as [Hmed _].
  split; [exact Hmed|]. rewrite Hmed. vm_compute. reflexivity.
Defined.

End AggregateSpec.

(** ** More on the maskers *)

Module MaskerMore.

Import NpFacts Masker MaskerFacts Masked.

(** Two arrays with the same shape and the same elements are the same
    array. *)
Lemma ndarray_eq (a b : ndarray) :
  shape a = shape b -> (∀ i, buffer a !! i = buffer b !! i) -> a = b.
Proof.
  destruct a as [sa ba], b as [sb bb]. simpl. intros -> Hb. f_equal.
  now apply list_eq.
Qed.

Lemma zip_take_min {A B : Type} (l : list A) (k : list B) :
  zip (take (length l `min` length k) l) (take (length l `min` length k) k) = zip l k.
Proof.
  revert k. induction l as [|x l IH]; intros [|y k]; simpl; try done.
  now rewrite IH.
Qed.


Lemma existsb_equiv {A : Type} (p : A -> bool) (l k : list A) :
  (∀ x, x ∈ l <-> x ∈ k) -> existsb p l = existsb p k.
Proof.
  intros Hlk. apply eq_true_iff_eq. rewrite !existsb_exists.
  split; intros (x & Hx & Hp); exists x; split; try done;
    apply list_elem_of_In; apply Hlk; now apply list_elem_of_In.
Qed.

(** The elements of a masked cube. *)
Lemma companions_masked_lookup pxsc cent mrad H W a srcs i :
  buffer (companions_masked pxsc cent mrad H W a srcs) !! i
  = (fun d =>
       if existsb (fun src : float * float =>
                     frame_mask (companion_mask pxsc cent mrad (indices H W).2
                                   (indices H W).1 src.1 src.2) i) srcs
       then nan else d) <$> buffer a !! i.
Proof.
  unfold companions_masked.
  apply (buffer_foldl_setitem_mask
           (fun src : float * float =>
              companion_mask pxsc cent mrad (indices H W).2 (indices H W).1 src.1 src.2)).
Qed.

Lemma companions_masked_shape pxsc cent mrad H W a srcs :
  shape (companions_masked pxsc cent mrad H W a srcs) = shape a.
Proof. unfold companions_masked. apply shape_foldl_setitem_mask. Qed.

Lemma mask_companions_masked (h : heap) data a K H W pxsc cent mrad ra_off de_off :
  h !! data = Some a -> shape a = [K; H; W] ->
  mask_companions data pxsc cent mrad ra_off de_off h
  = (inr (fresh (dom h)),
     <[fresh (dom h) := companions_masked pxsc cent mrad H W a (zip ra_off de_off)]> h).
Proof. apply mask_companions_run. Qed.

(** X1.  [zip(ra_off, de_off)] pairs the offsets: [mask_companions] ignores
    the offsets of the longer list that have no partner, and with no pair of
    offsets (one of the lists empty) it returns a new array equal to the
    cube. *)
Theorem mask_companions_pairs_the_offsets (h : heap) data pxsc cent mrad ra_off de_off :
  let n := length ra_off `min` length de_off in
  mask_companions data pxsc cent mrad ra_off de_off h
  = mask_companions data pxsc cent mrad (take n ra_off) (take n de_off) h
  ∧ ∀ a K H W,
      h !! data = Some a -> shape a = [K; H; W] -> n = 0 ->
      mask_companions data pxsc cent mrad ra_off de_off h
      = (inr (fresh (dom h)), <[fresh (dom h) := a]> h).
Proof.
  intros n. split.
  - unfold mask_companions. unfold n. now rewrite zip_take_min.
  - intros a K H W Ha Hs Hn.
    rewrite (mask_companions_run h data a K H W _ _ _ _ _ Ha Hs).
    assert (Hz : zip ra_off de_off = []).
    { unfold n in Hn. destruct ra_off, de_off; simpl in *; try done. }
    now rewrite Hz.
Qed.

(** Two right ascensions and one declination: the second right ascension is
    ignored, and the centre of the 3 x 3 frame, half a pixel away from no
    companion, keeps its value; with no declination at all the frame comes
    back as it is. *)
Lemma mask_companions_pairs_the_offsets_witness :
  mask_companions 1%positive 1%float (1, 1)%float 0.5%float [1; 0]%float [1%float]
    (Sample.heap_of Sample.frame3)
  = mask_companions 1%positive 1%float (1, 1)%float 0.5%float [1%float] [1%float]
      (Sample.heap_of Sample.frame3)
  ∧ mask_companions 1%positive 1%float (1, 1)%float 0.5%float [1; 0]%float []
      (Sample.heap_of Sample.frame3)
    = (inr (fresh (dom (Sample.heap_of Sample.frame3))),
       <[fresh (dom (Sample.heap_of Sample.frame3)) := Sample.frame3]>
         (Sample.heap_of Sample.frame3)).
Proof.
  split.
  - exact (proj1 (mask_companions_pairs_the_offsets (Sample.heap_of Sample.frame3)
                    1%positive 1%float (1, 1)%float 0.5%float [1; 0]%float [1%float])).
  - apply (proj2 (mask_companions_pairs_the_offsets (Sample.heap_of Sample.frame3)
                    1%positive 1%float (1, 1)%float 0.5%float [1; 0]%float [])
             Sample.frame3 1 3 3); reflexivity.
Defined.

(** X2.  Masking composes: masking the companions of one list and then, in
    the result, those of a second list gives the array that masking the
    companions of both lists at once gives.  The cube itself and the first
    result are left as they are. *)
Theorem mask_companions_composes (h : heap) data a K H W pxsc cent mrad
    ra1 de1 ra2 de2 :
  h !! data = Some a -> shape a = [K; H; W] -> length ra1 = length de1 ->
  ∃ l1 out1 l2 out,
    mask_companions data pxsc cent mrad ra1 de1 h = (inr l1, <[l1 := out1]> h)
    ∧ mask_companions l1 pxsc cent mrad ra2 de2 (<[l1 := out1]> h)
      = (inr l2, <[l2 := out]> (<[l1 := out1]> h))
    ∧ l2 ≠ l1 ∧ l2 ≠ data
    ∧ mask_companions data pxsc cent mrad (ra1 ++ ra2) (de1 ++ de2) h
      = (inr l1, <[l1 := out]> h).
Proof.
  intros Ha Hs Hlen.
  set (out1 := companions_masked pxsc cent mrad H W a (zip ra1 de1)).
  assert (Hs1 : shape out1 = [K; H; W]).
  { unfold out1, companions_masked. now rewrite shape_foldl_setitem_mask. }
  set (h1 := <[fresh (dom h) := out1]> h).
  assert (H1 : h1 !! fresh (dom h) = Some out1) by apply lookup_insert_eq.
  exists (fresh (dom h)), out1, (fresh (dom h1)),
    (companions_masked pxsc cent mrad H W out1 (zip ra2 de2)).
  split; [exact (mask_companions_run h data a K H W _ _ _ _ _ Ha Hs)|].
  split; [exact (mask_companions_run h1 _ out1 K H W _ _ _ _ _ H1 Hs1)|].
  split; [now apply (fresh_ne h1 _ out1)|].
  split.
  { apply (fresh_ne h1 data a). unfold h1. rewrite lookup_insert_ne; [done|].
    now apply (fresh_ne h data a). }
  rewrite (mask_companions_run h data a K H W _ _ _ _ _ Ha Hs).
  rewrite zip_with_app by done.
  rewrite foldl_app. reflexivity.
Qed.

Lemma mask_companions_composes_witness :
  ∃ l1 out1 l2 out,
    mask_companions 1%positive 1%float (1, 0)%float 0.5%float [1%float] [0%float]
      (Sample.heap_of Sample.row3)
    = (inr l1, <[l1 := out1]> (Sample.heap_of Sample.row3))
    ∧ mask_companions l1 1%float (1, 0)%float 0.5%float [-1]%float [0%float]
        (<[l1 := out1]> (Sample.heap_of Sample.row3))
      = (inr l2, <[l2 := out]> (<[l1 := out1]> (Sample.heap_of Sample.row3)))
    ∧ mask_companions 1%positive 1%float (1, 0)%float 0.5%float [1; -1]%float
        [0; 0]%float (Sample.heap_of Sample.row3)
      = (inr l1, <[l1 := out]> (Sample.heap_of Sample.row3)).
Proof.
  destruct (mask_companions_composes (Sample.heap_of Sample.row3) 1%positive
              Sample.row3 1 1 3 1%float (1, 0)%float 0.5%float
              [1%float] [0%float] [-1]%float [0%float])
    as (l1 & out1 & l2 & out & H1 & H2 & _ & _ & H3); [reflexivity..|].
  now exists l1, out1, l2, out.
Defined.

(** X3.  The result of [mask_companions] depends on which pairs of offsets
    are given, not on their order or their number of occurrences; and masking
    the result once more with the same offsets changes nothing. *)
Theorem mask_companions_is_idempotent (h : heap) data a K H W pxsc cent mrad
    ra_off de_off :
  h !! data = Some a -> shape a = [K; H; W] ->
  (∀ ra' de',
     (∀ p, p ∈ zip ra_off de_off <-> p ∈ zip ra' de') ->
     mask_companions data pxsc cent mrad ra' de' h
     = mask_companions data pxsc cent mrad ra_off de_off h)
  ∧ ∃ l out,
      mask_companions data pxsc cent mrad ra_off de_off h = (inr l, <[l := out]> h)
      ∧ ∃ l', mask_companions l pxsc cent mrad ra_off de_off (<[l := out]> h)
              = (inr l', <[l' := out]> (<[l := out]> h)).
Proof.
  intros Ha Hs. split.
  - intros ra' de' Hsame.
    rewrite !(mask_companions_masked h data a K H W _ _ _ _ _ Ha Hs).
    do 2 f_equal. apply ndarray_eq.
    + now rewrite !companions_masked_shape.
    + intros i.
      rewrite !(companions_masked_lookup pxsc cent mrad H W a).
      now rewrite (existsb_equiv _ _ _ Hsame).
  - set (out := companions_masked pxsc cent mrad H W a (zip ra_off de_off)).
    set (h1 := <[fresh (dom h) := out]> h).
    assert (Hs1 : shape out = [K; H; W]).
    { unfold out. now rewrite companions_masked_shape. }
    exists (fresh (dom h)), out.
    split; [exact (mask_companions_run h data a K H W _ _ _ _ _ Ha Hs)|].
    exists (fresh (dom h1)).
    rewrite (mask_companions_masked h1 _ out K H W) by (done || apply lookup_insert_eq).
    do 2 f_equal. apply ndarray_eq.
    + now rewrite companions_masked_shape.
    + intros i.
      rewrite (companions_masked_lookup pxsc cent mrad H W out).
      unfold out. rewrite (companions_masked_lookup pxsc cent mrad H W a).
      destruct (buffer a !! i) as [d|]; simpl; [|done].
      now destruct (existsb _ _).
Qed.

Lemma mask_companions_is_idempotent_witness :
  mask_companions 1%positive 1%float (1, 1)%float 0.5%float [0; 1; 0]%float
    [0; 1; 0]%float (Sample.heap_of Sample.frame3)
  = mask_companions 1%positive 1%float (1, 1)%float 0.5%float [1; 0]%float
      [1; 0]%float (Sample.heap_of Sample.frame3).
Proof.
  apply (proj1 (mask_companions_is_idempotent (Sample.heap_of Sample.frame3) 1%positive
                  Sample.frame3 1 3 3 1%float (1, 1)%float 0.5%float [1; 0]%float
                  [1; 0]%float eq_refl eq_refl)).
  intros p. simpl. rewrite !elem_of_cons, !elem_of_nil. tauto.
Defined.

End MaskerMore.

(** ** More on the calibration *)

Module CalMore.

Import Cal LibFacts CalFacts.

Section Pass.
Context {lm : Libm}.
Variable self : pipeline.
Variable ds : dataset.
Variable args : arguments.




End Pass.




(** X5.  A pass needs the raw curves that [raw_contrast_curve] saves: when
    the file of the raw separations, or that of the raw contrasts, is
    missing, it raises [FileNotFoundError] for that file, and when [KL] is
    not an index of the rows of the raw separations it raises [IndexError];
    in each case nothing has been written and no method of [self] has been
    called. *)
Theorem pass_needs_the_raw_curves {lm : Libm} (self : pipeline) (ds : dataset)
    (args : arguments) (st : state) :
  (files st !! artifact ds "-seps.npy" = None ->
   pass self ds args st = (inl (FileNotFoundError (artifact ds "-seps.npy")), st))
  ∧ (∀ rows,
       files st !! artifact ds "-seps.npy" = Some (Arr2 rows) ->
       (KL args < - Z.of_nat (length rows) ∨ Z.of_nat (length rows) <= KL args)%Z ->
       pass self ds args st = (inl (IndexError "index out of bounds"), st))
  ∧ (∀ seps,
       load_row (artifact ds "-seps.npy") (KL args) st = (inr seps, st) ->
       files st !! artifact ds "-cons.npy" = None ->
       pass self ds args st = (inl (FileNotFoundError (artifact ds "-cons.npy")), st)).
Proof.
  split; [|split].
  - intros Hmiss. unfold pass.
    rewrite (bind_inl _ _ st (FileNotFoundError (artifact ds "-seps.npy")) st); [done|].
    unfold load_row. now rewrite (bind_inl _ _ st _ st (np_load_miss st _ Hmiss)).
  - intros rows Hrows Hk. unfold pass.
    rewrite (bind_inl _ _ st (IndexError "index out of bounds") st); [done|].
    unfold load_row. rewrite (bind_inr _ _ st _ st (np_load_hit st _ _ Hrows)).
    rewrite lift_run. f_equal. unfold getitem.
    destruct (KL args <? 0)%Z eqn:Hneg.
    + apply Z.ltb_lt in Hneg.
      destruct (0 <=? KL args + Z.of_nat (length rows))%Z eqn:H0; simpl; [|done].
      apply Z.leb_le in H0. lia.
    + apply Z.ltb_ge in Hneg.
      destruct (KL args <? Z.of_nat (length rows))%Z eqn:H0.
      * apply Z.ltb_lt in H0. lia.
      * now rewrite andb_false_r.
  - intros seps Hs Hmiss. unfold pass.
    rewrite (bind_inr _ _ st seps st Hs).
    rewrite (bind_inl _ _ st (FileNotFoundError (artifact ds "-cons.npy")) st); [done|].
    unfold load_row. now rewrite (bind_inl _ _ st _ st (np_load_miss st _ Hmiss)).
Qed.

(** With no file at all the pass over the sample data set stops at the raw
    separations; with the raw curves of two KL modes, [KL = 2] is out of
    range. *)
Lemma pass_needs_the_raw_curves_witness :
  pass (lm := Sample.libm) CalSample.self CalSample.ds CalSample.args (State ∅ [])
  = (inl (FileNotFoundError "out/obs-seps.npy"), State ∅ [])
  ∧ pass (lm := Sample.libm) CalSample.self CalSample.ds
      (Args (fun _ => 0%float) [] [] [] [] [] [] 2 false) CalSample.raw_only
    = (inl (IndexError "index out of bounds"), CalSample.raw_only).
Proof.
  split.
  - apply (proj1 (pass_needs_the_raw_curves (lm := Sample.libm) CalSample.self
                    CalSample.ds CalSample.args (State ∅ []))).
    reflexivity.
  - apply (proj1 (proj2 (pass_needs_the_raw_curves (lm := Sample.libm) CalSample.self
                           CalSample.ds (Args (fun _ => 0%float) [] [] [] [] [] [] 2 false)
                           CalSample.raw_only)) [[1; 2]; [1; 2]]%float).
    + reflexivity.
    + simpl. lia.
Defined.

(** The columns of a table are the arrays it was made of. *)
Lemma Table_columns (t : npy * npy * npy * npy) (res : list trial) :
  Table t = inr res ->
  t = (Arr1 (flux <$> res), Arr1 (Cal.seps <$> res), Arr1 (pas <$> res),
       Arr1 (flux_retr <$> res)).
Proof.
  destruct t as [[[[fl|?] [se|?]] [pa|?]] [fr|?]]; simpl; try discriminate.
  destruct (_ && _) eqn:Hlen; [|discriminate]. intros [= <-].
  apply andb_true_iff in Hlen as [Hlen H3]. apply andb_true_iff in Hlen as [H1 H2].
  apply Nat.eqb_eq in H1, H2, H3.
  assert (Hz : ∀ (fl se pa fr : list float),
            length fl = length se -> length se = length pa -> length pa = length fr ->
            flux <$> zip_with (fun '(f, s) '(p, r) => Trial f s p r) (zip fl se) (zip pa fr) = fl
            ∧ Cal.seps <$> zip_with (fun '(f, s) '(p, r) => Trial f s p r) (zip fl se) (zip pa fr) = se
            ∧ pas <$> zip_with (fun '(f, s) '(p, r) => Trial f s p r) (zip fl se) (zip pa fr) = pa
            ∧ flux_retr <$> zip_with (fun '(f, s) '(p, r) => Trial f s p r) (zip fl se) (zip pa fr) = fr).
  { clear. induction fl as [|f fl IH]; intros [|s se] [|p pa] [|r fr]; simpl;
      try done. intros [= H1] [= H2] [= H3].
    destruct (IH se pa fr H1 H2 H3) as (E1 & E2 & E3 & E4).
    repeat split; f_equal; assumption. }
  destruct (Hz fl se pa fr H1 H2 H3) as (E1 & E2 & E3 & E4).
  repeat f_equal; symmetry; assumption.
Qed.

(** X6.  With [overwrite] true a pass that returns has made the injection
    and recovery tests, once, after asking for the transmission map and the
    offset PSF, whatever table was on disk: the four artifacts and the table
    [res] hold what [inject_recover] returned, and the injected fluxes are
    without NaN. *)
Theorem overwrite_recomputes_the_table {lm : Libm} (self : pipeline) (ds : dataset)
    (args : arguments) (st st1 : state) (r : outcome) :
  overwrite args = true ->
  pass self ds args st = (inr r, st1) ->
  ∃ min_sep fl se,
    let t := inject_recover self ds min_sep fl se (pas_inject ds args) (KL args)
               (ra_off args) (de_off args) in
    trace st1
    = trace st ++ [GetTransmission; GetOffsetPsf;
                   InjectRecover min_sep fl se (pas_inject ds args)]
    ∧ (∀ f, f ∈ fl -> is_nan f = false)
    ∧ files st1 !! artifact ds "-flux_all.npy" = Some (Arr1 (flux_all t))
    ∧ files st1 !! artifact ds "-seps_all.npy" = Some (Arr1 (seps_all t))
    ∧ files st1 !! artifact ds "-pas_all.npy" = Some (Arr1 (pas_all t))
    ∧ files st1 !! artifact ds "-flux_retr_all.npy" = Some (Arr1 (flux_retr_all t))
    ∧ flux <$> out_res r = flux_all t
    ∧ Cal.seps <$> out_res r = seps_all t
    ∧ pas <$> out_res r = pas_all t
    ∧ flux_retr <$> out_res r = flux_retr_all t.
Proof.
  intros Ho Hrun.
  destruct (pass_inv self ds args st st1 r Hrun)
    as (seps & cons & t & st' & res & corr & _ & _ & H3 & H4 & _ & -> & ->).
  rewrite (injection_table_todo self ds args seps cons st
             (cached_table_overwrite ds args st Ho)) in H3.
  set (s1 := State (files st) (trace st ++ [GetTransmission])) in *.
  destruct (flux_inject self ds args seps cons s1) as [[e|fi] s2] eqn:Hfi.
  { rewrite (recompute_table_raise self ds args seps cons s1 s2 e Hfi) in H3.
    discriminate. }
  destruct (flux_inject_run self ds args seps cons s1 _ _ Hfi) as [-> _].
  rewrite (recompute_table_run self ds args seps cons s1 _ fi Hfi) in H3.
  injection H3 as <- <-.
  eexists _, _, _. cbv zeta. simpl.
  split; [now rewrite <- !app_assoc|].
  split.
  { intros f. apply bool_index_not_nan. }
  assert (Hne : ∀ n1 n2 : string, n1 ≠ n2 -> artifact ds n1 ≠ artifact ds n2)
    by apply artifact_ne.
  split. { rewrite !lookup_insert_ne by (apply Hne; discriminate). apply lookup_insert_eq. }
  split. { rewrite !lookup_insert_ne by (apply Hne; discriminate). apply lookup_insert_eq. }
  split. { rewrite !lookup_insert_ne by (apply Hne; discriminate). apply lookup_insert_eq. }
  split. { rewrite !lookup_insert_ne by (apply Hne; discriminate). apply lookup_insert_eq. }
  apply Table_columns in H4. injection H4 as -> -> -> ->. done.
Qed.

(** With [overwrite] true the table on disk of the sample data set, two
    trials at 2 pixels, is replaced by the injections at 2 and 3 pixels. *)
Lemma overwrite_recomputes_the_table_witness :
  ∃ min_sep fl,
    trace (pass (lm := Sample.libm) CalSample.self CalSample.ds
             (with_overwrite true CalSample.args) CalSample.with_table).2
    = [GetTransmission; GetOffsetPsf; InjectRecover min_sep fl [2; 3]%float [0%float]]
    ∧ files (pass (lm := Sample.libm) CalSample.self CalSample.ds
               (with_overwrite true CalSample.args) CalSample.with_table).2
        !! "out/obs-seps_all.npy"
      = Some (Arr1 [2; 3]%float).
Proof.
  destruct (pass (lm := Sample.libm) CalSample.self CalSample.ds
              (with_overwrite true CalSample.args) CalSample.with_table)
    as [[e|r] st1] eqn:Hrun; [vm_compute in Hrun; discriminate|].
  destruct (overwrite_recomputes_the_table (lm := Sample.libm) CalSample.self
              CalSample.ds (with_overwrite true CalSample.args) CalSample.with_table
              st1 r eq_refl Hrun)
    as (min_sep & fl & se & Htr & _ & _ & Hse & _).
  cbv zeta in Hse.
  assert (Hst : st1 = (pass (lm := Sample.libm) CalSample.self CalSample.ds
                         (with_overwrite true CalSample.args) CalSample.with_table).2)
    by now rewrite Hrun.
  assert (Hfile : files st1 !! "out/obs-seps_all.npy" = Some (Arr1 [2; 3]%float)).
  { rewrite Hst. vm_compute. reflexivity. }
  assert (Hse' : files st1 !! "out/obs-seps_all.npy" = Some (Arr1 se)) by exact Hse.
  rewrite Hfile in Hse'. injection Hse' as <-.
  exists min_sep, fl. split; [exact Htr | exact Hfile].
Defined.

(** X7.  [cal_contrast_curve] works through the data sets in order and stops
    at the first pass that raises: the exception leaves the function, the
    data sets after it are not processed, and what the passes before it have
    written stays written. *)
Theorem cal_contrast_curve_stops_at_the_first_error {lm : Libm} (self : pipeline)
    (args : arguments) (before after : list dataset) (st st1 : state) :
  cal_contrast_curve self args before st = (inr (), st1) ->
  cal_contrast_curve self args (before ++ after) st
  = cal_contrast_curve self args after st1
  ∧ ∀ ds e st2,
      pass self ds args st1 = (inl e, st2) ->
      cal_contrast_curve self args (before ++ ds :: after) st = (inl e, st2).
Proof.
  unfold cal_contrast_curve.
  assert (Happ : ∀ (l k : list dataset) s s',
            for_each l (fun ds => let* _ := pass self ds args in ret ()) s = (inr (), s') ->
            for_each (l ++ k) (fun ds => let* _ := pass self ds args in ret ()) s
            = for_each k (fun ds => let* _ := pass self ds args in ret ()) s').
  { induction l as [|d l IH]; intros k s s'; simpl.
    - unfold ret. now intros [= ->].
    - destruct (Py.bind (pass self d args) (fun _ => ret ()) s) as [[e|[]] s2] eqn:Hd.
      + rewrite (bind_inl _ _ s e s2 Hd). discriminate.
      + rewrite !(bind_inr _ _ s () s2 Hd). apply IH. }
  intros Hrun. split; [now apply Happ|].
  intros ds e st2 Hpass. rewrite (Happ _ _ _ _ Hrun). simpl.
  unfold Py.bind. now rewrite Hpass.
Qed.

(** Of two data sets the first has no raw curves: the loop stops there, and
    the second, whose raw curves are on disk, is not processed. *)
Lemma cal_contrast_curve_stops_at_the_first_error_witness :
  cal_contrast_curve (lm := Sample.libm) CalSample.self CalSample.args
    [DataSet "out/" "none" "F444W" "MASK335R" 1000; CalSample.ds] CalSample.raw_only
  = (inl (FileNotFoundError "out/none-seps.npy"), CalSample.raw_only).
Proof.
  apply (proj2 (cal_contrast_curve_stops_at_the_first_error (lm := Sample.libm)
                  CalSample.self CalSample.args [] [CalSample.ds] CalSample.raw_only
                  CalSample.raw_only eq_refl)
           (DataSet "out/" "none" "F444W" "MASK335R" 1000)).
  reflexivity.
Defined.

End CalMore.

(** ** The order of binary64 numbers *)

Module OrderFacts.

Import F64Facts SortFacts.

Local Open Scope Z_scope.

Lemma SFltb_not_nan x y : SFltb x y = true -> SFeqb x x = true ∧ SFeqb y y = true.
Proof.
  unfold SFltb, SFeqb, SFcompare.
  destruct x as [[]|[]| |[] m1 e1], y as [[]|[]| |[] m2 e2];
    try discriminate; intros H1; split; try reflexivity; cmp_cases; sf_cases;
    rewrite ?Z.compare_refl, ?Pos.compare_cont_refl, ?Pos.compare_refl in *; sf_cases.
Qed.

Lemma sf_sorted_distinct a b :
  sf_sort_lt b a = false -> SFeqb a b = false -> SFltb a b = true ∨ SFeqb b b = false.
Proof.
  unfold sf_sort_lt, SFltb, SFeqb, SFcompare.
  destruct a as [[]|[]| |[] m1 e1], b as [[]|[]| |[] m2 e2];
    try (left; reflexivity); try (right; reflexivity); try discriminate;
    intros H1 H2; left; cmp_cases; sf_cases;
    rewrite ?Z.compare_refl, ?Pos.compare_cont_refl, ?Pos.compare_refl in *; sf_cases.
Qed.

Local Close Scope Z_scope.

(** Numbers that compare are not NaN. *)
Lemma ltb_not_nan (x y : float) :
  (x <? y)%float = true -> is_nan x = false ∧ is_nan y = false.
Proof.
  unfold is_nan. rewrite FloatAxioms.ltb_spec, !FloatAxioms.eqb_spec.
  intros [-> ->]%SFltb_not_nan. done.
Qed.

Lemma ltb_asym (x y : float) : (x <? y)%float = true -> (y <? x)%float = false.
Proof.
  intros H. destruct (y <? x)%float eqn:Hyx; [|done].
  apply ltb_leb in Hyx. now rewrite (ltb_not_leb x y H) in Hyx.
Qed.

Lemma ltb_irrefl (x : float) : (x <? x)%float = false.
Proof. destruct (x <? x)%float eqn:H; [|done]. now rewrite (ltb_asym x x H) in H. Qed.

Lemma eqb_refl (x : float) : is_nan x = false -> (x =? x)%float = true.
Proof. unfold is_nan. now intros ->%negb_false_iff. Qed.

(** Of two numbers with different values in the order of sorting, the first
    is below the second, unless the second is NaN. *)
Lemma sorted_distinct (a b : float) :
  sort_lt b a = false -> (a =? b)%float = false ->
  (a <? b)%float = true ∨ is_nan b = true.
Proof.
  unfold is_nan. rewrite sort_lt_spec, !FloatAxioms.eqb_spec, FloatAxioms.ltb_spec.
  intros H1 H2. destruct (sf_sorted_distinct _ _ H1 H2) as [->| ->]; auto.
Qed.

End OrderFacts.

(** ** Interpolation at a sample *)

Module InterpMore.

Import F64Facts OrderFacts MedianFacts LibFacts Order.


Lemma interp_scan_above (x : float) (rest : list float) (i : nat) :
  Forall (fun p => (x <? p)%float = true) rest -> interp_scan x rest i = i.
Proof.
  destruct rest as [|p rest]; simpl; [done|].
  intros [Hp _]%Forall_cons. now rewrite (ltb_not_leb x p Hp).
Qed.

Lemma interp_scan_at (x : float) (rest : list float) :
  increasing rest -> ∀ k i, rest !! k = Some x -> is_nan x = false ->
  interp_scan x rest i = i + S k.
Proof.
  induction 1 as [|p rest Hs IH Hp]; intros k i Hk Hx; [now rewrite lookup_nil in Hk|].
  destruct k as [|k]; simpl in *.
  - injection Hk as ->. rewrite (leb_refl x Hx).
    rewrite (interp_scan_above x rest (S i) Hp). lia.
  - rewrite Forall_forall in Hp.
    rewrite (ltb_leb p x) by (apply Hp; now apply list_elem_of_lookup_2 in Hk).
    rewrite (IH k (S i) Hk Hx). lia.
Qed.

(** X8.  At a separation that is one of the samples of an increasing raw
    curve, [np.interp] returns the contrast of that sample, without rounding:
    an injection at a sampled separation is made at five times the raw
    contrast measured there. *)
Theorem interp_at_a_sample (xp fp : list float) (j : nat) (x y : float) :
  increasing xp -> length xp = length fp ->
  xp !! j = Some x -> fp !! j = Some y ->
  interp1 xp fp x = y ∧ np_interp [x] xp fp = inr [y].
Proof.
  intros Hs Hl Hx Hy.
  assert (H1 : interp1 xp fp x = y).
  { unfold interp1. destruct xp as [|p0 [|p1 rest]]; [now rewrite lookup_nil in Hx| |].
    { destruct j as [|j]; [|now rewrite lookup_cons, lookup_nil in Hx].
      destruct fp as [|f0 fp]; [done|]. simpl in *. congruence. }
    set (xp := p0 :: p1 :: rest) in *.
    assert (Hrel : ∀ i k a b, i < k -> xp !! i = Some a -> xp !! k = Some b ->
              (a <? b)%float = true).
    { intros i k a b Hik Ha Hb.
      exact (StronglySorted_lookup _ xp i k a b Hs Hik Ha Hb). }
    assert (Hnan : is_nan x = false).
    { destruct j as [|j].
      - apply (ltb_not_nan x p1), (Hrel 0 1); [lia | done | done].
      - apply (ltb_not_nan p0 x), (Hrel 0 (S j)); [lia | done | done]. }
    rewrite Hnan. unfold interp_index. subst xp. cbv iota.
    set (xp := p0 :: p1 :: rest) in *.
    assert (Hj : j < length xp) by now apply lookup_lt_Some in Hx.
    destruct (last xp) as [pl|] eqn:Hlast; [|now apply last_None in Hlast].
    simpl default.
    assert (Hpl : (pl <? x)%float = false).
    { rewrite last_lookup in Hlast.
      destruct (decide (j = pred (length xp))) as [->|Hne].
      - rewrite Hx in Hlast. injection Hlast as ->. apply ltb_irrefl.
      - apply ltb_asym, (Hrel j (pred (length xp))); [lia | done | done]. }
    rewrite Hpl.
    assert (Hp0 : (x <? p0)%float = false).
    { destruct j as [|j].
      - injection Hx as ->. apply ltb_irrefl.
      - apply ltb_asym, (Hrel 0 (S j)); [lia | done | done]. }
    rewrite Hp0.
    assert (Hscan : interp_scan x (p1 :: rest) 0 = j).
    { apply StronglySorted_inv in Hs as [Hs Hp].
      destruct j as [|j].
      - injection Hx as ->. now apply interp_scan_above.
      - simpl in Hx. now rewrite (interp_scan_at x (p1 :: rest) Hs j 0 Hx Hnan). }
    rewrite Hscan.
    rewrite (proj2 (Nat.leb_gt _ _)) by lia.
    rewrite Hx, Hy. simpl default.
    destruct (S j =? length xp)%nat; [done|].
    now rewrite (eqb_refl x Hnan). }
  split; [done|].
  rewrite np_interp_ok; [simpl; now rewrite H1 | | done].
  intros ->. now rewrite lookup_nil in Hx.
Qed.

(** A raw curve sampled at 1, 2 and 4 arcsec: at 2 arcsec the interpolation
    returns the contrast 0.25 of the second sample. *)
Lemma interp_at_a_sample_witness :
  np_interp [2]%float [1; 2; 4]%float [0.5; 0.25; 0.125]%float = inr [0.25]%float.
Proof.
  destruct (interp_at_a_sample [1; 2; 4]%float [0.5; 0.25; 0.125]%float 1
              2%float 0.25%float) as [_ H];
    [repeat constructor | reflexivity | reflexivity | reflexivity | exact H].
Defined.

End InterpMore.

(** ** The medians of the aggregation *)

Module AggregateMore.

Import Cal F64Facts OrderFacts SortFacts MedianFacts.


Lemma sorted_concat_apart {A : Type} (R : A -> A -> Prop) (gs : list (list A)) :
  StronglySorted R (concat gs) ->
  ForallOrdPairs (fun g1 g2 => ∀ a b, a ∈ g1 -> b ∈ g2 -> R a b) gs.
Proof.
  induction gs as [|g gs IH]; simpl; intros Hs; [constructor|].
  constructor.
  - apply Forall_forall. intros g2 Hg2 a b Ha Hb.
    assert (Hb' : b ∈ concat gs) by now apply (elem_of_concat b g2).
    clear IH. induction g as [|c g IHg]; [now apply elem_of_nil in Ha|].
    simpl in Hs. apply StronglySorted_inv in Hs as [Hs Hc].
    apply elem_of_cons in Ha as [->|Ha]; [|now apply IHg].
    rewrite Forall_forall in Hc. apply Hc, elem_of_app. now right.
  - apply IH. clear IH. induction g as [|c g IHg]; [done|].
    simpl in Hs. apply StronglySorted_inv in Hs as [Hs _]. now apply IHg.
Qed.

(** X9.  The rows of [med_res] come in increasing order of separation, each
    separation once (rows whose separation is NaN come last, one for each such
    trial); each of these separations is the separation of a trial, and
    there are no more rows than trials.  The fit of the throughput is given
    the separations in this order. *)
Theorem med_res_is_sorted (res : list trial) :
  let ms := med_seps <$> med_res res in
  StronglySorted (fun a b : float => (a <? b)%float = true ∨ is_nan b = true) ms
  ∧ Forall (fun m => ∃ t, t ∈ res ∧ m = seps t) ms
  ∧ length ms <= length res.
Proof.
  intros ms. unfold ms, med_res, group_by.
  set (sorted := sort_by seps res).
  assert (Hperm : sorted ≡ₚ res) by apply sort_by_perm.
  assert (Hsorted : StronglySorted (sort_le seps) sorted) by apply sort_by_sorted.
  pose proof (runs_concat seps sorted) as Hcat.
  pose proof (runs_nonempty seps sorted) as Hne.
  pose proof (runs_other_key seps sorted Hsorted) as Hother.
  assert (Hord : ForallOrdPairs (fun g1 g2 => ∀ a b, a ∈ g1 -> b ∈ g2 -> sort_le seps a b)
                   (runs seps sorted)).
  { apply sorted_concat_apart. now rewrite Hcat. }
  assert (Hin : ∀ g t, g ∈ runs seps sorted -> t ∈ g -> t ∈ res).
  { intros g t Hg Ht. rewrite <- Hperm, <- Hcat. now apply (elem_of_concat t g). }
  assert (Hlen : length (runs seps sorted) <= length res).
  { rewrite <- (Permutation_length Hperm).
    replace (length sorted) with (length (concat (runs seps sorted))) by now rewrite Hcat.
    clear -Hne. induction Hne as [|g gs Hg _ IH]; simpl; [lia|].
    rewrite length_app. destruct g; [done|]. simpl. lia. }
  rewrite <- list_fmap_compose.
  split; [|split].
  - clear Hcat Hperm Hsorted Hin Hlen.
    induction (runs seps sorted) as [|g gs IH]; simpl; [constructor|].
    inversion Hother as [|? ? Hog Hogs]; subst.
    inversion Hord as [|? ? Hrg Hrgs]; subst.
    apply Forall_cons in Hne as [Hg Hne].
    constructor; [now apply IH|].
    rewrite Forall_fmap, Forall_forall. intros g2 Hg2. simpl.
    rewrite Forall_forall in Hog, Hrg, Hne.
    destruct g as [|t1 g]; [done|].
    pose proof (Hne g2 Hg2) as Hg2ne. destruct g2 as [|t2 g2]; [done|]. simpl.
    apply sorted_distinct.
    + apply (Hrg _ Hg2); apply list_elem_of_here.
    + apply (Hog _ Hg2); apply list_elem_of_here.
  - rewrite Forall_fmap, Forall_forall. intros g Hg. simpl.
    rewrite Forall_forall in Hne. pose proof (Hne g Hg) as Hgne.
    destruct g as [|t g]; [done|]. simpl. exists t. split; [|done].
    apply (Hin (t :: g)); [done | apply list_elem_of_here].
  - now rewrite length_fmap.
Qed.

End AggregateMore.

(** ** Parsing the key *)

Module KeyNameFacts.

Import KeyName.

Lemma length_append (a b : string) :
  String.length (a +:+ b) = String.length a + String.length b.
Proof. induction a as [|c a IH]; simpl; [done|]. now rewrite IH. Qed.

Lemma substring_skip (a s : string) (k n : nat) :
  String.substring (String.length a + k) n (a +:+ s) = String.substring k n s.
Proof. induction a as [|c a IH]; simpl; [done|]. apply IH. Qed.

Lemma substring_prefix (f s : string) :
  String.substring 0 (String.length f) (f +:+ s) = f.
Proof.
  induction f as [|c f IH]; simpl; [now destruct s|]. now rewrite IH.
Qed.

Lemma substring_all (s : string) : String.substring 0 (String.length s) s = s.
Proof. induction s as [|c s IH]; simpl; [done|]. now rewrite IH. Qed.

Lemma finditer_free (c : ascii) (a : string) (i : nat) :
  occurs c a = false -> finditer c a i = [].
Proof.
  revert i. induction a as [|x a IH]; intros i; simpl; [done|].
  intros [-> Ha]%orb_false_iff. now apply IH.
Qed.

Lemma finditer_field (c : ascii) (a s : string) (i : nat) :
  occurs c a = false ->
  finditer c (a +:+ String c s) i
  = (i + String.length a) :: finditer c s (i + String.length a + 1).
Proof.
  revert i. induction a as [|x a IH]; intros i; simpl.
  - intros _. rewrite Ascii.eqb_refl. now rewrite !Nat.add_0_r, Nat.add_1_r.
  - intros [-> Ha]%orb_false_iff. rewrite (IH (S i) Ha). f_equal; [lia | f_equal; lia].
Qed.

(** A string has no [c], or a first one. *)
Lemma occurs_cases (c : ascii) (s : string) :
  occurs c s = false
  ∨ ∃ a s', s = a +:+ String c s' ∧ occurs c a = false.
Proof.
  induction s as [|x s IH]; simpl; [now left|].
  destruct (Ascii.eqb x c) eqn:Hx; simpl.
  - right. apply Ascii.eqb_eq in Hx as ->. now exists EmptyString, s.
  - destruct IH as [IH|(a & s' & -> & Ha)]; [now left|].
    right. exists (String x a), s'. simpl. now rewrite Hx.
Qed.

Lemma substring_field (c : ascii) (a s : string) (k n : nat) :
  String.substring (String.length a + 1 + k) n (a +:+ String c s) = String.substring k n s.
Proof.
  replace (String.length a + 1 + k) with (String.length a + S k) by lia.
  now rewrite substring_skip.
Qed.

Lemma join_key_fields (a b filt c mask subarr : string) :
  join_key a b filt c mask subarr
  = a +:+ String "_" (b +:+ String "_" (filt +:+ String "_"
      (c +:+ String "_" (mask +:+ String "_" subarr)))).
Proof. reflexivity. Qed.

(** The fields of a key of six fields. *)
Lemma parse_join_key (a b filt c mask subarr : string) :
  occurs "_" a = false -> occurs "_" b = false -> occurs "_" filt = false ->
  occurs "_" c = false -> occurs "_" mask = false ->
  parse_key (join_key a b filt c mask subarr) = inr (filt, mask, subarr).
Proof.
  intros Ha Hb Hf Hc Hm. rewrite join_key_fields. unfold parse_key.
  rewrite (finditer_field "_" a _ 0 Ha).
  rewrite (finditer_field "_" b _ _ Hb).
  rewrite (finditer_field "_" filt _ _ Hf).
  rewrite (finditer_field "_" c _ _ Hc).
  rewrite (finditer_field "_" mask _ _ Hm).
  cbn [list_getitem lookup list_lookup]. cbv zeta.
  set (key := a +:+ _).
  set (la := String.length a) in *. set (lb := String.length b) in *.
  set (lf := String.length filt) in *. set (lc := String.length c) in *.
  set (lm := String.length mask) in *.
  assert (Hlen : String.length key
                 = la + 1 + (lb + 1 + (lf + 1 + (lc + 1 + (lm + 1 + String.length subarr))))).
  { unfold key. repeat (rewrite length_append; cbn [String.length]).
    unfold la, lb, lf, lc, lm. lia. }
  f_equal. f_equal; [f_equal|].
  - unfold slice.
    match goal with |- String.substring ?s ?n _ = _ =>
      replace n with lf by lia; replace s with (la + 1 + (lb + 1 + 0)) by lia end.
    unfold key, la, lb, lf. rewrite !substring_field. apply substring_prefix.
  - unfold slice.
    match goal with |- String.substring ?s ?n _ = _ =>
      replace n with lm by lia;
      replace s with (la + 1 + (lb + 1 + (lf + 1 + (lc + 1 + 0)))) by lia end.
    unfold key, la, lb, lf, lc, lm. rewrite !substring_field. apply substring_prefix.
  - unfold slice_from. rewrite Hlen.
    match goal with |- String.substring ?s ?n _ = _ =>
      replace n with (String.length subarr) by lia;
      replace s with (la + 1 + (lb + 1 + (lf + 1 + (lc + 1 + (lm + 1 + 0))))) by lia end.
    unfold key, la, lb, lf, lc, lm. rewrite !substring_field. apply substring_all.
Qed.

(** A key has the five underscores that [parse_key] looks for, or fewer. *)
Lemma key_cases (key : string) :
  (∃ a b filt c mask subarr,
     key = join_key a b filt c mask subarr
     ∧ occurs "_" a = false ∧ occurs "_" b = false ∧ occurs "_" filt = false
     ∧ occurs "_" c = false ∧ occurs "_" mask = false)
  ∨ length (finditer "_" key 0) < 5.
Proof.
  destruct (occurs_cases "_" key) as [H|(a & s1 & -> & Ha)].
  { right. rewrite finditer_free by done. simpl. lia. }
  rewrite (finditer_field "_" a s1 0 Ha).
  destruct (occurs_cases "_" s1) as [H|(b & s2 & -> & Hb)].
  { right. rewrite finditer_free by done. simpl. lia. }
  rewrite (finditer_field "_" b s2 _ Hb).
  destruct (occurs_cases "_" s2) as [H|(f & s3 & -> & Hf)].
  { right. rewrite finditer_free by done. simpl. lia. }
  rewrite (finditer_field "_" f s3 _ Hf).
  destruct (occurs_cases "_" s3) as [H|(c & s4 & -> & Hc)].
  { right. rewrite finditer_free by done. simpl. lia. }
  rewrite (finditer_field "_" c s4 _ Hc).
  destruct (occurs_cases "_" s4) as [H|(m & s5 & -> & Hm)].
  { right. rewrite finditer_free by done. simpl. lia. }
  left. exists a, b, f, c, m, s5. repeat split; done.
Qed.

End KeyNameFacts.

(** ** Properties of the key *)

Module KeyNameSpec.

Import KeyName KeyNameFacts.

(** X10.  The key of an observation is read as six fields separated by
    underscores: when none of the first five fields contains an underscore,
    the filter is the third field, the mask the fifth and the subarray
    everything after the fifth underscore (underscores included). *)
Theorem parse_key_reads_the_fields (a b filt c mask subarr : string) :
  occurs "_" a = false -> occurs "_" b = false -> occurs "_" filt = false ->
  occurs "_" c = false -> occurs "_" mask = false ->
  parse_key (join_key a b filt c mask subarr) = inr (filt, mask, subarr).
Proof. apply parse_join_key. Qed.

Lemma parse_key_reads_the_fields_witness :
  parse_key "JWST_NIRCAM_F356W_MASKRND_MASKA335R_SUB320_A335R"
  = inr ("F356W", "MASKA335R", "SUB320_A335R").
Proof.
  apply (parse_key_reads_the_fields "JWST" "NIRCAM" "F356W" "MASKRND" "MASKA335R"
           "SUB320_A335R"); reflexivity.
Defined.

(** X11.  A key with fewer than five underscores makes the lookup of the
    fields raise [IndexError]; every other key has the six fields, and its
    filter, mask and subarray are returned. *)
Theorem parse_key_needs_five_underscores (key : string) :
  (parse_key key = inl (IndexError "list index out of range")
   ∧ length (finditer "_" key 0) < 5)
  ∨ ∃ a b filt c mask subarr,
      key = join_key a b filt c mask subarr
      ∧ occurs "_" a = false ∧ occurs "_" b = false ∧ occurs "_" filt = false
      ∧ occurs "_" c = false ∧ occurs "_" mask = false
      ∧ parse_key key = inr (filt, mask, subarr).
Proof.
  destruct (key_cases key) as [(a & b & f & c & m & s & -> & Ha & Hb & Hf & Hc & Hm)|Hlt].
  - right. exists a, b, f, c, m, s. repeat split; try done. now apply parse_join_key.
  - left. split; [|done]. unfold parse_key.
    destruct (finditer "_" key 0) as [|t0 [|t1 [|t2 [|t3 [|t4 rest]]]]];
      simpl in *; try done. lia.
Qed.

End KeyNameSpec.

(** ** One pass of [raw_contrast_curve], step by step *)

Module RawFacts.

Import NpFacts Masker MaskerFacts MaskerMore MaskerSpec KeyName CalFacts Raw Masked RawInv.


Lemma bar_masked_shape {lm : Libm} cent H W c ranges :
  shape (bar_masked cent H W c ranges) = shape c.
Proof.
  unfold bar_masked. destruct ranges; [done|]. unfold restore_slice.
  now rewrite shape_foldl_setitem_mask_from.
Qed.

(** Either masker raises and leaves the heap as it is, or returns a new
    array. *)
Lemma mask_companions_cases (h : heap) data pxsc cent mrad ra_off de_off :
  (∃ e, mask_companions data pxsc cent mrad ra_off de_off h = (inl e, h))
  ∨ ∃ out, mask_companions data pxsc cent mrad ra_off de_off h
           = (inr (fresh (dom h)), <[fresh (dom h) := out]> h).
Proof.
  destruct (h !! data) as [a|] eqn:Ha.
  - destruct (decide (length (shape a) = 3)) as [H3|H3].
    + destruct (shape_3d a H3) as (K & H & W & Hs). right. eexists.
      exact (mask_companions_run h data a K H W _ _ _ _ _ Ha Hs).
    + left. eexists. exact (mask_companions_raise h data a _ _ _ _ _ Ha H3).
  - left. exists ReferenceError. unfold mask_companions, Py.bind, deref. now rewrite Ha.
Qed.

Lemma mask_bar_cases {lm : Libm} (h : heap) data cent ranges :
  (∃ e, mask_bar data cent ranges h = (inl e, h))
  ∨ ∃ out, mask_bar data cent ranges h
           = (inr (fresh (dom h)), <[fresh (dom h) := out]> h).
Proof.
  destruct (h !! data) as [a|] eqn:Ha.
  - destruct (decide (length (shape a) = 3)) as [H3|H3].
    + destruct (shape_3d a H3) as (K & H & W & Hs). right. eexists.
      exact (mask_bar_run h data a K H W _ _ Ha Hs).
    + left. eexists. exact (mask_bar_raise h data a _ _ Ha H3).
  - left. exists ReferenceError. unfold mask_bar, Py.bind, deref. now rewrite Ha.
Qed.


Lemma extends_fresh (h : heap) (out : ndarray) : extends h (<[fresh (dom h) := out]> h).
Proof.
  intros l b Hl. rewrite lookup_insert_ne; [done|]. now apply (fresh_ne h l b).
Qed.

Section Pass.
Context {lm : Libm}.
Variable p : params.
Variable lib : library.

Lemma masked_extends (o : observation) (mask : string) (fwhm : float) (h h' : heap) r :
  masked p o mask fwhm h = (r, h') -> extends h h'.
Proof.
  unfold masked. intros Hrun.
  destruct (mask_companions_cases h (data o) (pxsc o) (cent o) (12 * fwhm)%float
              (ra_off p) (de_off p)) as [[e He]|[out Hout]].
  - rewrite (bind_inl _ _ h e h He) in Hrun. injection Hrun as <- <-. now intros l b.
  - rewrite (bind_inr _ _ h _ _ Hout) in Hrun.
    set (h1 := <[fresh (dom h) := out]> h) in *.
    assert (H1 : extends h h1) by apply extends_fresh.
    destruct (is_bar mask).
    + destruct (mask_bar_cases h1 (fresh (dom h)) (cent o) (pa_ranges_bar p))
        as [[e He]|[out2 Hout2]]; rewrite ?He, ?Hout2 in Hrun; injection Hrun as <- <-.
      * done.
      * intros l b Hl. apply extends_fresh. now apply H1.
    + injection Hrun as <- <-. done.
Qed.

(** Lines 84-86 on a cube. *)
Lemma masked_run (o : observation) (mask : string) (fwhm : float) (h : heap) a K H W :
  h !! data o = Some a -> shape a = [K; H; W] ->
  let c := companions_masked (pxsc o) (cent o) (12 * fwhm)%float H W a
             (zip (ra_off p) (de_off p)) in
  let h1 := <[fresh (dom h) := c]> h in
  masked p o mask fwhm h
  = if is_bar mask
    then (inr (fresh (dom h1)),
          <[fresh (dom h1) := bar_masked (cent o) H W c (pa_ranges_bar p)]> h1)
    else (inr (fresh (dom h)), h1).
Proof.
  intros Ha Hs c h1. unfold masked.
  rewrite (bind_inr _ _ h _ _ (mask_companions_masked h (data o) a K H W _ _ _ _ _ Ha Hs)).
  fold c h1. destruct (is_bar mask); [|done].
  apply (mask_bar_run h1 _ c K H W).
  - apply lookup_insert_eq.
  - unfold c. now rewrite companions_masked_shape.
Qed.

Lemma on_arrays_run {A : Type} (m : M heap A) (st : state) r h :
  m (arrays st) = (r, h) -> on_arrays m st = (r, State h (files st)).
Proof. intros Hm. unfold on_arrays. now rewrite Hm. Qed.

Lemma state_eta (st : state) : State (arrays st) (files st) = st.
Proof. now destruct st. Qed.

Lemma last_frame_cube (a : ndarray) K H W :
  shape a = [K; H; W] -> K ≠ 0 -> last_frame a = inr (frame a H W (K - 1)).
Proof.
  intros Hs HK. unfold last_frame. rewrite Hs.
  now rewrite (proj2 (Nat.eqb_neq K 0) HK).
Qed.

Lemma last_frame_empty (a : ndarray) H W :
  shape a = [0; H; W] ->
  last_frame a = inl (IndexError "index -1 is out of bounds for axis 0 with size 0").
Proof. intros Hs. unfold last_frame. now rewrite Hs. Qed.


(** What a pass does once the cube is masked: the state it leaves holds the
    arrays of the masking, and the two files when it returns. *)
Lemma pass_steps (odir : string) (o : observation) (st st' : state) r :
  pass p lib odir o st = (r, st') ->
  (∃ e, parse_key (key o) = inl e ∧ r = inl e ∧ st' = st)
  ∨ ∃ filt mask subarr,
      parse_key (key o) = inr (filt, mask, subarr)
      ∧ let fwhm := (wave p filt / diam p * Cal.rad2mas / pxsc o)%float in
        ∃ rm hm,
          masked p o mask fwhm (arrays st) = (rm, hm)
          ∧ arrays st' = hm
          ∧ ((∃ e, r = inl e ∧ files st' = files st)
             ∨ ∃ l seps cons,
                 rm = inr l
                 ∧ r = inr (Outcome l seps cons)
                 ∧ length seps = length cons
                 ∧ files st'
                   = <[cons_path odir o := Cal.Arr2 cons]>
                       (<[seps_path odir o := Cal.Arr2 seps]> (files st))).
Proof.
  unfold pass. intros Hrun.
  destruct (parse_key (key o)) as [e|[[filt mask] subarr]] eqn:Hkey.
  { rewrite (bind_inl _ _ st e st) in Hrun by apply lift_run.
    injection Hrun as <- <-. left. now exists e. }
  rewrite (bind_inr _ _ st _ st) in Hrun by apply lift_run.
  cbv beta iota zeta in Hrun.
  right. exists filt, mask, subarr. split; [done|]. cbv zeta.
  set (fwhm := (wave p filt / diam p * Cal.rad2mas / pxsc o)%float) in *.
  destruct (masked p o mask fwhm (arrays st)) as [rm hm] eqn:Hm.
  exists rm, hm. split; [done|].
  pose proof (on_arrays_run _ st rm hm Hm) as Hon.
  set (s1 := State hm (files st)) in *.
  destruct rm as [e|l].
  { rewrite (bind_inl _ _ st e s1 Hon) in Hrun. injection Hrun as <- <-.
    split; [done|]. left. now exists e. }
  rewrite (bind_inr _ _ st l s1 Hon) in Hrun.
  assert (Hstay : ∀ {A B : Type} (m : M heap A) (k : A -> M state B) r',
            (m hm).2 = hm ->
            Py.bind (on_arrays m) k s1 = (r', st') ->
            (∃ e, (m hm).1 = inl e ∧ r' = inl e ∧ st' = s1)
            ∨ ∃ x, (m hm).1 = inr x ∧ k x s1 = (r', st')).
  { intros A B m k r' Hh Hb. unfold Py.bind, on_arrays in Hb. simpl in Hb.
    destruct (m hm) as [[e|x] h2]; simpl in Hh; subst h2.
    - injection Hb as <- <-. left. now exists e.
    - right. now exists x. }
  assert (Hderef : ∀ l', (deref l' hm).2 = hm).
  { intros l'. unfold deref. now destruct (hm !! l'). }
  apply Hstay in Hrun; [|apply Hderef].
  destruct Hrun as [(e & _ & -> & ->)|(a & _ & Hrun)].
  { split; [done|]. left. now exists e. }
  destruct (last_frame a) as [e|fa].
  { rewrite (bind_inl _ _ s1 e s1) in Hrun by apply lift_run.
    injection Hrun as <- <-. split; [done|]. left. now exists e. }
  rewrite (bind_inr _ _ s1 _ s1) in Hrun by apply lift_run.
  apply Hstay in Hrun; [|apply Hderef].
  destruct Hrun as [(e & _ & -> & ->)|(m & _ & Hrun)].
  { split; [done|]. left. now exists e. }
  destruct (last_frame m) as [e|fm].
  { rewrite (bind_inl _ _ s1 e s1) in Hrun by apply lift_run.
    injection Hrun as <- <-. split; [done|]. left. now exists e. }
  rewrite (bind_inr _ _ s1 _ s1) in Hrun by apply lift_run.
  destruct (np_max (get_offsetpsf lib filt mask (key o))) as [e|peak].
  { rewrite (bind_inl _ _ s1 e s1) in Hrun by apply lift_run.
    injection Hrun as <- <-. split; [done|]. left. now exists e. }
  rewrite (bind_inr _ _ s1 _ s1) in Hrun by apply lift_run.
  cbv zeta in Hrun.
  destruct (shape (elementwise _ m)) as [|K [|H [|W rest]]].
  1-3: injection Hrun as <- <-; split; [done|]; left; now eexists.
  set (curves := curve p lib o fwhm _ _ H W <$> seq 0 K) in *.
  destruct (np_array (fst <$> curves)) as [e|seps] eqn:Hseps.
  { rewrite (bind_inl _ _ s1 e s1) in Hrun by apply lift_run.
    injection Hrun as <- <-. split; [done|]. left. now exists e. }
  rewrite (bind_inr _ _ s1 _ s1) in Hrun by apply lift_run.
  destruct (np_array (snd <$> curves)) as [e|cons] eqn:Hcons.
  { rewrite (bind_inl _ _ s1 e s1) in Hrun by apply lift_run.
    injection Hrun as <- <-. split; [done|]. left. now exists e. }
  rewrite (bind_inr _ _ s1 _ s1) in Hrun by apply lift_run.
  unfold Py.bind, np_save, ret in Hrun. simpl in Hrun. injection Hrun as <- <-.
  split; [done|]. right. exists l, (fst <$> curves), (snd <$> curves).
  split; [done|]. split; [done|]. split; [now rewrite !length_fmap|].
  assert (Harr : ∀ rows x, np_array rows = inr x -> x = Cal.Arr2 rows).
  { intros [|r0 rows] x; simpl; [now intros [= <-]|].
    destruct (forallb _ rows); [now intros [= <-] | discriminate]. }
  apply Harr in Hseps as ->. apply Harr in Hcons as ->. reflexivity.
Qed.

(** Rows of one length make a 2-D array. *)
Lemma np_array_rows (rows : list (list float)) (n : nat) :
  Forall (fun r => length r = n) rows -> np_array rows = inr (Cal.Arr2 rows).
Proof.
  destruct rows as [|r0 rows]; simpl; [done|].
  intros [H0 Hrows]%Forall_cons.
  assert (Hall : forallb (fun r' => (length r' =? length r0)%nat) rows = true).
  { apply forallb_forall. intros r Hr%list_elem_of_In. rewrite Forall_forall in Hrows.
    apply Nat.eqb_eq. rewrite H0. now apply Hrows. }
  now rewrite Hall.
Qed.

(** A pass on a cube with at least one frame, when the offset PSF is not
    empty and the curves of the frames have one length. *)
Lemma raw_pass_run (odir : string) (o : observation) (st : state) a K H W
    filt mask subarr l hm m peak n :
  parse_key (key o) = inr (filt, mask, subarr) ->
  let fwhm := (wave p filt / diam p * Cal.rad2mas / pxsc o)%float in
  masked p o mask fwhm (arrays st) = (inr l, hm) ->
  hm !! data o = Some a -> hm !! l = Some m ->
  shape a = [K; H; W] -> shape m = [K; H; W] -> K ≠ 0 ->
  np_max (get_offsetpsf lib filt mask (key o)) = inr peak ->
  let Fstar := (F0 p filt / pow 10 (mstar p filt / 2.5) / 1e6 * peak)%float in
  let Fdata := elementwise (fun v => v * pow (pxsc o) 2 / pow Cal.rad2mas 2)%float m in
  let curves := curve p lib o fwhm Fstar Fdata H W <$> seq 0 K in
  Forall (fun c : list float * list float => length c.1 = n ∧ length c.2 = n) curves ->
  pass p lib odir o st
  = (inr (Outcome l (fst <$> curves) (snd <$> curves)),
     State hm (<[cons_path odir o := Cal.Arr2 (snd <$> curves)]>
                 (<[seps_path odir o := Cal.Arr2 (fst <$> curves)]> (files st)))).
Proof.
  intros Hkey fwhm Hm Ha Hl Hsa Hsm HK Hpeak Fstar Fdata curves Hn. unfold pass.
  rewrite (bind_inr _ _ st _ st) by now rewrite lift_run, Hkey.
  cbv beta iota zeta. fold fwhm.
  rewrite (bind_inr _ _ st l _ (on_arrays_run _ st _ hm Hm)).
  set (s1 := State hm (files st)).
  rewrite (bind_inr _ _ s1 a s1).
  2:{ unfold on_arrays. simpl. now rewrite (deref_live hm _ a Ha). }
  rewrite (bind_inr _ _ s1 _ s1) by now rewrite lift_run, (last_frame_cube a K H W).
  rewrite (bind_inr _ _ s1 m s1).
  2:{ unfold on_arrays. simpl. now rewrite (deref_live hm _ m Hl). }
  rewrite (bind_inr _ _ s1 _ s1) by now rewrite lift_run, (last_frame_cube m K H W).
  rewrite (bind_inr _ _ s1 peak s1) by now rewrite lift_run, Hpeak.
  fold Fstar Fdata. unfold Fdata at 1. cbn [elementwise shape]. rewrite Hsm.
  fold Fdata curves.
  rewrite (bind_inr _ _ s1 (Cal.Arr2 (fst <$> curves)) s1).
  2:{ rewrite lift_run. f_equal. apply (np_array_rows _ n).
      rewrite Forall_fmap. eapply Forall_impl; [exact Hn|]. now intros c [? _]. }
  rewrite (bind_inr _ _ s1 (Cal.Arr2 (snd <$> curves)) s1).
  2:{ rewrite lift_run. f_equal. apply (np_array_rows _ n).
      rewrite Forall_fmap. eapply Forall_impl; [exact Hn|]. now intros c [_ ?]. }
  reflexivity.
Qed.

End Pass.

End RawFacts.

(** ** Properties of the raw contrast curve *)

Module RawSpec.

Import NpFacts Masker MaskerFacts MaskerMore KeyName CalFacts Raw RawFacts Masked RawInv.

Section Pass.
Context {lm : Libm}.
Variable p : params.
Variable lib : library.

(** X12.  A pass of [raw_contrast_curve] masks the known companions within
    twelve FWHM and then, for the two bar masks only, the bar, in the array
    that the companions were masked in: a pixel of the cube whose contrast is
    measured holds its value when it is far from every companion and, for a
    bar mask with ranges, in one of the ranges, and NaN otherwise.  The cube
    read from the file is left as it is, and the masked cube is a new
    array. *)
Theorem pass_masks_companions_then_bar (odir : string) (o : observation)
    (st st' : state) (out : outcome) a K H W filt mask subarr :
  parse_key (key o) = inr (filt, mask, subarr) ->
  arrays st !! data o = Some a -> shape a = [K; H; W] ->
  pass p lib odir o st = (inr out, st') ->
  let mrad := (12 * (wave p filt / diam p * Cal.rad2mas / pxsc o))%float in
  arrays st' !! data o = Some a
  ∧ arrays st !! out_masked out = None
  ∧ ∃ m, arrays st' !! out_masked out = Some m
         ∧ shape m = shape a
         ∧ ∀ f y x v, pixel a f y x = Some v ->
             pixel m f y x
             = Some (if existsb (fun src : float * float =>
                                   (companion_dist (pxsc o) (cent o) src.1 src.2 x y
                                    <=? mrad)%float) (zip (ra_off p) (de_off p))
                     then nan
                     else if is_bar mask then
                       match pa_ranges_bar p with
                       | [] => v
                       | _ :: _ =>
                           if existsb (fun r : float * float =>
                                         (r.1 <=? position_angle (cent o) x y)%float
                                         && (position_angle (cent o) x y <=? r.2)%float)
                                (pa_ranges_bar p)
                           then v else nan
                       end
                     else v).
Proof.
  intros Hkey Ha Hs Hrun mrad.
  destruct (pass_steps p lib odir o st st' _ Hrun)
    as [(e & He & _)|(filt' & mask' & subarr' & Hkey' & Hrest)]; [congruence|].
  rewrite Hkey in Hkey'. injection Hkey' as <- <- <-. cbv zeta in Hrest.
  destruct Hrest as (rm & hm & Hm & Harr & [(e & He & _)|(l & se & co & -> & Hout & _)]);
    [discriminate|].
  injection Hout as ->. cbn [out_masked].
  rewrite (masked_run p o mask _ (arrays st) a K H W Ha Hs) in Hm.
  set (c := companions_masked (pxsc o) (cent o) mrad H W a (zip (ra_off p) (de_off p))) in *.
  set (h := arrays st) in *. set (h1 := <[fresh (dom h) := c]> h) in *.
  assert (Hc : ∀ f y x v, pixel a f y x = Some v ->
            pixel c f y x
            = Some (if existsb (fun src : float * float =>
                                  (companion_dist (pxsc o) (cent o) src.1 src.2 x y
                                   <=? mrad)%float) (zip (ra_off p) (de_off p))
                    then nan else v)).
  { intros f y x v Hp.
    destruct (pixel_Some a f y x v Hp) as (K' & H' & W' & Hs' & Hf & Hy & Hx & Hv).
    rewrite Hs in Hs'. injection Hs' as <- <- <-.
    rewrite (pixel_lookup c K H W f y x)
      by (unfold c; rewrite ?companions_masked_shape; done).
    unfold c, companions_masked. rewrite mask_companions_buffer by done.
    now rewrite Hv. }
  assert (Hsc : shape c = [K; H; W]) by (unfold c; now rewrite companions_masked_shape).
  assert (Hd1 : h1 !! data o = Some a).
  { unfold h1. rewrite lookup_insert_ne; [done|]. now apply (fresh_ne h _ a). }
  destruct (is_bar mask); injection Hm as <- <-; rewrite Harr.
  - set (l2 := fresh (dom h1)).
    assert (Hl2 : h1 !! l2 = None) by apply fresh_unbound.
    split; [rewrite lookup_insert_ne; [done|]; now apply (fresh_ne h1 _ a)|].
    split.
    { unfold h1 in Hl2. apply lookup_insert_None in Hl2 as [Hl2 _]. exact Hl2. }
    exists (bar_masked (cent o) H W c (pa_ranges_bar p)).
    split; [apply lookup_insert_eq|]. split; [now rewrite bar_masked_shape, Hsc|].
    intros f y x v Hp. specialize (Hc f y x v Hp).
    destruct (pixel_Some a f y x v Hp) as (K' & H' & W' & Hs' & Hf & Hy & Hx & Hv).
    rewrite Hs in Hs'. injection Hs' as <- <- <-.
    rewrite (pixel_lookup c K H W f y x) in Hc by done.
    rewrite (pixel_lookup _ K H W f y x) by (rewrite ?bar_masked_shape; done).
    unfold bar_masked. rewrite mask_bar_buffer by done. rewrite Hc. simpl.
    destruct (existsb _ (zip _ _)); [|done].
    destruct (pa_ranges_bar p); [done|]. now destruct (existsb _ _).
  - split; [done|]. split; [apply fresh_unbound|].
    exists c. split; [apply lookup_insert_eq|]. split; [now rewrite Hsc|].
    intros f y x v Hp. rewrite (Hc f y x v Hp). now destruct (existsb _ _).
Qed.

(** X13.  What a pass of [raw_contrast_curve] saves is what a pass of
    [cal_contrast_curve] loads: on a cube of [K >= 1] frames, with an offset
    PSF that is not empty and a routine that finds curves of one length [n],
    the pass returns, the two files hold one curve per frame (the
    separations in arcsec), and [np.load(...)[KL]] of either file returns the
    curve of frame [KL] for [0 <= KL < K] and of frame [K + KL] for
    [-K <= KL < 0], the default [KL = -1] that of the last frame; the
    separations and the contrasts it returns have the same length. *)
Theorem raw_curves_are_loaded (odir : string) (o : observation) (st : state)
    a K H W filt mask subarr (n : nat) :
  parse_key (key o) = inr (filt, mask, subarr) ->
  arrays st !! data o = Some a -> shape a = [K; H; W] -> K ≠ 0 ->
  get_offsetpsf lib filt mask (key o) ≠ [] ->
  (∀ dat i1 i2 res c,
     length (meas_contrast lib dat i1 i2 res c).1 = n
     ∧ length (meas_contrast lib dat i1 i2 res c).2 = n) ->
  ∃ out st',
    pass p lib odir o st = (inr out, st')
    ∧ length (out_seps out) = K ∧ length (out_cons out) = K
    ∧ ∀ (KL : Z) (tr : list Cal.event),
        (- Z.of_nat K <= KL < Z.of_nat K)%Z ->
        ∃ seps cons,
          out_seps out !! Z.to_nat (KL mod Z.of_nat K) = Some seps
          ∧ out_cons out !! Z.to_nat (KL mod Z.of_nat K) = Some cons
          ∧ length seps = n ∧ length cons = n
          ∧ Cal.load_row (odir +:+ key o +:+ "-seps.npy") KL (Cal.State (files st') tr)
            = (inr seps, Cal.State (files st') tr)
          ∧ Cal.load_row (odir +:+ key o +:+ "-cons.npy") KL (Cal.State (files st') tr)
            = (inr cons, Cal.State (files st') tr).
Proof.
  intros Hkey Ha Hs HK Hpsf Hn.
  set (fwhm := (wave p filt / diam p * Cal.rad2mas / pxsc o)%float).
  destruct (np_max (get_offsetpsf lib filt mask (key o))) as [e|peak] eqn:Hpeak.
  { destruct (get_offsetpsf lib filt mask (key o)); [done | discriminate]. }
  pose proof (masked_run p o mask fwhm (arrays st) a K H W Ha Hs) as Hm.
  cbv zeta in Hm.
  set (c := companions_masked (pxsc o) (cent o) (12 * fwhm) H W a
              (zip (ra_off p) (de_off p))) in *.
  set (h := arrays st) in *. set (h1 := <[fresh (dom h) := c]> h) in *.
  assert (Hsc : shape c = [K; H; W]) by (unfold c; now rewrite companions_masked_shape).
  assert (Hd1 : h1 !! data o = Some a).
  { unfold h1. rewrite lookup_insert_ne; [done|]. now apply (fresh_ne h _ a). }
  assert (Hex : ∃ l hm m, masked p o mask fwhm h = (inr l, hm)
                  ∧ hm !! data o = Some a ∧ hm !! l = Some m ∧ shape m = [K; H; W]).
  { destruct (is_bar mask).
    - eexists _, _, _. split; [exact Hm|]. split; [|split; [apply lookup_insert_eq|]].
      + rewrite lookup_insert_ne; [done|]. now apply (fresh_ne h1 _ a).
      + now rewrite bar_masked_shape.
    - eexists _, _, _. split; [exact Hm|]. split; [done|].
      split; [apply lookup_insert_eq | done]. }
  destruct Hex as (l & hm & m & Hmasked & Hda & Hl & Hsm).
  set (Fstar := (F0 p filt / pow 10 (mstar p filt / 2.5) / 1e6 * peak)%float).
  set (Fdata := elementwise (fun v => v * pow (pxsc o) 2 / pow Cal.rad2mas 2)%float m).
  set (curves := curve p lib o fwhm Fstar Fdata H W <$> seq 0 K).
  assert (Hcurves : Forall (fun c : list float * list float =>
                              length c.1 = n ∧ length c.2 = n) curves).
  { unfold curves. rewrite Forall_fmap. apply Forall_forall. intros i _. simpl.
    unfold curve.
    destruct (Hn (elementwise (fun v => v / Fstar)%float (frame Fdata H W i))
                (iwa p) (owa p) (2 * fwhm)%float (cent o)) as [H1 H2].
    destruct (meas_contrast lib _ _ _ _ _) as [sep con]. simpl in *.
    now rewrite length_fmap. }
  eexists _, _. split.
  { exact (raw_pass_run p lib odir o st a K H W filt mask subarr l hm m peak n
             Hkey Hmasked Hda Hl Hs Hsm HK Hpeak Hcurves). }
  fold fwhm Fstar Fdata curves. cbn [out_seps out_cons files].
  assert (Hlen : length curves = K) by (unfold curves; now rewrite length_fmap, length_seq).
  split; [now rewrite length_fmap|]. split; [now rewrite length_fmap|].
  intros KL tr HKL.
  set (j := Z.to_nat (KL mod Z.of_nat K)).
  assert (Hj : j < K) by (unfold j; pose proof (Z.mod_pos_bound KL (Z.of_nat K)); lia).
  destruct (lookup_lt_is_Some_2 curves j) as [[seps cons] Hc]; [lia|].
  exists seps, cons.
  assert (HF : length seps = n ∧ length cons = n).
  { rewrite Forall_forall in Hcurves. apply (Hcurves (seps, cons)).
    now apply list_elem_of_lookup_2 in Hc. }
  split; [now rewrite list_lookup_fmap, Hc|].
  split; [now rewrite list_lookup_fmap, Hc|].
  split; [apply HF|]. split; [apply HF|].
  assert (Hget : ∀ (rows : list (list float)) row,
            length rows = K -> rows !! j = Some row -> getitem rows KL = inr row).
  { intros rows row Hrows Hrow. unfold getitem. rewrite Hrows.
    destruct (KL <? 0)%Z eqn:Hneg.
    - apply Z.ltb_lt in Hneg.
      assert (Hjj : Z.to_nat (KL + Z.of_nat K) = j).
      { unfold j. f_equal. apply Z.mod_unique_pos with (q := (-1)%Z); lia. }
      rewrite (proj2 (Z.leb_le _ _)) by lia. rewrite (proj2 (Z.ltb_lt _ _)) by lia.
      simpl. now rewrite Hjj, Hrow.
    - apply Z.ltb_ge in Hneg.
      assert (Hjj : Z.to_nat KL = j).
      { unfold j. f_equal. symmetry. apply Z.mod_small. lia. }
      rewrite (proj2 (Z.leb_le _ _)) by lia. rewrite (proj2 (Z.ltb_lt _ _)) by lia.
      simpl. now rewrite Hjj, Hrow. }
  assert (Hne : seps_path odir o ≠ cons_path odir o).
  { unfold seps_path, cons_path. intros Heq.
    apply append_inj_r, append_inj_r in Heq. discriminate. }
  set (cs := Cal.State _ tr).
  split.
  - unfold Cal.load_row.
    rewrite (bind_inr _ _ cs (Cal.Arr2 (fst <$> curves)) cs).
    + rewrite lift_run. f_equal. apply Hget; [now rewrite length_fmap|].
      now rewrite list_lookup_fmap, Hc.
    + apply np_load_hit. unfold cs. cbn [Cal.files].
      rewrite lookup_insert_ne by (intros Heq; now apply Hne).
      apply lookup_insert_eq.
  - unfold Cal.load_row.
    rewrite (bind_inr _ _ cs (Cal.Arr2 (snd <$> curves)) cs).
    + rewrite lift_run. f_equal. apply Hget; [now rewrite length_fmap|].
      now rewrite list_lookup_fmap, Hc.
    + apply np_load_hit. unfold cs. cbn [Cal.files]. apply lookup_insert_eq.
Qed.


(** X15.  A pass of [raw_contrast_curve] raises, before anything is
    allocated or written, [IndexError] when the key of the observation has
    fewer than five underscores and [UserWarning('Data has invalid shape')]
    when the data are not a cube; on a cube without frames it raises
    [IndexError] at the frame [data[-1]] of the first plot, after the masking
    but before the contrast is measured, and writes no file. *)
Theorem pass_refuses_bad_input (odir : string) (o : observation) (st : state) :
  (length (finditer "_" (key o) 0) < 5 ->
   pass p lib odir o st = (inl (IndexError "list index out of range"), st))
  ∧ (∀ filt mask subarr a,
       parse_key (key o) = inr (filt, mask, subarr) ->
       arrays st !! data o = Some a -> length (shape a) ≠ 3 ->
       pass p lib odir o st = (inl (UserWarning "Data has invalid shape"), st))
  ∧ (∀ filt mask subarr a H W,
       parse_key (key o) = inr (filt, mask, subarr) ->
       arrays st !! data o = Some a -> shape a = [0; H; W] ->
       ∃ st', pass p lib odir o st
              = (inl (IndexError "index -1 is out of bounds for axis 0 with size 0"), st')
              ∧ files st' = files st).
Proof.
  split; [|split].
  - intros Hlt. unfold pass.
    rewrite (bind_inl _ _ st (IndexError "list index out of range") st); [done|].
    rewrite lift_run. f_equal. unfold parse_key.
    destruct (finditer "_" (key o) 0) as [|t0 [|t1 [|t2 [|t3 [|t4 rest]]]]];
      simpl in *; try done. lia.
  - intros filt mask subarr a Hkey Ha Hn. unfold pass.
    rewrite (bind_inr _ _ st _ st) by now rewrite lift_run, Hkey.
    cbv beta iota zeta.
    rewrite (bind_inl _ _ st (UserWarning "Data has invalid shape") st); [done|].
    rewrite <- (state_eta st) at 2. apply on_arrays_run. unfold masked.
    now rewrite (bind_inl _ _ _ _ _
                   (MaskerSpec.mask_companions_raise (arrays st) (data o) a _ _ _ _ _ Ha Hn)).
  - intros filt mask subarr a H W Hkey Ha Hs.
    set (fwhm := (wave p filt / diam p * Cal.rad2mas / pxsc o)%float).
    destruct (masked p o mask fwhm (arrays st)) as [rm hm] eqn:Hm.
    pose proof (masked_extends p o mask fwhm _ _ _ Hm) as Hext.
    pose proof (masked_run p o mask fwhm (arrays st) a 0 H W Ha Hs) as Hrun.
    cbv zeta in Hrun. rewrite Hm in Hrun.
    assert (Hl : ∃ l, rm = inr l).
    { destruct (is_bar mask); injection Hrun as -> _; now eexists. }
    destruct Hl as [l ->].
    exists (State hm (files st)). split; [|done]. unfold pass.
    rewrite (bind_inr _ _ st _ st) by now rewrite lift_run, Hkey.
    cbv beta iota zeta. fold fwhm.
    rewrite (bind_inr _ _ st l _ (on_arrays_run _ st _ hm Hm)).
    set (s1 := State hm (files st)).
    rewrite (bind_inr _ _ s1 a s1).
    2:{ unfold on_arrays. simpl. now rewrite (deref_live hm _ a (Hext _ _ Ha)). }
    rewrite (bind_inl _ _ s1
               (IndexError "index -1 is out of bounds for axis 0 with size 0") s1);
      [done|].
    now rewrite lift_run, (last_frame_empty a H W Hs).
Qed.

End Pass.

(** On the 3 x 3 frame with its centre in the middle: the pixel where the
    companion is becomes NaN with both masks; the centre is kept with the
    round mask, and the pixel to the right of the centre, at 270 degrees,
    is kept with the round mask and NaN with the bar mask. *)
Lemma pass_masks_companions_then_bar_witness :
  (∃ m, arrays (pass (lm := Sample.libm) RawSample.params RawSample.lib "out/"
                  RawSample.round (RawSample.memory Sample.frame3)).2 !! 2%positive
        = Some m
        ∧ pixel m 0 2 0 = Some nan ∧ pixel m 0 1 1 = Some 5%float
        ∧ pixel m 0 1 2 = Some 6%float)
  ∧ ∃ m, arrays (pass (lm := Sample.libm) RawSample.params RawSample.lib "out/"
                   RawSample.bar (RawSample.memory Sample.frame3)).2 !! 3%positive
         = Some m
         ∧ pixel m 0 2 0 = Some nan ∧ pixel m 0 1 2 = Some nan
         ∧ pixel m 0 1 0 = Some 4%float.
Proof.
  split.
  - destruct (pass (lm := Sample.libm) RawSample.params RawSample.lib "out/"
                RawSample.round (RawSample.memory Sample.frame3))
      as [[e|out] st'] eqn:Hrun; [vm_compute in Hrun; discriminate|].
    destruct (pass_masks_companions_then_bar (lm := Sample.libm) RawSample.params
                RawSample.lib "out/" RawSample.round (RawSample.memory Sample.frame3)
                st' out Sample.frame3 1 3 3 "F356W" "MASKA335R" "SUB320"
                eq_refl eq_refl eq_refl Hrun) as (_ & _ & m & Hm & _ & Hpix).
    assert (Hl : out_masked out = 2%positive).
    { apply (f_equal (fun x => match x.1 with inr o => out_masked o | inl _ => 1%positive end))
        in Hrun. vm_compute in Hrun. symmetry. exact Hrun. }
    rewrite Hl in Hm. exists m. cbn [snd]. split; [exact Hm|].
    split; [|split].
    + rewrite (Hpix 0 2 0 7%float eq_refl). vm_compute. reflexivity.
    + rewrite (Hpix 0 1 1 5%float eq_refl). vm_compute. reflexivity.
    + rewrite (Hpix 0 1 2 6%float eq_refl). vm_compute. reflexivity.
  - destruct (pass (lm := Sample.libm) RawSample.params RawSample.lib "out/"
                RawSample.bar (RawSample.memory Sample.frame3))
      as [[e|out] st'] eqn:Hrun; [vm_compute in Hrun; discriminate|].
    destruct (pass_masks_companions_then_bar (lm := Sample.libm) RawSample.params
                RawSample.lib "out/" RawSample.bar (RawSample.memory Sample.frame3)
                st' out Sample.frame3 1 3 3 "F356W" "MASKALWB" "SUB320"
                eq_refl eq_refl eq_refl Hrun) as (_ & _ & m & Hm & _ & Hpix).
    assert (Hl : out_masked out = 3%positive).
    { apply (f_equal (fun x => match x.1 with inr o => out_masked o | inl _ => 1%positive end))
        in Hrun. vm_compute in Hrun. symmetry. exact Hrun. }
    rewrite Hl in Hm. exists m. cbn [snd]. split; [exact Hm|].
    split; [|split].
    + rewrite (Hpix 0 2 0 7%float eq_refl). vm_compute. reflexivity.
    + rewrite (Hpix 0 1 2 6%float eq_refl). vm_compute. reflexivity.
    + rewrite (Hpix 0 1 0 4%float eq_refl). vm_compute. reflexivity.
Defined.

(** A cube of two frames: with the default [KL = -1] the calibration loads
    curves of two samples from the files that the pass has written. *)
Lemma raw_curves_are_loaded_witness :
  ∃ out st' seps cons,
    pass (lm := Sample.libm) RawSample.params RawSample.lib "out/" RawSample.round
      (RawSample.memory Sample.two_frames) = (inr out, st')
    ∧ length seps = 2 ∧ length cons = 2
    ∧ Cal.load_row ("out/" +:+ key RawSample.round +:+ "-seps.npy") (-1)
        (Cal.State (files st') []) = (inr seps, Cal.State (files st') [])
    ∧ Cal.load_row ("out/" +:+ key RawSample.round +:+ "-cons.npy") (-1)
        (Cal.State (files st') []) = (inr cons, Cal.State (files st') []).
Proof.
  destruct (raw_curves_are_loaded (lm := Sample.libm) RawSample.params RawSample.lib
              "out/" RawSample.round (RawSample.memory Sample.two_frames)
              Sample.two_frames 2 1 2 "F356W" "MASKA335R" "SUB320" 2)
    as (out & st' & Hrun & _ & _ & Hload); try reflexivity; try done.
  destruct (Hload (-1)%Z []) as (seps & cons & _ & _ & H1 & H2 & H3 & H4); [lia|].
  now exists out, st', seps, cons.
Defined.


(** A key of two fields, and a 2-D image under a key of six fields. *)
Lemma pass_refuses_bad_input_witness :
  pass (lm := Sample.libm) RawSample.params RawSample.lib "out/"
    (Observation "NIRCAM_F356W" 1%positive 1%float (1, 1)%float)
    (RawSample.memory Sample.frame3)
  = (inl (IndexError "list index out of range"), RawSample.memory Sample.frame3)
  ∧ pass (lm := Sample.libm) RawSample.params RawSample.lib "out/" RawSample.round
      (RawSample.memory Sample.image)
    = (inl (UserWarning "Data has invalid shape"), RawSample.memory Sample.image).
Proof.
  split.
  - apply (proj1 (pass_refuses_bad_input (lm := Sample.libm) RawSample.params
                    RawSample.lib "out/"
                    (Observation "NIRCAM_F356W" 1%positive 1%float (1, 1)%float)
                    (RawSample.memory Sample.frame3))).
    simpl. lia.
  - apply (proj1 (proj2 (pass_refuses_bad_input (lm := Sample.libm) RawSample.params
                           RawSample.lib "out/" RawSample.round
                           (RawSample.memory Sample.image)))
             "F356W" "MASKA335R" "SUB320" Sample.image); try reflexivity.
    simpl. lia.
Defined.

End RawSpec.

(** ** The shifted masks of [do_saturation] *)

Module DQFacts.

Import DQ Plane.

Lemma lookup_roll {A : Type} (s : Z) (l : list A) (i : nat) :
  i < length l ->
  roll s l !! i = l !! Z.to_nat ((Z.of_nat i - s) mod Z.of_nat (length l)).
Proof.
  intros Hi. unfold roll. rewrite lookup_rotate_r by done.
  f_equal. unfold rotate_nat_add. f_equal.
  assert (Hn : (0 < Z.of_nat (length l))%Z) by lia.
  rewrite Z2Nat.id by (apply Z.mod_pos_bound; lia).
  rewrite Zplus_mod_idemp_l. f_equal. lia.
Qed.

Lemma length_roll {A : Type} (s : Z) (l : list A) : length (roll s l) = length l.
Proof. apply length_rotate. Qed.



Lemma plane_row {A : Type} (H W : nat) (rows : list (list A)) (y : nat) :
  plane_of H W rows -> y < H -> ∃ row, rows !! y = Some row ∧ length row = W.
Proof.
  intros [HH HW] Hy. destruct (lookup_lt_is_Some_2 rows y) as [row Hrow]; [lia|].
  exists row. split; [done|]. rewrite Forall_forall in HW.
  apply HW. now apply list_elem_of_lookup_2 in Hrow.
Qed.

Lemma at2_is_Some {A : Type} (H W : nat) (rows : list (list A)) (y x : nat) :
  plane_of H W rows -> y < H -> x < W -> is_Some (at2 rows y x).
Proof.
  intros Hp Hy Hx. destruct (plane_row H W rows y Hp Hy) as (row & Hrow & Hlen).
  unfold at2. rewrite Hrow. apply lookup_lt_is_Some. lia.
Qed.

Lemma at2_Some_lt {A : Type} (H W : nat) (rows : list (list A)) (y x : nat) v :
  plane_of H W rows -> at2 rows y x = Some v -> y < H ∧ x < W.
Proof.
  intros [HH HW] Hat. unfold at2 in Hat.
  destruct (rows !! y) as [row|] eqn:Hrow; [|done].
  split; [rewrite <- HH; now apply lookup_lt_Some in Hrow|].
  rewrite Forall_forall in HW. rewrite <- (HW row).
  - now apply lookup_lt_Some in Hat.
  - now apply list_elem_of_lookup_2 in Hrow.
Qed.

Lemma at2_fmap {A B : Type} (f : A -> B) (rows : list (list A)) (y x : nat) :
  at2 ((fun row : list A => f <$> row) <$> rows) y x = f <$> at2 rows y x.
Proof.
  unfold at2. rewrite list_lookup_fmap. destruct (rows !! y) as [row|]; simpl; [|done].
  apply list_lookup_fmap.
Qed.

Lemma at2_roll_last {A : Type} (H W : nat) (s : Z) (rows : list (list A)) (y x : nat) :
  plane_of H W rows -> y < H -> x < W ->
  at2 (roll s <$> rows) y x = at2 rows y (Z.to_nat ((Z.of_nat x - s) mod Z.of_nat W)).
Proof.
  intros Hp Hy Hx. destruct (plane_row H W rows y Hp Hy) as (row & Hrow & Hlen).
  unfold at2. rewrite list_lookup_fmap, Hrow. simpl.
  rewrite lookup_roll by lia. now rewrite Hlen.
Qed.

Lemma at2_roll_rows {A : Type} (H W : nat) (s : Z) (rows : list (list A)) (y x : nat) :
  plane_of H W rows -> y < H ->
  at2 (roll s rows) y x = at2 rows (Z.to_nat ((Z.of_nat y - s) mod Z.of_nat H)) x.
Proof.
  intros [HH HW] Hy. unfold at2. rewrite lookup_roll by lia. now rewrite HH.
Qed.

Lemma at2_set_row {A : Type} (H W : nat) (i : Z) (v : A) (rows : list (list A))
    (y x : nat) :
  plane_of H W rows -> y < H -> x < W ->
  at2 (alter (fun row : list A => (fun _ => v) <$> row) (position (length rows) i) rows) y x
  = if decide (y = position H i) then Some v else at2 rows y x.
Proof.
  intros Hp Hy Hx. destruct (plane_row H W rows y Hp Hy) as (row & Hrow & Hlen).
  destruct Hp as [HH HW]. rewrite HH. unfold at2.
  destruct (decide (y = position H i)) as [<-|Hne].
  - rewrite list_lookup_alter_eq, Hrow. simpl. rewrite list_lookup_fmap.
    destruct (lookup_lt_is_Some_2 row x) as [u ->]; [lia|]. done.
  - rewrite list_lookup_alter_ne by done. done.
Qed.

Lemma at2_set_col {A : Type} (H W : nat) (i : Z) (v : A) (rows : list (list A))
    (y x : nat) :
  plane_of H W rows -> y < H -> x < W ->
  at2 ((fun row : list A => alter (fun _ => v) (position (length row) i) row) <$> rows) y x
  = if decide (x = position W i) then Some v else at2 rows y x.
Proof.
  intros Hp Hy Hx. destruct (plane_row H W rows y Hp Hy) as (row & Hrow & Hlen).
  unfold at2. rewrite list_lookup_fmap, Hrow. simpl. rewrite Hlen.
  destruct (decide (x = position W i)) as [<-|Hne].
  - rewrite list_lookup_alter_eq.
    destruct (lookup_lt_is_Some_2 row x) as [u ->]; [lia|]. done.
  - now rewrite list_lookup_alter_ne.
Qed.

Lemma at2_zip_with {A B C : Type} (f : A -> B -> C) (a : list (list A))
    (b : list (list B)) (y x : nat) :
  at2 (zip_with (zip_with f) a b) y x
  = match at2 a y x, at2 b y x with
    | Some u, Some w => Some (f u w)
    | _, _ => None
    end.
Proof.
  unfold at2. rewrite lookup_zip_with.
  destruct (a !! y) as [ra|]; simpl; [|done].
  destruct (b !! y) as [rb|]; simpl; [|now destruct (ra !! x)].
  rewrite lookup_zip_with. destruct (ra !! x); simpl; [|done]. now destruct (rb !! x).
Qed.

(** The rolls and the assignments keep the shape of a plane. *)
Lemma plane_of_fmap {A B : Type} (H W : nat) (f : list A -> list B)
    (rows : list (list A)) :
  (∀ row, length (f row) = length row) ->
  plane_of H W rows -> plane_of H W (f <$> rows).
Proof.
  intros Hf [HH HW]. split; [now rewrite length_fmap|].
  rewrite Forall_fmap. eapply Forall_impl; [exact HW|]. intros row Hr. simpl.
  now rewrite Hf.
Qed.

Lemma plane_of_roll_rows {A : Type} (H W : nat) (s : Z) (rows : list (list A)) :
  plane_of H W rows -> plane_of H W (roll s rows).
Proof.
  intros [HH HW]. split; [now rewrite length_roll|].
  rewrite Forall_forall in *. intros row Hrow. apply HW.
  unfold roll in Hrow. apply list_elem_of_lookup in Hrow as [j Hj].
  apply lookup_rotate_r_Some in Hj as [Hj _]. now apply list_elem_of_lookup_2 in Hj.
Qed.


Lemma at4_plane {A : Type} (a : array4 A) (i g y x : nat) :
  at4 a i g y x = match plane_at a i g with Some rows => at2 rows y x | None => None end.
Proof.
  unfold at4, plane_at, at2. destruct (a !! i) as [groups|]; [|done].
  now destruct (groups !! g).
Qed.

Lemma plane_at_planewise {A B : Type} (f : list (list A) -> list (list B))
    (a : array4 A) (i g : nat) :
  plane_at (planewise f a) i g = f <$> plane_at a i g.
Proof.
  unfold plane_at, planewise. rewrite list_lookup_fmap.
  destruct (a !! i) as [groups|]; simpl; [|done]. apply list_lookup_fmap.
Qed.

Lemma plane_at_elementwise2 {A B C : Type} (f : A -> B -> C) (a : array4 A)
    (b : array4 B) (i g : nat) :
  plane_at (elementwise2 f a b) i g
  = match plane_at a i g, plane_at b i g with
    | Some ra, Some rb => Some (zip_with (zip_with f) ra rb)
    | _, _ => None
    end.
Proof.
  unfold plane_at, elementwise2. rewrite lookup_zip_with.
  destruct (a !! i) as [ga|]; simpl; [|done].
  destruct (b !! i) as [gb|]; simpl; [|now destruct (ga !! g)].
  rewrite lookup_zip_with. destruct (ga !! g); simpl; [|done]. now destruct (gb !! g).
Qed.

Lemma well_shaped_plane (dq : groupdq) (i g : nat) rows :
  well_shaped dq -> plane_at (flags dq) i g = Some rows ->
  plane_of (nrows dq) (ncols dq) rows.
Proof.
  unfold well_shaped, plane_at. intros Hw Hp.
  destruct (flags dq !! i) as [groups|] eqn:Hi; [|done].
  rewrite Forall_forall in Hw. specialize (Hw groups (list_elem_of_lookup_2 _ _ _ Hi)).
  rewrite Forall_forall in Hw. exact (Hw rows (list_elem_of_lookup_2 _ _ _ Hp)).
Qed.



Lemma saturated_plane (a : array4 Z) (i g : nat) rows (y x : nat) :
  plane_at a i g = Some rows -> saturated a i g y x = sat2 rows y x.
Proof. intros Hp. unfold saturated, sat2. now rewrite at4_plane, Hp. Qed.

Lemma position_first (n : nat) : position n 0 = 0.
Proof. reflexivity. Qed.

Lemma position_last (n : nat) : n ≠ 0 -> position n (-1) = n - 1.
Proof. intros Hn. unfold position. simpl. lia. Qed.

(** The masks of lines 227-242 at a pixel of a plane. *)
Section Plane.
Variables (H W : nat) (rows : list (list Z)).
Hypothesis Hp : plane_of H W rows.
Hypotheses (HH : H ≠ 0) (HW : W ≠ 0).

Let B : list (list bool) := (fun row : list Z => test <$> row) <$> rows.

Lemma plane_of_mask : plane_of H W B.
Proof. apply plane_of_fmap; [|done]. intros row. apply length_fmap. Qed.

Lemma at2_mask (y x : nat) : y < H -> x < W -> at2 B y x = Some (sat2 rows y x).
Proof.
  intros Hy Hx. unfold B, sat2. rewrite at2_fmap.
  destruct (at2_is_Some H W rows y x Hp Hy Hx) as [v ->]. done.
Qed.

Lemma mod_lt (k : Z) (n : nat) : n ≠ 0 -> Z.to_nat (k mod Z.of_nat n) < n.
Proof. intros Hn. pose proof (Z.mod_pos_bound k (Z.of_nat n)). lia. Qed.

Lemma at2_vp1 (y x : nat) :
  y < H -> x < W ->
  at2 (alter (fun row : list bool => (fun _ => false) <$> row)
         (position (length (roll 1 <$> B)) 0) (roll 1 <$> B)) y x
  = Some (negb (y =? 0)%nat
          && sat2 rows y (Z.to_nat ((Z.of_nat x - 1) mod Z.of_nat W))).
Proof.
  intros Hy Hx.
  assert (HB : plane_of H W (roll 1 <$> B)).
  { apply plane_of_fmap; [apply length_roll | apply plane_of_mask]. }
  rewrite (at2_set_row H W) by done. rewrite position_first.
  destruct (decide (y = 0)) as [->|Hne]; [done|].
  rewrite (proj2 (Nat.eqb_neq y 0) Hne). simpl.
  rewrite (at2_roll_last H W) by (done || apply plane_of_mask).
  apply at2_mask; [done | now apply mod_lt].
Qed.

Lemma at2_vm1 (y x : nat) :
  y < H -> x < W ->
  at2 (alter (fun row : list bool => (fun _ => false) <$> row)
         (position (length (roll (-1) <$> B)) (-1)) (roll (-1) <$> B)) y x
  = Some (negb (y =? H - 1)%nat
          && sat2 rows y (Z.to_nat ((Z.of_nat x + 1) mod Z.of_nat W))).
Proof.
  intros Hy Hx.
  assert (HB : plane_of H W (roll (-1) <$> B)).
  { apply plane_of_fmap; [apply length_roll | apply plane_of_mask]. }
  rewrite (at2_set_row H W) by done. rewrite position_last by done.
  destruct (decide (y = H - 1)) as [->|Hne]; [now rewrite Nat.eqb_refl|].
  rewrite (proj2 (Nat.eqb_neq y (H - 1)) Hne). simpl.
  rewrite (at2_roll_last H W) by (done || apply plane_of_mask).
  replace (Z.of_nat x - -1)%Z with (Z.of_nat x + 1)%Z by lia.
  apply at2_mask; [done | now apply mod_lt].
Qed.

Lemma at2_hp1 (y x : nat) :
  y < H -> x < W ->
  at2 ((fun row : list bool => alter (fun _ => false) (position (length row) 0) row)
         <$> roll 1 B) y x
  = Some (negb (x =? 0)%nat
          && sat2 rows (Z.to_nat ((Z.of_nat y - 1) mod Z.of_nat H)) x).
Proof.
  intros Hy Hx.
  assert (HB : plane_of H W (roll 1 B)) by apply plane_of_roll_rows, plane_of_mask.
  rewrite (at2_set_col H W) by done. rewrite position_first.
  destruct (decide (x = 0)) as [->|Hne]; [done|].
  rewrite (proj2 (Nat.eqb_neq x 0) Hne). simpl.
  rewrite (at2_roll_rows H W) by (done || apply plane_of_mask).
  apply at2_mask; [now apply mod_lt | done].
Qed.

Lemma at2_hm1 (y x : nat) :
  y < H -> x < W ->
  at2 ((fun row : list bool => alter (fun _ => false) (position (length row) (-1)) row)
         <$> roll (-1) B) y x
  = Some (negb (x =? W - 1)%nat
          && sat2 rows (Z.to_nat ((Z.of_nat y + 1) mod Z.of_nat H)) x).
Proof.
  intros Hy Hx.
  assert (HB : plane_of H W (roll (-1) B)) by apply plane_of_roll_rows, plane_of_mask.
  rewrite (at2_set_col H W) by done. rewrite position_last by done.
  destruct (decide (x = W - 1)) as [->|Hne]; [now rewrite Nat.eqb_refl|].
  rewrite (proj2 (Nat.eqb_neq x (W - 1)) Hne). simpl.
  rewrite (at2_roll_rows H W) by (done || apply plane_of_mask).
  replace (Z.of_nat y - -1)%Z with (Z.of_nat y + 1)%Z by lia.
  apply at2_mask; [now apply mod_lt | done].
Qed.

End Plane.

(** The flags that [grow_saturation] returns, pixel by pixel. *)
Lemma grow_saturation_run (dq : groupdq) :
  well_shaped dq -> nrows dq ≠ 0 -> ncols dq ≠ 0 ->
  ∃ out,
    grow_saturation dq = inr out
    ∧ nrows out = nrows dq ∧ ncols out = ncols dq
    ∧ ∀ i g y x,
        at4 (flags out) i g y x
        = (fun v => Z.lor v (Z.b2z (grown dq i g y x) * SATURATED)) <$>
            at4 (flags dq) i g y x.
Proof.
  intros Hw HH HWn. unfold grow_saturation.
  rewrite (proj2 (Nat.eqb_neq _ 0) HH), (proj2 (Nat.eqb_neq _ 0) HWn).
  eexists. split; [reflexivity|]. split; [done|]. split; [done|].
  intros i g y x. cbn [flags].
  rewrite !at4_plane, plane_at_elementwise2.
  destruct (plane_at (flags dq) i g) as [rows|] eqn:Hrows.
  2:{ done. }
  pose proof (well_shaped_plane dq i g rows Hw Hrows) as Hp.
  rewrite !plane_at_elementwise2.
  unfold roll_last, roll_rows, set_row, set_col.
  rewrite !plane_at_planewise, Hrows. cbn [fmap option_fmap option_map].
  rewrite at2_zip_with.
  destruct (at2 rows y x) as [v|] eqn:Hv; [|done].
  destruct (at2_Some_lt _ _ rows y x v Hp Hv) as [Hy Hx].
  rewrite !at2_zip_with.
  fold test.
  rewrite (at2_mask _ _ rows Hp y x Hy Hx).
  rewrite (at2_vp1 _ _ rows Hp HH HWn y x Hy Hx).
  rewrite (at2_vm1 _ _ rows Hp HH HWn y x Hy Hx).
  rewrite (at2_hp1 _ _ rows Hp HH HWn y x Hy Hx).
  rewrite (at2_hm1 _ _ rows Hp HH HWn y x Hy Hx).
  simpl. do 3 f_equal. unfold grown. cbv zeta.
  now rewrite !(saturated_plane _ i g rows) by done.
Qed.

End DQFacts.

(** ** Properties of the growth of the saturation *)

Module DQSpec.

Import DQ DQFacts Plane.

Lemma testbit_SATURATED (n : Z) : Z.testbit SATURATED n = (n =? 1)%Z.
Proof.
  change SATURATED with (2 ^ 1)%Z.
  destruct (Z.eqb_spec n 1) as [->|Hn]; [reflexivity|].
  destruct (Z.lt_ge_cases n 0) as [Hneg|Hpos]; [now apply Z.testbit_neg_r|].
  now apply Z.pow2_bits_false.
Qed.

Lemma test_testbit (v : Z) : test v = Z.testbit v 1.
Proof.
  unfold test.
  assert (H : Z.land v SATURATED = (Z.b2z (Z.testbit v 1) * SATURATED)%Z).
  { apply Z.bits_inj'. intros n Hn. rewrite Z.land_spec, testbit_SATURATED.
    destruct (Z.eqb_spec n 1) as [->|Hne].
    - rewrite andb_true_r. destruct (Z.testbit v 1); reflexivity.
    - rewrite andb_false_r. destruct (Z.testbit v 1); simpl.
      + rewrite Z.mul_1_l, testbit_SATURATED. symmetry. now apply Z.eqb_neq.
      + now rewrite Z.testbit_0_l. }
  rewrite H. now destruct (Z.testbit v 1).
Qed.

Lemma test_grown (v : Z) (b : bool) :
  test (Z.lor v (Z.b2z b * SATURATED)) = test v || b.
Proof.
  rewrite !test_testbit, Z.lor_spec. f_equal.
  now destruct b.
Qed.

(** A pixel that is saturated counts as grown. *)
Lemma grown_saturated (dq : groupdq) (i g y x : nat) :
  saturated (flags dq) i g y x = true -> grown dq i g y x = true.
Proof. unfold grown. cbv zeta. now intros ->. Qed.

Lemma saturated_after (dq out : groupdq) (i g y x : nat) :
  well_shaped dq -> grow_saturation dq = inr out ->
  is_Some (at4 (flags dq) i g y x) ->
  saturated (flags out) i g y x = grown dq i g y x.
Proof.
  intros Hw Hrun [v Hv].
  assert (HH : nrows dq ≠ 0).
  { intros H0. unfold grow_saturation in Hrun. now rewrite H0 in Hrun. }
  assert (HW : ncols dq ≠ 0).
  { intros H0. unfold grow_saturation in Hrun.
    rewrite (proj2 (Nat.eqb_neq _ 0) HH), H0 in Hrun. discriminate. }
  destruct (grow_saturation_run dq Hw HH HW) as (out' & Hrun' & _ & _ & Hat).
  rewrite Hrun in Hrun'. injection Hrun' as <-.
  unfold saturated at 1. rewrite Hat, Hv. simpl. fold (test (Z.lor v (Z.b2z (grown dq i g y x) * SATURATED))).
  rewrite test_grown.
  destruct (grown dq i g y x) eqn:Hg; [apply orb_true_r|].
  rewrite orb_false_r.
  destruct (test v) eqn:Ht; [|done].
  rewrite <- Hg. symmetry. apply grown_saturated. unfold saturated. now rewrite Hv.
Qed.

(** X16.  The growth of the saturation flags in [do_saturation] only sets
    the flag SATURATED: the array it returns has the shape of [groupdq], each
    of its elements is the element of [groupdq] or that element with
    SATURATED set, so that no flag is cleared and every other flag is as it
    was.  On an array without rows, or without columns, the assignment to the
    first row (column) of a shifted mask raises [IndexError]. *)
Theorem grow_saturation_only_sets_the_flag (dq : groupdq) :
  (nrows dq = 0 ->
   grow_saturation dq = inl (IndexError "index 0 is out of bounds for axis 2 with size 0"))
  ∧ (nrows dq ≠ 0 -> ncols dq = 0 ->
     grow_saturation dq = inl (IndexError "index 0 is out of bounds for axis 3 with size 0"))
  ∧ (well_shaped dq -> nrows dq ≠ 0 -> ncols dq ≠ 0 ->
     ∃ out,
       grow_saturation dq = inr out
       ∧ nrows out = nrows dq ∧ ncols out = ncols dq
       ∧ ∀ i g y x,
           (at4 (flags dq) i g y x = None -> at4 (flags out) i g y x = None)
           ∧ ∀ v, at4 (flags dq) i g y x = Some v ->
               ∃ w, at4 (flags out) i g y x = Some w
                    ∧ (w = v ∨ w = Z.lor v SATURATED)
                    ∧ (∀ n, n ≠ 1%Z -> Z.testbit w n = Z.testbit v n)
                    ∧ (Z.testbit v 1 = true -> Z.testbit w 1 = true)).
Proof.
  split; [|split].
  - intros H0. unfold grow_saturation. now rewrite H0.
  - intros HH H0. unfold grow_saturation.
    now rewrite (proj2 (Nat.eqb_neq _ 0) HH), H0.
  - intros Hw HH HW.
    destruct (grow_saturation_run dq Hw HH HW) as (out & Hrun & Hr & Hc & Hat).
    exists out. repeat (split; [done|]). intros i g y x. split.
    + intros Hnone. now rewrite Hat, Hnone.
    + intros v Hv. rewrite Hat, Hv. cbn [fmap option_fmap option_map]. eexists.
      split; [reflexivity|].
      destruct (grown dq i g y x); cbn [Z.b2z].
      * rewrite Z.mul_1_l. split; [now right|]. split.
        -- intros n Hn. rewrite Z.lor_spec, testbit_SATURATED.
           rewrite (proj2 (Z.eqb_neq n 1) Hn). apply orb_false_r.
        -- intros Hb. now rewrite Z.lor_spec, Hb.
      * rewrite Z.mul_0_l, Z.lor_0_r. split; [now left|]. split; done.
Qed.

(** In the 3 x 3 plane the flag 4 of the first row is kept, and SATURATED is
    added to it only if a neighbour is saturated: here it is not. *)
Lemma grow_saturation_only_sets_the_flag_witness :
  ∃ out, grow_saturation DQSample.plane3 = inr out
         ∧ at4 (flags out) 0 0 0 1 = Some 4%Z
         ∧ at4 (flags out) 0 0 1 2 = Some 2%Z.
Proof.
  destruct (proj2 (proj2 (grow_saturation_only_sets_the_flag DQSample.plane3)))
    as (out & Hrun & _ & _ & Hat).
  - repeat constructor.
  - discriminate.
  - discriminate.
  - exists out. split; [exact Hrun|].
    assert (Hout : grow_saturation DQSample.plane3
                   = inr (GroupDQ 3 3 [[[[0; 4; 0]; [2; 2; 2]; [0; 0; 2]]]]%Z))
      by (vm_compute; reflexivity).
    rewrite Hout in Hrun. injection Hrun as <-. split; reflexivity.
Defined.

(** X17.  After the growth a pixel is saturated when the combined mask holds
    at it.  For a pixel that is neither in the first or last row nor in the first
    or last column, this is: the pixel, or one of its four neighbours along
    the rows and the columns, was saturated; the diagonal neighbours do not
    count. *)
Theorem grow_saturation_flags_the_neighbours (dq out : groupdq) :
  well_shaped dq -> grow_saturation dq = inr out ->
  ∀ i g y x,
    is_Some (at4 (flags dq) i g y x) ->
    saturated (flags out) i g y x = grown dq i g y x
    ∧ (0 < y < nrows dq - 1 -> 0 < x < ncols dq - 1 ->
       saturated (flags out) i g y x
       = saturated (flags dq) i g y x
         || saturated (flags dq) i g y (x - 1)
         || saturated (flags dq) i g y (x + 1)
         || saturated (flags dq) i g (y - 1) x
         || saturated (flags dq) i g (y + 1) x).
Proof.
  intros Hw Hrun i g y x Hv.
  pose proof (saturated_after dq out i g y x Hw Hrun Hv) as Hsat.
  split; [done|]. intros Hy Hx. rewrite Hsat. unfold grown. cbv zeta.
  rewrite (proj2 (Nat.eqb_neq y 0)) by lia.
  rewrite (proj2 (Nat.eqb_neq y (nrows dq - 1))) by lia.
  rewrite (proj2 (Nat.eqb_neq x 0)) by lia.
  rewrite (proj2 (Nat.eqb_neq x (ncols dq - 1))) by lia.
  rewrite !Z.mod_small by lia.
  replace (Z.to_nat (Z.of_nat x - 1)) with (x - 1) by lia.
  replace (Z.to_nat (Z.of_nat x + 1)) with (x + 1) by lia.
  replace (Z.to_nat (Z.of_nat y - 1)) with (y - 1) by lia.
  replace (Z.to_nat (Z.of_nat y + 1)) with (y + 1) by lia.
  reflexivity.
Qed.

(** In the 5 x 5 plane the four neighbours of the middle are saturated
    after the growth, the diagonal neighbour [(1, 1)] is not. *)
Lemma grow_saturation_flags_the_neighbours_witness :
  ∃ out, grow_saturation DQSample.plane5 = inr out
         ∧ saturated (flags out) 0 0 2 1 = true
         ∧ saturated (flags out) 0 0 1 2 = true
         ∧ saturated (flags out) 0 0 1 1 = false.
Proof.
  destruct (grow_saturation DQSample.plane5) as [e|out] eqn:Hrun;
    [vm_compute in Hrun; discriminate|].
  assert (Hw : well_shaped DQSample.plane5) by repeat constructor.
  exists out. split; [done|].
  split; [|split].
  - rewrite (proj2 (grow_saturation_flags_the_neighbours _ out Hw Hrun 0 0 2 1
                      (mk_is_Some _ _ eq_refl))); [reflexivity | simpl; lia | simpl; lia].
  - rewrite (proj2 (grow_saturation_flags_the_neighbours _ out Hw Hrun 0 0 1 2
                      (mk_is_Some _ _ eq_refl))); [reflexivity | simpl; lia | simpl; lia].
  - rewrite (proj2 (grow_saturation_flags_the_neighbours _ out Hw Hrun 0 0 1 1
                      (mk_is_Some _ _ eq_refl))); [reflexivity | simpl; lia | simpl; lia].
Defined.

(** X18.  At the edges the growth is cyclic along the axis of the roll, and
    the rows and columns that are cleared are those of the other axis: a
    saturated pixel in the last column flags the pixel in the first column of
    its row (in every row but the first), a saturated pixel in the last row
    flags the pixel in the first row of its column (in every column but the
    first), and for a pixel of the first row that is in neither the first nor
    the last column the neighbour to the left does not count, while the
    pixel of the last row in its column does. *)
Theorem grow_saturation_wraps_around (dq out : groupdq) :
  well_shaped dq -> grow_saturation dq = inr out ->
  ∀ i g y x,
    is_Some (at4 (flags dq) i g y x) ->
    (x = 0 -> y ≠ 0 ->
     saturated (flags dq) i g y (ncols dq - 1) = true ->
     saturated (flags out) i g y 0 = true)
    ∧ (y = 0 -> x ≠ 0 ->
       saturated (flags dq) i g (nrows dq - 1) x = true ->
       saturated (flags out) i g 0 x = true)
    ∧ (y = 0 -> 1 < nrows dq -> 0 < x < ncols dq - 1 ->
       saturated (flags out) i g 0 x
       = saturated (flags dq) i g 0 x
         || saturated (flags dq) i g 0 (x + 1)
         || saturated (flags dq) i g (nrows dq - 1) x
         || saturated (flags dq) i g 1 x).
Proof.
  intros Hw Hrun i g y x Hv.
  pose proof (saturated_after dq out i g y x Hw Hrun Hv) as Hsat.
  assert (HH : nrows dq ≠ 0).
  { intros H0. unfold grow_saturation in Hrun. now rewrite H0 in Hrun. }
  assert (HW : ncols dq ≠ 0).
  { intros H0. unfold grow_saturation in Hrun.
    rewrite (proj2 (Nat.eqb_neq _ 0) HH), H0 in Hrun. discriminate. }
  assert (Hm1 : ∀ n : nat, n ≠ 0 -> Z.to_nat ((Z.of_nat 0 - 1) mod Z.of_nat n) = n - 1).
  { intros n Hn. change (Z.of_nat 0 - 1)%Z with (-1)%Z.
    replace ((-1) mod Z.of_nat n)%Z with (Z.of_nat n - 1)%Z; [lia|].
    apply Z.mod_unique_pos with (q := (-1)%Z); lia. }
  split; [|split].
  - intros -> Hy Hlast. rewrite Hsat. unfold grown. cbv zeta.
    rewrite (proj2 (Nat.eqb_neq y 0) Hy). rewrite (Hm1 _ HW), Hlast.
    simpl. now rewrite orb_true_r.
  - intros -> Hx Hlast. rewrite Hsat. unfold grown. cbv zeta.
    rewrite (proj2 (Nat.eqb_neq x 0) Hx). rewrite (Hm1 _ HH), Hlast.
    simpl. now rewrite !orb_true_r.
  - intros -> H1 Hx. rewrite Hsat. unfold grown. cbv zeta.
    rewrite (Hm1 _ HH). rewrite (proj2 (Nat.eqb_neq 0 (nrows dq - 1))) by lia.
    rewrite (proj2 (Nat.eqb_neq x 0)) by lia.
    rewrite (proj2 (Nat.eqb_neq x (ncols dq - 1))) by lia.
    change (0 =? 0) with true. cbn [negb andb]. rewrite orb_false_r.
    rewrite !Z.mod_small by lia.
    replace (Z.to_nat (Z.of_nat x + 1)) with (x + 1) by lia.
    replace (Z.to_nat (Z.of_nat 0 + 1)) with 1 by lia.
    reflexivity.
Qed.

(** In the 3 x 3 plane the saturated pixel of the last column flags the
    first column of its row. *)
Lemma grow_saturation_wraps_around_witness :
  ∃ out, grow_saturation DQSample.plane3 = inr out
         ∧ saturated (flags out) 0 0 1 0 = true.
Proof.
  destruct (grow_saturation DQSample.plane3) as [e|out] eqn:Hrun;
    [vm_compute in Hrun; discriminate|].
  assert (Hw : well_shaped DQSample.plane3) by repeat constructor.
  exists out. split; [done|].
  apply (proj1 (grow_saturation_wraps_around _ out Hw Hrun 0 0 1 0
                  (mk_is_Some _ _ eq_refl))); [reflexivity | discriminate | reflexivity].
Defined.

End DQSpec.

(** ** The steps of the pipeline *)

Module RampFacts.

Import DQ Ramp RampInv.

Lemma run_inr {S A B : Type} (m : R S A) (k : A -> R S B) (s : S) (a : A) (s' : S) :
  m s = (inr a, s') -> bind m k s = k a s'.
Proof. intros H. unfold bind. now rewrite H. Qed.

Lemma run_inl {S A B : Type} (m : R S A) (k : A -> R S B) (s : S) (e : error) (s' : S) :
  m s = (inl e, s') -> bind m k s = (inl e, s').
Proof. intros H. unfold bind. now rewrite H. Qed.

Lemma run_cases {S A B : Type} (m : R S A) (k : A -> R S B) (s : S) r (s' : S) :
  bind m k s = (r, s') ->
  (∃ e, m s = (inl e, s') ∧ r = inl e)
  ∨ (∃ a s1, m s = (inr a, s1) ∧ k a s1 = (r, s')).
Proof.
  unfold bind. destruct (m s) as [[e|a] s1]; intros H.
  - left. exists e. now inversion H.
  - right. now exists a, s1.
Qed.

Lemma kept_refl (name : string) (s : pipeline) : kept name s s.
Proof.
  repeat (split; [done|]). split; [exists []; now rewrite app_nil_r|].
  intros k. now destruct (steps s !! k).
Qed.

Lemma kept_trans (name : string) (s1 s2 s3 : pipeline) :
  kept name s1 s2 -> kept name s2 s3 -> kept name s1 s3.
Proof.
  intros (H1 & H2 & H3 & H4 & [l1 H5] & H6) (G1 & G2 & G3 & G4 & [l2 G5] & G6).
  repeat (split; [congruence|]). split.
  - exists (l1 ++ l2). now rewrite G5, H5, app_assoc.
  - intros k. specialize (H6 k). specialize (G6 k).
    destruct (steps s1 !! k) as [a|], (steps s2 !! k) as [b|], (steps s3 !! k) as [c|];
      try done.
    destruct H6 as (? & ? & ? & Ha), G6 as (? & ? & ? & Hb).
    repeat (split; [congruence|]). intros Hk. rewrite (Hb Hk). now apply Ha.
Qed.

Lemma keeps_ret {A : Type} (name : string) (a : A) : keeps name (ret a).
Proof. intros s r s' H. inversion H. apply kept_refl. Qed.

Lemma keeps_lift {A : Type} (name : string) (r : error + A) : keeps name (lift r).
Proof. intros s r' s' H. destruct r; inversion H; apply kept_refl. Qed.

Lemma keeps_read {A : Type} (name : string) (f : pipeline -> A) : keeps name (read f).
Proof. intros s r s' H. inversion H. apply kept_refl. Qed.

Lemma keeps_get_step (name k : string) : keeps name (get_step k).
Proof.
  intros s r s' H. unfold get_step in H.
  destruct (steps s !! k); inversion H; apply kept_refl.
Qed.

Lemma keeps_save_model (name : string) (m : ramp) (suffix : option string) :
  keeps name (save_model m suffix).
Proof.
  intros s r s' H. inversion H. repeat (split; [done|]). split; [now eexists|].
  intros k. cbn [steps]. now destruct (steps s !! k).
Qed.

Lemma keeps_set_step (name : string) (f : step -> step) :
  (∀ st, skip (f st) = skip st ∧ suffix (f st) = suffix st
         ∧ n_pix_grow_sat (f st) = n_pix_grow_sat st) ->
  keeps name (set_step name f).
Proof.
  intros Hf s r s' H. inversion H. repeat (split; [done|]).
  split; [exists []; now rewrite app_nil_r|].
  intros k. cbn [steps]. destruct (decide (name = k)) as [->|Hne].
  - rewrite lookup_alter_eq. destruct (steps s !! k) as [st|]; simpl; [|done].
    destruct (Hf st) as (? & ? & ?). done.
  - rewrite lookup_alter_ne by done. now destruct (steps s !! k).
Qed.

Lemma keeps_bind {A B : Type} (name : string) (m : R pipeline A) (k : A -> R pipeline B) :
  keeps name m -> (∀ a, keeps name (k a)) -> keeps name (bind m k).
Proof.
  intros Hm Hk s r s' H. apply run_cases in H as [(e & H & _)|(a & s1 & H & H')].
  - now apply Hm in H.
  - eapply kept_trans; [exact (Hm _ _ _ H) | exact (Hk _ _ _ _ H')].
Qed.

(** The rows and the pixels of [update_rows]. *)
Lemma lookup_update_rows (lo hi : nat) (f : Z -> Z) (a : list (list Z)) (y : nat) :
  update_rows lo hi f a !! y
  = (fun row => if ((lo <=? y)%nat && (y <? hi)%nat)%bool then f <$> row else row) <$> a !! y.
Proof. unfold update_rows. apply list_lookup_imap. Qed.

Lemma length_update_rows (lo hi : nat) (f : Z -> Z) (a : list (list Z)) :
  length (update_rows lo hi f a) = length a.
Proof. apply length_imap. Qed.

Lemma pixel_update_rows (lo hi : nat) (f : Z -> Z) (a : list (list Z)) (y x : nat) :
  pixel (update_rows lo hi f a) y x
  = (fun v => if ((lo <=? y)%nat && (y <? hi)%nat)%bool then f v else v) <$> pixel a y x.
Proof.
  unfold pixel. rewrite lookup_update_rows. destruct (a !! y) as [row|]; simpl; [|done].
  destruct (_ && _); [apply list_lookup_fmap|]. now destruct (row !! x).
Qed.

Lemma pixel_Some_lt (a : list (list Z)) (y x : nat) (v : Z) :
  pixel a y x = Some v -> y < length a.
Proof.
  unfold pixel. destruct (a !! y) eqn:Hy; [|done]. intros _.
  now apply lookup_lt_Some in Hy.
Qed.

(** The two assignments of lines 200-201, and of lines 207-208, apply [f]
    once or twice to the pixels of the reference rows. *)
Lemma pixel_reference_rows (n : Z) (f : Z -> Z) (a : list (list Z)) (y x : nat) :
  (0 < n)%Z -> (∀ v, f (f v) = f v) ->
  let a1 := update_rows (bound (length a) 0) (bound (length a) n) f a in
  pixel (update_rows (bound (length a1) (- n)) (length a1) f a1) y x
  = (fun v => if reference_row n (length a) y then f v else v) <$> pixel a y x.
Proof.
  intros Hn Hf a1. unfold a1. rewrite length_update_rows, !pixel_update_rows.
  destruct (pixel a y x) as [v|] eqn:Hv; [|done]. simpl. f_equal.
  apply pixel_Some_lt in Hv. unfold reference_row, bound.
  replace (0 <? 0)%Z with false by done.
  rewrite (proj2 (Z.ltb_ge n 0)) by lia.
  rewrite (proj2 (Z.ltb_lt (- n) 0)) by lia.
  destruct (Z.ltb_spec (Z.of_nat y) n) as [H1|H1];
    destruct (Z.leb_spec (Z.of_nat (length a) - n) (Z.of_nat y)) as [H2|H2]; simpl.
  - rewrite !(proj2 (Nat.leb_le _ _)), !(proj2 (Nat.ltb_lt _ _)) by lia. simpl. apply Hf.
  - rewrite (proj2 (Nat.leb_le (Z.to_nat (Z.min 0 _)) y)) by lia.
    rewrite (proj2 (Nat.ltb_lt y (Z.to_nat (Z.min n _)))) by lia. simpl.
    rewrite (proj2 (Nat.leb_gt _ y)) by lia. done.
  - rewrite (proj2 (Nat.ltb_ge y (Z.to_nat (Z.min n _)))) by lia.
    rewrite andb_false_r.
    rewrite (proj2 (Nat.leb_le _ y)), (proj2 (Nat.ltb_lt y _)) by lia. done.
  - rewrite (proj2 (Nat.ltb_ge y (Z.to_nat (Z.min n _)))) by lia.
    rewrite andb_false_r.
    rewrite (proj2 (Nat.leb_gt _ y)) by lia. done.
Qed.

Lemma pixel_flag_reference_rows (n : Z) (a : list (list Z)) (y x : nat) :
  (0 < n)%Z ->
  pixel (flag_reference_rows n a) y x
  = (fun v => if reference_row n (length a) y then Z.lor v REFERENCE_PIXEL else v) <$>
      pixel a y x.
Proof.
  intros Hn. apply (pixel_reference_rows n (fun v => Z.lor v REFERENCE_PIXEL)); [done|].
  intros v. now rewrite <- Z.lor_assoc, Z.lor_diag.
Qed.

Lemma pixel_unflag_reference_rows (n : Z) (a : list (list Z)) (y x : nat) :
  (0 < n)%Z ->
  pixel (unflag_reference_rows n a) y x
  = (fun v => if reference_row n (length a) y then Z.land v (Z.lnot REFERENCE_PIXEL) else v) <$>
      pixel a y x.
Proof.
  intros Hn.
  apply (pixel_reference_rows n (fun v => Z.land v (Z.lnot REFERENCE_PIXEL))); [done|].
  intros v. now rewrite <- Z.land_assoc, Z.land_diag.
Qed.

(** Two arrays with rows of the same lengths and the same pixels are the
    same. *)
Lemma pixel_ext (a b : list (list Z)) :
  (∀ y, length <$> a !! y = length <$> b !! y) ->
  (∀ y x, pixel a y x = pixel b y x) ->
  a = b.
Proof.
  intros Hlen Hpix. apply list_eq. intros y. specialize (Hlen y).
  pose proof (Hpix y) as Hy. unfold pixel in Hy.
  destruct (a !! y) as [ra|], (b !! y) as [rb|]; try done.
  f_equal. apply list_eq. exact Hy.
Qed.

Lemma row_length_update_rows (lo hi : nat) (f : Z -> Z) (a : list (list Z)) (y : nat) :
  length <$> update_rows lo hi f a !! y = length <$> a !! y.
Proof.
  rewrite lookup_update_rows. destruct (a !! y) as [row|]; simpl; [|done].
  destruct (_ && _); [now rewrite length_fmap | done].
Qed.

Lemma row_length_flag_reference_rows (n : Z) (a : list (list Z)) (y : nat) :
  length <$> flag_reference_rows n a !! y = length <$> a !! y.
Proof. unfold flag_reference_rows. now rewrite !row_length_update_rows. Qed.

Lemma row_length_unflag_reference_rows (n : Z) (a : list (list Z)) (y : nat) :
  length <$> unflag_reference_rows n a !! y = length <$> a !! y.
Proof. unfold unflag_reference_rows. now rewrite !row_length_update_rows. Qed.

Lemma testbit_REFERENCE_PIXEL (b : Z) : Z.testbit REFERENCE_PIXEL b = (b =? 31)%Z.
Proof.
  change REFERENCE_PIXEL with (2 ^ 31)%Z.
  destruct (Z.eqb_spec b 31) as [->|Hb]; [reflexivity|].
  destruct (Z.lt_ge_cases b 0) as [Hneg|Hpos]; [now apply Z.testbit_neg_r|].
  now apply Z.pow2_bits_false.
Qed.

(** Setting the flag and clearing it is clearing it. *)
Lemma clear_set_REFERENCE_PIXEL (v : Z) :
  Z.land (Z.lor v REFERENCE_PIXEL) (Z.lnot REFERENCE_PIXEL)
  = Z.land v (Z.lnot REFERENCE_PIXEL).
Proof.
  apply Z.bits_inj'. intros b Hb.
  rewrite !Z.land_spec, Z.lor_spec, Z.lnot_spec, testbit_REFERENCE_PIXEL by done.
  destruct (b =? 31)%Z; simpl; [now rewrite !andb_false_r | now rewrite orb_false_r].
Qed.

(** Clearing the flag changes a value exactly when it has the flag. *)
Lemma clear_REFERENCE_PIXEL (v : Z) :
  Z.land v (Z.lnot REFERENCE_PIXEL) = v ↔ Z.testbit v 31 = false.
Proof.
  split.
  - intros H. rewrite <- H, Z.land_spec, Z.lnot_spec, testbit_REFERENCE_PIXEL by done.
    apply andb_false_r.
  - intros H. apply Z.bits_inj'. intros b Hb.
    rewrite Z.land_spec, Z.lnot_spec, testbit_REFERENCE_PIXEL by done.
    destruct (Z.eqb_spec b 31) as [->|Hne]; cbn [negb];
      [now rewrite H | apply andb_true_r].
Qed.

Lemma length_flag_reference_rows (n : Z) (a : list (list Z)) :
  length (flag_reference_rows n a) = length a.
Proof. unfold flag_reference_rows. now rewrite !length_update_rows. Qed.

Section Run.
Context {jwst : Jwst}.

(** A run of a step keeps the settings. *)
Lemma run_step_keeps (name : string) (input : ramp) (kw : option bool) :
  keeps name (run_step name input kw).
Proof.
  unfold run_step.
  apply keeps_bind; [apply keeps_get_step|]. intros st.
  apply keeps_bind; [apply keeps_read|]. intros si.
  apply keeps_bind; [now apply keeps_set_step|]. intros _.
  apply keeps_bind; [apply keeps_lift|]. intros res.
  apply keeps_bind; [now apply keeps_set_step|]. intros _.
  apply keeps_bind.
  { repeat case_bool_decide;
      try (apply keeps_bind; [apply keeps_lift|]; intros status);
      apply keeps_ret. }
  intros really. apply keeps_bind; [|intros _; apply keeps_ret].
  destruct really; [|apply keeps_ret].
  apply keeps_bind; [apply keeps_read|]. intros dir.
  apply keeps_bind; [now apply keeps_set_step|]. intros _.
  destruct res.
  - apply keeps_save_model.
  - apply keeps_bind; [apply keeps_lift|]. intros s0.
    apply keeps_bind; [apply keeps_save_model|]. intros _.
    apply keeps_bind; [apply keeps_lift|]. intros s1.
    apply keeps_save_model.
Qed.

(** A step that raises: the exception passes through, and the step is left
    with [save_results] unset. *)
Lemma run_step_inl (name : string) (input : ramp) (kw : option bool) (s : pipeline)
    (st : step) (e : error) :
  steps s !! name = Some st ->
  call name (with_save_results false st) input = inl e ->
  run_step name input kw s
  = (inl e, Pipeline (alter (with_save_results false) name (steps s)) (nrow_ref s)
              (grow_diagonal s) (save_intermediates s) (pipe_output_dir s) (saved s)).
Proof.
  intros Hst Hcall. unfold run_step, bind, get_step, read, set_step, lift, raise.
  now rewrite Hst, Hcall.
Qed.

(** [do_nircam_refpix] past its test. *)
Lemma do_nircam_refpix_subarray (input : ramp) (kw : option bool) (s : pipeline) :
  lower (instrument input) = "nircam" -> (xsize input < 2048)%Z -> (0 < nrow_ref s)%Z ->
  do_nircam_refpix input kw s
  = bind (run_step "refpix"
            (with_pixeldq (flag_reference_rows (nrow_ref s) (pixeldq input)) input) kw)
      (fun res => bind (lift (model_of res "pixeldq"))
         (fun m => ret (Model (with_pixeldq
                                 (unflag_reference_rows (nrow_ref s) (pixeldq m)) m))))
      s.
Proof.
  intros H1 H2 H3. unfold do_nircam_refpix. unfold bind at 1. unfold read at 1.
  rewrite (bool_decide_eq_true_2 _ H1), (proj2 (Z.ltb_lt _ _) H2),
    (proj2 (Z.ltb_lt _ _) H3). reflexivity.
Qed.


(** What [run_step] returns is what the step returned, and the step has its
    [save_results] back. *)
Lemma run_step_inr (name : string) (input : ramp) (kw : option bool) (s s' : pipeline)
    (st : step) (res : result) :
  steps s !! name = Some st ->
  run_step name input kw s = (inr res, s') ->
  call name (with_save_results false st) input = inr res
  ∧ ∃ st', steps s' !! name = Some st' ∧ save_results st' = save_results st.
Proof.
  intros Hst Hrun.
  unfold run_step, bind, get_step, read, set_step, lift, ret, raise, save_model in Hrun.
  rewrite Hst in Hrun.
  destruct (call name (with_save_results false st) input) as [e|res0] eqn:Hcall;
    [inversion Hrun|].
  cbn [steps nrow_ref grow_diagonal save_intermediates pipe_output_dir saved] in Hrun.
  repeat (case_match; simplify_eq/=); try done.
  all: split; [done|].
  all: rewrite ?lookup_alter_eq, ?Hst; simpl.
  all: eexists; split; [reflexivity|]; done.
Qed.

(** [run_step] returns whenever the step returns a single model. *)
Lemma run_step_model (name : string) (input : ramp) (kw : option bool) (s : pipeline)
    (st : step) (m : ramp) :
  steps s !! name = Some st ->
  call name (with_save_results false st) input = inr (Model m) ->
  ∃ s', run_step name input kw s = (inr (Model m), s').
Proof.
  intros Hst Hcall.
  destruct (run_step name input kw s) as [r s'] eqn:Hrun. exists s'. f_equal.
  unfold run_step, bind, get_step, read, set_step, lift, ret, raise, save_model in Hrun.
  rewrite Hst, Hcall in Hrun.
  cbn [steps nrow_ref grow_diagonal save_intermediates pipe_output_dir saved] in Hrun.
  repeat (case_match; simplify_eq/=); done.
Qed.

(** [do_saturation] past its test. *)
Lemma do_saturation_grows (input : ramp) (kw : option bool) (s : pipeline) (st : step) :
  steps s !! "saturation" = Some st ->
  grow_diagonal s = false -> n_pix_grow_sat st ≠ 0%Z ->
  do_saturation input kw s
  = bind (run_step "saturation" input kw)
      (fun res => bind (lift (model_of res "groupdq"))
         (fun m => bind (lift (grow_saturation (groupdq m)))
            (fun dq => ret (Model (with_groupdq dq m)))))
      (Pipeline (alter (with_n_pix_grow_sat (n_pix_grow_sat st - 1)) "saturation" (steps s))
         (nrow_ref s) (grow_diagonal s) (save_intermediates s) (pipe_output_dir s)
         (saved s)).
Proof.
  intros Hst Hd Hn. unfold do_saturation. unfold bind at 1. unfold get_step at 1.
  rewrite Hst. unfold bind at 1. unfold read at 1.
  rewrite (proj2 (Z.eqb_neq _ _) Hn).
  replace (grow_diagonal s || false) with false by (now rewrite Hd).
  reflexivity.
Qed.


End Run.

End RampFacts.

(** ** Properties of the pipeline *)

Module RampSpec.

Import DQ Ramp RampInv RampFacts.

Section Run.
Context {jwst : Jwst}.


(** X19.  [run_step] calls the step with [save_results] unset.  If the step
    raises, the exception passes through, nothing is saved and the step is
    left with [save_results] unset; if [run_step] returns, it returns what
    the step returned and the step has its [save_results] back; and it does
    return whenever the step returns a single model. *)
Theorem run_step_restores_save_results (name : string) (input : ramp) (kw : option bool)
    (s : pipeline) (st : step) :
  steps s !! name = Some st ->
  (∀ e, call name (with_save_results false st) input = inl e ->
     ∃ s', run_step name input kw s = (inl e, s')
           ∧ steps s' !! name = Some (with_save_results false st)
           ∧ saved s' = saved s)
  ∧ (∀ res s', run_step name input kw s = (inr res, s') ->
       call name (with_save_results false st) input = inr res
       ∧ ∃ st', steps s' !! name = Some st' ∧ save_results st' = save_results st)
  ∧ (∀ m, call name (with_save_results false st) input = inr (Model m) ->
       ∃ s', run_step name input kw s = (inr (Model m), s')).
Proof.
  intros Hst. split; [|split].
  - intros e Hcall. eexists. split; [now apply (run_step_inl _ _ _ _ st)|].
    cbn [steps saved]. now rewrite lookup_alter_eq, Hst.
  - intros res s' Hrun. now apply (run_step_inr _ _ kw s).
  - intros m Hcall. now apply (run_step_model _ _ _ _ st).
Qed.


(** X21.  [do_nircam_refpix] on a NIRCam subarray with [nrow_ref] positive:
    the step [refpix] is run on the input with REFERENCE_PIXEL set in the
    first and in the last [nrow_ref] rows of [pixeldq] and every other flag
    as it was; when the step returns a model, that model is returned with
    REFERENCE_PIXEL cleared in those rows of its [pixeldq] and every other
    flag, and the rest of the model, as the step returned it.  For another
    instrument, a full frame, or [nrow_ref] not positive, the step is run on
    the input as it is. *)
Theorem do_nircam_refpix_flags_the_reference_rows (input : ramp) (kw : option bool)
    (s : pipeline) :
  let n := nrow_ref s in
  let flagged := flag_reference_rows n (pixeldq input) in
  (lower (instrument input) ≠ "nircam" ∨ (2048 <= xsize input)%Z ∨ (n <= 0)%Z ->
   do_nircam_refpix input kw s = run_step "refpix" input kw s)
  ∧ (lower (instrument input) = "nircam" -> (xsize input < 2048)%Z -> (0 < n)%Z ->
     (∀ y x,
        pixel flagged y x
        = (fun v => if reference_row n (length (pixeldq input)) y
                    then Z.lor v REFERENCE_PIXEL else v) <$> pixel (pixeldq input) y x)
     ∧ (∀ m s', run_step "refpix" (with_pixeldq flagged input) kw s = (inr (Model m), s') ->
          ∃ out,
            do_nircam_refpix input kw s = (inr (Model out), s')
            ∧ instrument out = instrument m ∧ xsize out = xsize m
            ∧ groupdq out = groupdq m ∧ cal_step out = cal_step m
            ∧ ∀ y x,
                pixel (pixeldq out) y x
                = (fun v => if reference_row n (length (pixeldq m)) y
                            then Z.land v (Z.lnot REFERENCE_PIXEL) else v) <$>
                    pixel (pixeldq m) y x)
     ∧ (∀ r s', run_step "refpix" (with_pixeldq flagged input) kw s = (r, s') ->
          (∀ e, r = inl e -> do_nircam_refpix input kw s = (inl e, s'))
          ∧ (∀ m1 m2, r = inr (Tuple m1 m2) ->
               ∃ e, do_nircam_refpix input kw s = (inl e, s')))).
Proof.
  intros n flagged. split.
  - intros Hor. unfold do_nircam_refpix, bind, read. fold n.
    destruct (negb _) eqn:Hg; [done|]. exfalso.
    apply negb_false_iff in Hg. apply andb_prop in Hg as [Hg H3].
    apply andb_prop in Hg as [H1 H2]. apply bool_decide_eq_true in H1.
    apply Z.ltb_lt in H2, H3. destruct Hor as [?|[?|?]]; [done | lia | lia].
  - intros H1 H2 H3.
    pose proof (do_nircam_refpix_subarray input kw s H1 H2 H3) as Hgo.
    fold n in Hgo. fold flagged in Hgo.
    split; [|split].
    + intros y x. now apply pixel_flag_reference_rows.
    + intros m s' Hrun. eexists. split.
      * rewrite Hgo. rewrite (run_inr _ _ _ _ _ Hrun). reflexivity.
      * repeat (split; [done|]). intros y x. cbn [pixeldq with_pixeldq].
        now apply pixel_unflag_reference_rows.
    + intros r s' Hrun. split.
      * intros e ->. rewrite Hgo. now rewrite (run_inl _ _ _ _ _ Hrun).
      * intros m1 m2 ->. eexists. rewrite Hgo. rewrite (run_inr _ _ _ _ _ Hrun).
        reflexivity.
Qed.

(** X22.  When the step [refpix] hands [pixeldq] back as it got it, the
    model that [do_nircam_refpix] returns has the [pixeldq] of the input with
    REFERENCE_PIXEL cleared in the first and last [nrow_ref] rows: a pixel
    there that was flagged in the input is not flagged in the result, and
    [pixeldq] is that of the input exactly when no pixel of these rows was
    flagged. *)
Theorem do_nircam_refpix_clears_the_flag (input : ramp) (kw : option bool)
    (s s' : pipeline) (m : ramp) :
  let n := nrow_ref s in
  lower (instrument input) = "nircam" -> (xsize input < 2048)%Z -> (0 < n)%Z ->
  run_step "refpix" (with_pixeldq (flag_reference_rows n (pixeldq input)) input) kw s
  = (inr (Model m), s') ->
  pixeldq m = flag_reference_rows n (pixeldq input) ->
  ∃ out,
    do_nircam_refpix input kw s = (inr (Model out), s')
    ∧ (∀ y x,
         pixel (pixeldq out) y x
         = (fun v => if reference_row n (length (pixeldq input)) y
                     then Z.land v (Z.lnot REFERENCE_PIXEL) else v) <$>
             pixel (pixeldq input) y x)
    ∧ (∀ y x v, reference_row n (length (pixeldq input)) y = true ->
         pixel (pixeldq out) y x = Some v -> Z.testbit v 31 = false)
    ∧ (pixeldq out = pixeldq input
       ↔ ∀ y x v, reference_row n (length (pixeldq input)) y = true ->
           pixel (pixeldq input) y x = Some v -> Z.testbit v 31 = false).
Proof.
  intros n H1 H2 H3 Hrun Hm.
  pose proof (do_nircam_refpix_subarray input kw s H1 H2 H3) as Hgo. fold n in Hgo.
  rewrite (run_inr _ _ _ _ _ Hrun) in Hgo.
  assert (Hpix : ∀ y x,
            pixel (unflag_reference_rows n (pixeldq m)) y x
            = (fun v => if reference_row n (length (pixeldq input)) y
                        then Z.land v (Z.lnot REFERENCE_PIXEL) else v) <$>
                pixel (pixeldq input) y x).
  { intros y x. rewrite pixel_unflag_reference_rows by done.
    rewrite Hm, length_flag_reference_rows, pixel_flag_reference_rows by done.
    destruct (pixel (pixeldq input) y x) as [v|]; simpl; [|done].
    destruct (reference_row _ _ _); [|done]. now rewrite clear_set_REFERENCE_PIXEL. }
  eexists. split; [exact Hgo|]. cbn [pixeldq with_pixeldq].
  split; [exact Hpix|]. split.
  - intros y x v Href. rewrite Hpix, Href.
    destruct (pixel (pixeldq input) y x) as [u|]; cbn [fmap option_fmap option_map];
      [|done].
    intros [= <-]. rewrite Z.land_spec, Z.lnot_spec, testbit_REFERENCE_PIXEL by done.
    apply andb_false_r.
  - split.
    + intros Heq y x v Href Hv. specialize (Hpix y x).
      rewrite Heq, Hv, Href in Hpix. cbn [fmap option_fmap option_map] in Hpix.
      apply clear_REFERENCE_PIXEL. now injection Hpix.
    + intros Hclear. apply pixel_ext.
      * intros y. now rewrite row_length_unflag_reference_rows, Hm,
          row_length_flag_reference_rows.
      * intros y x. rewrite Hpix.
        destruct (pixel (pixeldq input) y x) as [v|] eqn:Hv; simpl; [|done].
        destruct (reference_row _ _ _) eqn:Href; [|done]. f_equal.
        apply clear_REFERENCE_PIXEL. now apply (Hclear y x).
Qed.

(** X23.  [do_saturation] runs the step [saturation] as it is when
    [grow_diagonal] is set or [n_pix_grow_sat] is 0.  Otherwise it lowers
    [n_pix_grow_sat] of the step by one, and the step keeps the lowered value
    whether the run returns or raises; the step is called with the lowered
    value, and what is returned is the model of the step with the saturation
    flags of its [groupdq] grown along rows and columns. *)
Theorem do_saturation_lowers_the_growth (input : ramp) (kw : option bool) (s : pipeline)
    (st : step) :
  steps s !! "saturation" = Some st ->
  let lowered := with_n_pix_grow_sat (n_pix_grow_sat st - 1) st in
  (grow_diagonal s = true ∨ n_pix_grow_sat st = 0%Z ->
   do_saturation input kw s = run_step "saturation" input kw s)
  ∧ (grow_diagonal s = false -> n_pix_grow_sat st ≠ 0%Z ->
     (∀ r s', do_saturation input kw s = (r, s') ->
        (∃ st', steps s' !! "saturation" = Some st'
                ∧ n_pix_grow_sat st' = (n_pix_grow_sat st - 1)%Z)
        ∧ ∀ out, r = inr out ->
            ∃ m dq,
              call "saturation" (with_save_results false lowered) input = inr (Model m)
              ∧ grow_saturation (groupdq m) = inr dq
              ∧ out = Model (with_groupdq dq m))
     ∧ (∀ m dq,
          call "saturation" (with_save_results false lowered) input = inr (Model m) ->
          grow_saturation (groupdq m) = inr dq ->
          ∃ s', do_saturation input kw s = (inr (Model (with_groupdq dq m)), s'))).
Proof.
  intros Hst lowered. split.
  - intros Hor. unfold do_saturation. unfold bind at 1. unfold get_step at 1.
    rewrite Hst. unfold bind at 1. unfold read at 1.
    destruct Hor as [-> | ->]; [done | now rewrite orb_true_r].
  - intros Hd Hn. pose proof (do_saturation_grows input kw s st Hst Hd Hn) as Hgo.
    set (s1 := Pipeline _ _ _ _ _ _) in Hgo.
    assert (Hst1 : steps s1 !! "saturation" = Some lowered).
    { unfold s1. cbn [steps]. now rewrite lookup_alter_eq, Hst. }
    split.
    + intros r s' Hrun. rewrite Hgo in Hrun.
      apply run_cases in Hrun as [(e & Hrun & ->)|(res & s2 & Hrun & Hrest)].
      * split; [|done].
        pose proof (run_step_keeps _ _ _ _ _ _ Hrun) as (_ & _ & _ & _ & _ & Hk).
        specialize (Hk "saturation"). rewrite Hst1 in Hk.
        destruct (steps s' !! "saturation") as [st'|]; [|done].
        exists st'. split; [done|]. now destruct Hk as (_ & _ & -> & _).
      * pose proof (run_step_keeps _ _ _ _ _ _ Hrun) as (_ & _ & _ & _ & _ & Hk).
        specialize (Hk "saturation"). rewrite Hst1 in Hk.
        destruct (run_step_inr _ _ _ _ _ _ _ Hst1 Hrun) as [Hcall _].
        assert (Hs : s' = s2).
        { unfold bind, lift, ret, raise in Hrest.
          repeat (case_match; simplify_eq/=); done. }
        subst s'. split.
        -- destruct (steps s2 !! "saturation") as [st'|]; [|done].
           exists st'. split; [done|]. now destruct Hk as (_ & _ & -> & _).
        -- intros out ->. unfold bind, lift, ret, raise in Hrest.
           destruct res as [m|m1 m2]; simpl in Hrest; [|done].
           destruct (grow_saturation (groupdq m)) as [e|dq] eqn:Hdq; [done|].
           exists m, dq. split; [done|]. split; [done|]. now inversion Hrest.
    + intros m dq Hcall Hdq.
      destruct (run_step_model "saturation" input kw s1 lowered m Hst1 Hcall)
        as [s' Hrun].
      exists s'. rewrite Hgo, (run_inr _ _ _ _ _ Hrun).
      unfold bind, lift, ret. simpl. now rewrite Hdq.
Qed.

End Run.

(** The step [jump] of the sample raises, and is left with [save_results]
    unset; the step [refpix] returns. *)
Lemma run_step_restores_save_results_witness :
  (∃ s', run_step (jwst := RampSample.echo) "jump" RampSample.subarray None
           RampSample.coron1 = (inl (StepFailed "jump"), s')
         ∧ steps s' !! "jump" = Some (with_save_results false RampSample.jump)
         ∧ saved s' = [])
  ∧ ∃ s', run_step (jwst := RampSample.echo) "refpix" RampSample.subarray None
            RampSample.coron1 = (inr (Model RampSample.subarray), s').
Proof.
  assert (Hj : steps RampSample.coron1 !! "jump" = Some RampSample.jump)
    by (vm_compute; reflexivity).
  assert (Hr : steps RampSample.coron1 !! "refpix" = Some RampSample.refpix)
    by (vm_compute; reflexivity).
  split.
  - apply (proj1 (run_step_restores_save_results (jwst := RampSample.echo) "jump"
                    RampSample.subarray None RampSample.coron1 _ Hj)).
    reflexivity.
  - apply (proj2 (proj2 (run_step_restores_save_results (jwst := RampSample.echo) "refpix"
                           RampSample.subarray None RampSample.coron1 _ Hr))).
    reflexivity.
Defined.


(** In the sample the reference pixel of the first row is no longer flagged
    in what [do_nircam_refpix] returns. *)
Lemma do_nircam_refpix_clears_the_flag_witness :
  ∃ out s', do_nircam_refpix (jwst := RampSample.echo) RampSample.subarray None
              RampSample.coron1 = (inr (Model out), s')
            ∧ pixel (pixeldq RampSample.subarray) 0 1 = Some REFERENCE_PIXEL
            ∧ pixel (pixeldq out) 0 1 = Some 0%Z.
Proof.
  assert (Hr : steps RampSample.coron1 !! "refpix" = Some RampSample.refpix)
    by (vm_compute; reflexivity).
  set (flagged := with_pixeldq
                    (flag_reference_rows (nrow_ref RampSample.coron1)
                       (pixeldq RampSample.subarray)) RampSample.subarray).
  destruct (run_step_model (jwst := RampSample.echo) "refpix" flagged None
              RampSample.coron1 RampSample.refpix flagged Hr eq_refl)
    as [s' Hrun].
  destruct (do_nircam_refpix_clears_the_flag (jwst := RampSample.echo)
              RampSample.subarray None RampSample.coron1 s' flagged)
    as (out & Hout & Hpix & _); [reflexivity | reflexivity | reflexivity | exact Hrun
                                 | reflexivity |].
  exists out, s'. split; [exact Hout|]. split; [reflexivity|].
  rewrite Hpix. reflexivity.
Defined.

(** In the sample [n_pix_grow_sat] is 1: the step is left with 0, and the
    saturated pixel of the 3 x 3 plane has grown. *)
Lemma do_saturation_lowers_the_growth_witness :
  ∃ s' st',
    do_saturation (jwst := RampSample.echo) RampSample.subarray None RampSample.coron1
    = (inr (Model (with_groupdq (GroupDQ 3 3 [[[[0; 4; 0]; [2; 2; 2]; [0; 0; 2]]]]%Z)
                     RampSample.subarray)), s')
    ∧ steps s' !! "saturation" = Some st' ∧ n_pix_grow_sat st' = 0%Z.
Proof.
  assert (Hs : steps RampSample.coron1 !! "saturation" = Some RampSample.saturation)
    by (vm_compute; reflexivity).
  pose proof (do_saturation_lowers_the_growth (jwst := RampSample.echo)
                RampSample.subarray None RampSample.coron1 _ Hs) as Hsat.
  cbv zeta in Hsat. destruct Hsat as [_ Hsat].
  destruct Hsat as [Hstep Hrun]; [reflexivity | discriminate |].
  destruct (Hrun RampSample.subarray
              (GroupDQ 3 3 [[[[0; 4; 0]; [2; 2; 2]; [0; 0; 2]]]]%Z))
    as [s' Hgo]; [reflexivity | vm_compute; reflexivity |].
  destruct (proj1 (Hstep _ _ Hgo)) as (st' & Hst' & Hn).
  exists s', st'. split; [exact Hgo|]. split; [exact Hst' | exact Hn].
Defined.

End RampSpec.

(** ** The loop of [run_ramp_fitting] *)

Module FitFacts.

Import DQ Ramp RampFacts Fit.

(** Removing a handler that was just added. *)
Lemma filter_added (hs : list (nat * string)) (n : nat) (f : string) :
  Forall (fun h => h.1 < n) hs ->
  filter (fun h : nat * string => h.1 ≠ n) (hs ++ [(n, f)]) = hs.
Proof.
  intros Hall. rewrite filter_app, filter_cons_False, filter_nil, app_nil_r.
  - induction Hall as [|h hs Hh _ IH]; [done|].
    rewrite filter_cons_True by (simpl; lia). now rewrite IH.
  - simpl. intros H. now apply H.
Qed.

Section Run.
Variable e : env.

(** What the body of the loop leaves, for one file. *)
Lemma fit_run (m : meta) (osubdir file : string) (w : world) :
  Forall (fun h => h.1 < handlers_made w) (handlers w) ->
  let p := configure m osubdir (Coron1Pipeline e) in
  ∃ ds lg,
    fit e m osubdir file w
    = (match run e p file with
       | inr _ => inr ()
       | inl exc =>
           inl (RuntimeError ("Caugh exception during pipeline processing."
                              +:+ String "010" "Exception: " +:+ message exc))
       end,
       World ds (log_files w ++ [lg]) (handlers w) (S (handlers_made w)) (S (ticks w))
         (runs w ++ [(p, file)]))
    ∧ dirs w ⊆ ds.
Proof.
  intros Hall p. eexists _, _. split.
  - unfold fit, bind, makedirs_if_missing, now, create, addHandler, try_except_finally,
      pipeline_run, removeHandler, raise.
    cbn [dirs log_files handlers handlers_made ticks runs].
    fold p.
    destruct (run e p file) as [exc|[]];
      cbn [dirs log_files handlers handlers_made ticks runs];
      rewrite (filter_added _ _ _ Hall); reflexivity.
  - case_bool_decide; set_solver.
Qed.

(** The body of the loop runs the pipeline once, set up from [meta]. *)
Lemma fit_runs (m : meta) (osubdir file : string) (w : world) :
  runs (fit e m osubdir file w).2
  = runs w ++ [(configure m osubdir (Coron1Pipeline e), file)].
Proof.
  unfold fit, bind, makedirs_if_missing, now, create, addHandler, try_except_finally,
    pipeline_run, removeHandler, raise.
  cbn [dirs log_files handlers handlers_made ticks runs].
  now destruct (run e _ file) as [exc|[]].
Qed.

(** The runs of the loop are runs on files of the list. *)
Lemma for_each_fit_runs (m : meta) (osubdir : string) (files : list string) (w : world) :
  ∃ ran,
    runs (for_each files (fit e m osubdir) w).2
    = runs w ++ ((fun f => (configure m osubdir (Coron1Pipeline e), f)) <$> ran)
    ∧ ∀ f, f ∈ ran -> f ∈ files.
Proof.
  revert w. induction files as [|f files IH]; intros w.
  - exists []. split; [now rewrite app_nil_r | done].
  - cbn [for_each]. unfold bind. pose proof (fit_runs m osubdir f w) as Hf.
    destruct (fit e m osubdir f w) as [[exc|[]] w1]; cbn [snd] in *.
    + exists [f]. split; [exact Hf|]. intros x Hx.
      inversion Hx; subst; [constructor | now apply elem_of_nil in H1].
    + destruct (IH w1) as (ran & Hr & Hsub). exists (f :: ran). split.
      * now rewrite Hr, Hf, <- app_assoc.
      * intros x Hx. inversion Hx; subst; constructor. now apply Hsub.
Qed.

(** The loop over files on which the pipeline returns. *)
Lemma for_each_fit_ok (m : meta) (osubdir : string) (files : list string) (w : world) :
  let p := configure m osubdir (Coron1Pipeline e) in
  Forall (fun h => h.1 < handlers_made w) (handlers w) ->
  (∀ f, f ∈ files -> run e p f = inr ()) ->
  ∃ w',
    for_each files (fit e m osubdir) w = (inr (), w')
    ∧ runs w' = runs w ++ ((fun f => (p, f)) <$> files)
    ∧ handlers w' = handlers w
    ∧ handlers_made w' = handlers_made w + length files
    ∧ length (log_files w') = length (log_files w) + length files
    ∧ dirs w ⊆ dirs w'.
Proof.
  intros p. revert w. induction files as [|f files IH]; intros w Hinv Hok.
  - exists w. cbn. rewrite app_nil_r, !Nat.add_0_r. done.
  - destruct (fit_run m osubdir f w Hinv) as (ds & lg & Hfit & Hds).
    fold p in Hfit. rewrite (Hok f) in Hfit by set_solver.
    set (w1 := World _ _ _ _ _ _) in Hfit.
    destruct (IH w1) as (w' & Hloop & Hruns & Hh & Hm & Hl & Hd).
    { unfold w1. cbn. eapply Forall_impl; [exact Hinv|]. intros h Hlt. simpl in *. lia. }
    { intros f' Hf'. apply Hok. set_solver. }
    exists w'. split.
    { cbn [for_each]. unfold bind. now rewrite Hfit. }
    unfold w1 in *. cbn [runs handlers handlers_made log_files dirs] in *.
    rewrite Hruns, Hh, Hm, Hl, length_app. cbn.
    rewrite <- app_assoc. repeat split; try done; try lia. set_solver.
Qed.

(** The loop up to the first file on which the pipeline raises. *)
Lemma for_each_fit_raise (m : meta) (osubdir : string) (before after : list string)
    (f : string) (exc : error) (w : world) :
  let p := configure m osubdir (Coron1Pipeline e) in
  Forall (fun h => h.1 < handlers_made w) (handlers w) ->
  (∀ f', f' ∈ before -> run e p f' = inr ()) ->
  run e p f = inl exc ->
  ∃ w',
    for_each (before ++ f :: after) (fit e m osubdir) w
    = (inl (RuntimeError ("Caugh exception during pipeline processing."
                          +:+ String "010" "Exception: " +:+ message exc)), w')
    ∧ runs w' = runs w ++ ((fun f => (p, f)) <$> before ++ [f])
    ∧ handlers w' = handlers w.
Proof.
  intros p. revert w. induction before as [|b before IH]; intros w Hinv Hok Hexc.
  - destruct (fit_run m osubdir f w Hinv) as (ds & lg & Hfit & Hds).
    fold p in Hfit. rewrite Hexc in Hfit. eexists. split.
    { cbn [app for_each]. unfold bind. rewrite Hfit. reflexivity. }
    done.
  - destruct (fit_run m osubdir b w Hinv) as (ds & lg & Hfit & Hds).
    fold p in Hfit. rewrite (Hok b) in Hfit by set_solver.
    set (w1 := World _ _ _ _ _ _) in Hfit.
    destruct (IH w1) as (w' & Hloop & Hruns & Hh).
    { unfold w1. cbn. eapply Forall_impl; [exact Hinv|]. intros h Hlt. simpl in *. lia. }
    { intros f' Hf'. apply Hok. set_solver. }
    { done. }
    exists w'. split.
    { cbn [app for_each]. unfold bind. now rewrite Hfit. }
    unfold w1 in *. cbn [runs handlers] in *. rewrite Hruns, Hh.
    split; [|done]. cbn. now rewrite <- app_assoc.
Qed.

End Run.

(** The pipeline that [configure] sets up. *)
Lemma configure_pipe (m : meta) (osubdir : string) (p : coron1) :
  let q := configure m osubdir p in
  grow_diagonal (pipe q) = grow_diagonal (pipe p)
  ∧ nrow_ref (pipe q)
    = match meta_grow_diagonal m with
      | Some b => Z.b2z b
      | None => default (nrow_ref (pipe p)) (meta_nrow_ref m)
      end
  ∧ steps (pipe q) !! "saturation" = steps (pipe p) !! "saturation"
  ∧ steps (pipe q) !! "persistence" = with_skip true <$> steps (pipe p) !! "persistence"
  ∧ pipe_save_results q = true
  ∧ pipe_output_dir (pipe q) = Some (odir m +:+ osubdir)
  ∧ saved (pipe q) = saved (pipe p).
Proof.
  destruct m as [ext od sj sd si jt mc nr gd sb smi ri rb id bs br].
  destruct sj, sd, si, jt, mc, nr, gd, sb, smi; cbn.
  all: rewrite lookup_alter_eq, ?lookup_alter_ne by done.
  all: done.
Qed.

End FitFacts.

(** ** Properties of [run_ramp_fitting] *)

Module FitSpec.

Import DQ Ramp RampFacts Fit FitFacts.

(** X24.  Whatever [meta] holds, every pipeline that [run_ramp_fitting]
    runs is run on a file that [glob] found and has [grow_diagonal] at its
    default, false: [meta.grow_diagonal] is assigned to [nrow_ref], as 1 or
    0, and overrides [meta.nrow_ref]; without it [nrow_ref] is
    [meta.nrow_ref], or the default 20.  The step [saturation] is the one of
    a new pipeline, [meta.sat_boundary] changing nothing; the step
    [persistence] is skipped; [save_results] is set and the output
    directory is [meta.odir + osubdir]. *)
Theorem run_ramp_fitting_never_sets_grow_diagonal (e : env) (m : meta)
    (idir osubdir : string) (w : world) :
  ∃ new,
    runs (run_ramp_fitting e m idir osubdir w).2 = runs w ++ new
    ∧ ∀ p file, (p, file) ∈ new ->
        file ∈ glob e (idir +:+ "*" +:+ ramp_ext m)
        ∧ grow_diagonal (pipe p) = false
        ∧ nrow_ref (pipe p)
          = match meta_grow_diagonal m with
            | Some b => Z.b2z b
            | None => default 20%Z (meta_nrow_ref m)
            end
        ∧ steps (pipe p) !! "saturation" = step_defaults e !! "saturation"
        ∧ skip <$> steps (pipe p) !! "persistence"
          = (fun _ => true) <$> step_defaults e !! "persistence"
        ∧ pipe_save_results p = true
        ∧ pipe_output_dir (pipe p) = Some (odir m +:+ osubdir).
Proof.
  unfold run_ramp_fitting.
  destruct (length (glob e (idir +:+ "*" +:+ ramp_ext m)) =? 0)%nat.
  { exists []. split; [now rewrite app_nil_r|]. intros p file Hin.
    now apply elem_of_nil in Hin. }
  destruct (for_each_fit_runs e m osubdir (glob e (idir +:+ "*" +:+ ramp_ext m)) w)
    as (ran & Hruns & Hsub).
  eexists. split; [exact Hruns|]. intros p file Hin.
  apply list_elem_of_fmap in Hin as (f & [= -> ->] & Hf).
  split; [now apply Hsub|].
  pose proof (configure_pipe m osubdir (Coron1Pipeline e)) as Hc. cbv zeta in Hc.
  destruct Hc as (Hg & Hn & Hs & Hp & Hr & Ho & _).
  repeat split; try done.
  rewrite Hp. cbn [Coron1Pipeline pipe steps].
  now destruct (step_defaults e !! "persistence").
Qed.

(** X25.  [run_ramp_fitting] raises [ValueError] when [glob] finds no file,
    and has then done nothing.  Otherwise it runs the pipeline on the files
    in the order of [glob], each with a log file and a handler of its own.
    If the pipeline returns on every file, it returns; at the first file on
    which the pipeline raises, it raises [RuntimeError] with the message of
    the exception, and the files after it are not run.  In each case the
    root logger has the handlers it had. *)
Theorem run_ramp_fitting_stops_at_the_first_failure (e : env) (m : meta)
    (idir osubdir : string) (w : world) :
  Forall (fun h => h.1 < handlers_made w) (handlers w) ->
  let search := "*" +:+ ramp_ext m in
  let files := glob e (idir +:+ search) in
  let p := configure m osubdir (Coron1Pipeline e) in
  (files = [] ->
   run_ramp_fitting e m idir osubdir w
   = (inl (ValueError ("Unable to locate any " +:+ search +:+ " files in directory "
                       +:+ idir)), w))
  ∧ (files ≠ [] -> (∀ f, f ∈ files -> run e p f = inr ()) ->
     ∃ w',
       run_ramp_fitting e m idir osubdir w = (inr (), w')
       ∧ runs w' = runs w ++ ((fun f => (p, f)) <$> files)
       ∧ length (log_files w') = length (log_files w) + length files
       ∧ handlers w' = handlers w)
  ∧ (∀ before f after exc,
       files = before ++ f :: after ->
       (∀ f', f' ∈ before -> run e p f' = inr ()) ->
       run e p f = inl exc ->
       ∃ w',
         run_ramp_fitting e m idir osubdir w
         = (inl (RuntimeError ("Caugh exception during pipeline processing."
                               +:+ String "010" "Exception: " +:+ message exc)), w')
         ∧ runs w' = runs w ++ ((fun f => (p, f)) <$> before ++ [f])
         ∧ handlers w' = handlers w).
Proof.
  intros Hinv search files p. unfold run_ramp_fitting. fold search. fold files.
  split; [|split].
  - intros ->. reflexivity.
  - intros Hne Hok.
    destruct (for_each_fit_ok e m osubdir files w Hinv Hok)
      as (w' & Hloop & Hruns & Hh & _ & Hl & _).
    exists w'. destruct files; [done|]. cbn [length Nat.eqb]. done.
  - intros before f after exc Hfiles Hok Hexc.
    destruct (for_each_fit_raise e m osubdir before after f exc w Hinv Hok Hexc)
      as (w' & Hloop & Hruns & Hh).
    exists w'. rewrite Hfiles.
    destruct before; cbn [app length Nat.eqb]; done.
Qed.

(** In the sample [meta] asks for four reference rows and the growth along
    the diagonals: the pipelines that are run have one reference row and do
    not grow along the diagonals. *)
Lemma run_ramp_fitting_never_sets_grow_diagonal_witness :
  ∃ p1 p2,
    runs (run_ramp_fitting FitSample.env FitSample.meta "in/" "RAMPFIT/SCI+REF/"
            FitSample.start).2
    = [(p1, "in/a_uncal.fits"); (p2, "in/b_uncal.fits")]
    ∧ grow_diagonal (pipe p1) = false ∧ nrow_ref (pipe p1) = 1%Z.
Proof.
  destruct (run_ramp_fitting_never_sets_grow_diagonal FitSample.env FitSample.meta "in/"
              "RAMPFIT/SCI+REF/" FitSample.start) as (new & Hruns & Hnew).
  set (p := configure FitSample.meta "RAMPFIT/SCI+REF/" (Coron1Pipeline FitSample.env)).
  assert (Hr : runs (run_ramp_fitting FitSample.env FitSample.meta "in/"
                       "RAMPFIT/SCI+REF/" FitSample.start).2
               = [(p, "in/a_uncal.fits"); (p, "in/b_uncal.fits")]) by reflexivity.
  exists p, p. split; [exact Hr|].
  rewrite Hr in Hruns. cbn [FitSample.start runs app] in Hruns. subst new.
  destruct (Hnew p "in/a_uncal.fits") as (_ & Hg & Hn & _); [left|].
  split; [exact Hg | exact Hn].
Defined.

(** In the sample the pipeline raises on the second of the two files. *)
Lemma run_ramp_fitting_stops_at_the_first_failure_witness :
  ∃ w',
    run_ramp_fitting FitSample.env FitSample.meta "in/" "RAMPFIT/SCI+REF/" FitSample.start
    = (inl (RuntimeError ("Caugh exception during pipeline processing."
                          +:+ String "010" "Exception: no reference file")), w')
    ∧ length (runs w') = 2 ∧ handlers w' = [].
Proof.
  assert (Hinv : Forall (fun h : nat * string => h.1 < handlers_made FitSample.start)
                   (handlers FitSample.start)) by constructor.
  pose proof (run_ramp_fitting_stops_at_the_first_failure FitSample.env FitSample.meta
                "in/" "RAMPFIT/SCI+REF/" FitSample.start Hinv) as H.
  cbv zeta in H. destruct H as (_ & _ & H).
  destruct (H ["in/a_uncal.fits"] "in/b_uncal.fits" [] (StepFailed "no reference file"))
    as (w' & Hrun & Hruns & Hh).
  - reflexivity.
  - intros f Hf. apply list_elem_of_singleton in Hf as ->. reflexivity.
  - reflexivity.
  - exists w'. split; [exact Hrun|]. split; [now rewrite Hruns | exact Hh].
Defined.

End FitSpec.

(** ** Pieces of a string *)

Module StrFacts.

Import KeyName Str.

Lemma split_cons (c : ascii) (s : string) : ∃ piece pieces, split c s = piece :: pieces.
Proof.
  destruct s as [|a rest]; simpl; [now eexists _, _|].
  destruct (Ascii.eqb a c); [now eexists _, _|].
  destruct (split c rest); now eexists _, _.
Qed.

Lemma contains_prefix (needle s : string) :
  String.prefix needle s = true -> contains needle s = true.
Proof. intros H. destruct s; simpl in *; now rewrite H. Qed.

Lemma contains_tail (needle : string) (a : ascii) (s : string) :
  contains needle s = true -> contains needle (String a s) = true.
Proof. intros H. cbn [contains]. rewrite H. apply orb_true_r. Qed.

(** A prefix without separator lies in the first piece. *)
Lemma prefix_first_piece (c : ascii) (needle s : string) :
  occurs c needle = false -> String.prefix needle s = true ->
  ∃ piece pieces, split c s = piece :: pieces ∧ String.prefix needle piece = true.
Proof.
  revert needle. induction s as [|a rest IH]; intros needle Hfree Hpre.
  - exists EmptyString, []. split; [done|]. now destruct needle.
  - destruct needle as [|b needle'].
    { destruct (split_cons c (String a rest)) as (p & ps & Hs).
      exists p, ps. split; [done|]. now destruct p. }
    simpl in Hpre, Hfree. destruct (ascii_dec b a) as [->|]; [|done].
    apply orb_false_elim in Hfree as [Hac Hfree].
    destruct (IH needle' Hfree Hpre) as (p & ps & Hs & Hp).
    exists (String a p), ps. simpl. rewrite Hac, Hs. split; [done|].
    now destruct (ascii_dec a a).
Qed.

(** A substring without separator lies in one of the pieces. *)
Lemma contains_piece (c : ascii) (needle s : string) :
  occurs c needle = false -> contains needle s = true ->
  ∃ piece, piece ∈ split c s ∧ contains needle piece = true.
Proof.
  intros Hfree. induction s as [|a rest IH]; intros Hin.
  - exists EmptyString. split; [left | done].
  - cbn [contains] in Hin. apply orb_true_iff in Hin as [Hpre|Hrest].
    + destruct (prefix_first_piece c needle _ Hfree Hpre) as (p & ps & Hs & Hp).
      exists p. rewrite Hs. split; [left | now apply contains_prefix].
    + destruct (IH Hrest) as (q & Hq & Hcq). cbn [split].
      destruct (Ascii.eqb a c); [exists q; split; [now right | done]|].
      destruct (split c rest) as [|p ps]; [now apply elem_of_nil in Hq|].
      apply elem_of_cons in Hq as [->|Hq].
      * exists (String a p). split; [left | now apply contains_tail].
      * exists q. split; [now right | done].
Qed.

(** The loop that looks for the first piece with a substring finds one. *)
Lemma find_piece (c : ascii) (needle s : string) :
  occurs c needle = false -> contains needle s = true ->
  ∃ piece, find (contains needle) (split c s) = Some piece
           ∧ piece ∈ split c s ∧ contains needle piece = true.
Proof.
  intros Hfree Hin. destruct (contains_piece c needle s Hfree Hin) as (q & Hq & Hcq).
  destruct (find (contains needle) (split c s)) as [piece|] eqn:Hfind.
  - apply find_some in Hfind as [Hp Hcp]. exists piece.
    split; [done|]. split; [now apply list_elem_of_In | done].
  - apply list_elem_of_In in Hq. pose proof (find_none _ _ Hfind q Hq). congruence.
Qed.

End StrFacts.

(** ** The largest pixel and the science rows *)

Module PsfFacts.

Import F64Facts Plane DQFacts Psf.

(** The scan of [np.argmax]: [mp] is the largest of the numbers before, none
    of which is NaN. *)
Lemma argmax_from_spec (l pre : list float) (mp : float) (best : nat) :
  pre !! best = Some mp -> is_nan mp = false ->
  (∀ v, v ∈ pre -> (v <=? mp)%float = true) ->
  ∃ m, (pre ++ l) !! argmax_from mp best (length pre) l = Some m
       ∧ (is_nan m = true ∨ ∀ v, v ∈ pre ++ l -> (v <=? m)%float = true).
Proof.
  revert pre mp best. induction l as [|x rest IH]; intros pre mp best Hbest Hmp Hle.
  - exists mp. rewrite app_nil_r. split; [done|]. now right.
  - cbn [argmax_from]. destruct (x <=? mp)%float eqn:Hx; cbn [negb].
    + destruct (IH (pre ++ [x]) mp best) as (m & Hm & Hmax).
      * now apply lookup_app_l_Some.
      * done.
      * intros v Hv. apply elem_of_app in Hv as [Hv|Hv]; [now apply Hle|].
        now apply list_elem_of_singleton in Hv as ->.
      * exists m. rewrite length_app, Nat.add_1_r, <- app_assoc in Hm.
        split; [done|]. now rewrite <- app_assoc in Hmax.
    + destruct (is_nan x) eqn:Hnan.
      * exists x. split; [|now left]. now rewrite list_lookup_middle.
      * assert (Hlt : (mp <=? x)%float = true).
        { apply ltb_leb. now apply not_leb_ltb. }
        destruct (IH (pre ++ [x]) x (length pre)) as (m & Hm & Hmax).
        -- now rewrite list_lookup_middle.
        -- done.
        -- intros v Hv. apply elem_of_app in Hv as [Hv|Hv].
           ++ apply leb_trans with mp; [now apply Hle | done].
           ++ apply list_elem_of_singleton in Hv as ->. now apply leb_refl.
        -- exists m. rewrite length_app, Nat.add_1_r, <- app_assoc in Hm.
           split; [done|]. now rewrite <- app_assoc in Hmax.
Qed.

(** [np.argmax] returns the place of a NaN or of a largest number. *)
Lemma argmax_spec (l : list float) :
  l ≠ [] ->
  ∃ i m, argmax l = inr i ∧ l !! i = Some m
         ∧ (is_nan m = true ∨ ∀ v, v ∈ l -> (v <=? m)%float = true).
Proof.
  destruct l as [|x rest]; [done|]. intros _. cbn [argmax].
  destruct (is_nan x) eqn:Hnan.
  - exists 0, x. split; [done|]. split; [done|]. now left.
  - destruct (argmax_from_spec rest [x] x 0 eq_refl Hnan) as (m & Hm & Hmax).
    + intros v Hv. apply list_elem_of_singleton in Hv as ->. now apply leb_refl.
    + eexists _, m. split; [reflexivity|]. split; [exact Hm | exact Hmax].
Qed.

(** The flat index of a pixel of an image. *)
Lemma lookup_concat_rect {A : Type} (W : nat) (a : list (list A)) (i : nat) :
  W ≠ 0 -> Forall (fun row => length row = W) a ->
  concat a !! i = at2 a (i / W) (i mod W).
Proof.
  intros HW Hall. revert i. induction Hall as [|row a Hrow _ IH]; intros i.
  - done.
  - cbn [concat]. destruct (decide (i < W)) as [Hi|Hi].
    + rewrite lookup_app_l by lia. now rewrite Nat.div_small, Nat.mod_small.
    + rewrite lookup_app_r by lia. rewrite Hrow, IH.
      destruct (Nat.le_exists_sub W i) as (j & -> & _); [lia|].
      rewrite Nat.add_sub. replace (j + W) with (j + 1 * W) by lia.
      rewrite Nat.div_add, Nat.Div0.mod_add by done.
      unfold at2. now rewrite Nat.add_1_r.
Qed.

Lemma at2_elem_of_concat {A : Type} (a : list (list A)) (y x : nat) (v : A) :
  at2 a y x = Some v -> v ∈ concat a.
Proof.
  unfold at2. destruct (a !! y) as [row|] eqn:Hrow; [|done]. intros Hv.
  apply list_elem_of_lookup_2 in Hrow, Hv.
  apply list_elem_of_In, in_concat. exists row.
  split; now apply list_elem_of_In.
Qed.

(** The pixels of an image rolled along both axes. *)
Lemma at2_roll2 {A : Type} (H W : nat) (dx dy : Z) (a : list (list A)) (y x : nat) :
  plane_of H W a -> y < H -> x < W ->
  at2 (DQ.roll dy (DQ.roll dx <$> a)) y x
  = at2 a (Z.to_nat ((Z.of_nat y - dy) mod Z.of_nat H))
      (Z.to_nat ((Z.of_nat x - dx) mod Z.of_nat W)).
Proof.
  intros Hp Hy Hx.
  assert (Hq : plane_of H W (DQ.roll dx <$> a)).
  { apply plane_of_fmap; [apply length_roll | done]. }
  rewrite (at2_roll_rows H W) by done.
  apply (at2_roll_last H W); [done | | done].
  pose proof (Z.mod_pos_bound (Z.of_nat y - dy) (Z.of_nat H)). lia.
Qed.

Lemma plane_of_roll2 (H W : nat) (dx dy : Z) (a : image) :
  plane_of H W a -> plane_of H W (roll2 dx dy a).
Proof.
  intros Hp. apply plane_of_roll_rows, plane_of_fmap; [apply length_roll | done].
Qed.

Lemma filter_none {A : Type} (P : A -> Prop) `{!∀ x, Decision (P x)} (l : list A) :
  (∀ x, x ∈ l -> ¬ P x) -> filter P l = [].
Proof.
  induction l as [|x l IH]; intros Hl; [done|].
  rewrite filter_cons_False by (apply Hl; left). apply IH.
  intros y Hy. apply Hl. now right.
Qed.

(** The science rows. *)
Lemma where_sci_rows (pre obs : list row) :
  omap (fun j => (pre ++ obs) !! j) (where_sci (length pre) obs)
  = filter (fun r => TYPE r = "SCI") obs.
Proof.
  revert pre. induction obs as [|r obs IH]; intros pre; [done|].
  cbn [where_sci]. specialize (IH (pre ++ [r])).
  rewrite length_app, Nat.add_1_r, <- app_assoc in IH. cbn [app] in IH.
  case_bool_decide as Hr.
  - rewrite filter_cons_True by done. cbn [omap list_omap].
    now rewrite list_lookup_middle, IH.
  - now rewrite filter_cons_False.
Qed.

Lemma where_sci_head (pre obs : list row) :
  match where_sci (length pre) obs with
  | [] => filter (fun r => TYPE r = "SCI") obs = []
  | j :: _ => (pre ++ obs) !! j = head (filter (fun r => TYPE r = "SCI") obs)
              ∧ is_Some ((pre ++ obs) !! j)
  end.
Proof.
  revert pre. induction obs as [|r obs IH]; intros pre; [done|].
  cbn [where_sci]. specialize (IH (pre ++ [r])).
  rewrite length_app, Nat.add_1_r, <- app_assoc in IH. cbn [app] in IH.
  case_bool_decide as Hr.
  - rewrite filter_cons_True by done. now rewrite list_lookup_middle.
  - now rewrite filter_cons_False.
Qed.

(** The instrument is set up from the first science row. *)
Lemma webbpsf_inst_head (obs : list row) xyoff date :
  webbpsf_inst obs xyoff date
  = match head (filter (fun r => TYPE r = "SCI") obs) with
    | None => inl (IndexError "index 0 is out of bounds for axis 0 with size 0")
    | Some r => webbpsf_inst [r] xyoff date
    end.
Proof.
  pose proof (where_sci_head [] obs) as Hh. cbn [length app] in Hh.
  unfold webbpsf_inst at 1. destruct (where_sci 0 obs) as [|j rest].
  - now rewrite Hh.
  - destruct Hh as [Hj [r Hr]]. rewrite Hr in Hj. rewrite Hr, <- Hj.
    assert (Hsci : TYPE r = "SCI").
    { symmetry in Hj. apply head_Some_elem_of, list_elem_of_filter in Hj. tauto. }
    unfold webbpsf_inst. cbn [where_sci]. rewrite (bool_decide_eq_true_2 _ Hsci).
    reflexivity.
Qed.

End PsfFacts.

(** ** Properties of the masks of [JWST_PSF] *)

Module PsfSpec.

Import KeyName Str StrFacts F64Facts Plane DQFacts Psf PsfFacts.

(** X26.  The masks that [JWST_PSF.__init__] chooses for a NIRCam aperture
    whose name contains MASK (and not FULL_WEDGE): the image mask is the
    first piece of the name, split at the underscores, that contains MASK;
    there is one.  If that piece contains TA, the constructor raises
    [TypeError] (it sets the mask to [None] and then looks for FS in it): no
    TA aperture gets through, and [ND_acq] is never set.  Otherwise the
    pupil mask is CIRCLYOT for a mask that ends in R and WEDGELYOT for one
    that ends in B. *)
Theorem ta_apertures_raise (nrc mir : list string) (apername : string) :
  apername ∈ nrc -> contains "FULL_WEDGE" apername = false ->
  contains "MASK" apername = true ->
  ∃ piece,
    find (contains "MASK") (split "_" apername) = Some piece
    ∧ piece ∈ split "_" apername ∧ contains "MASK" piece = true
    ∧ (contains "TA" piece = true ->
       select_masks nrc mir apername
       = inl (TypeError "argument of type 'NoneType' is not iterable"))
    ∧ (contains "TA" piece = false -> last_char piece = Some "R"%char ->
       select_masks nrc mir apername
       = inr (Selection "NIRCAM" (Some piece) (Some "CIRCLYOT") (Some false)))
    ∧ (contains "TA" piece = false -> last_char piece = Some "B"%char ->
       select_masks nrc mir apername
       = inr (Selection "NIRCAM" (Some piece) (Some "WEDGELYOT") (Some false)))
    ∧ ∀ sel, select_masks nrc mir apername = inr sel -> ND_acq sel = Some false.
Proof.
  intros Hnrc Hfull Hmask.
  destruct (find_piece "_" "MASK" apername eq_refl Hmask) as (piece & Hfind & Hin & Hc).
  exists piece. repeat (split; [done|]).
  unfold select_masks. rewrite (bool_decide_eq_true_2 _ Hnrc).
  unfold nircam_masks. rewrite Hfull, Hmask, Hfind. cbn [negb].
  split; [now intros ->|]. split; [|split].
  - intros -> ->. reflexivity.
  - intros -> ->. reflexivity.
  - intros sel. destruct (contains "TA" piece); [done|].
    destruct (last_char piece) as [c|]; [|done].
    destruct (Ascii.eqb c "R"); [now intros [= <-]|].
    destruct (Ascii.eqb c "B"); [now intros [= <-] | done].
Qed.

(** The aperture of the target acquisition with the mask 335R. *)
Lemma ta_apertures_raise_witness :
  select_masks ["NRCA5_MASK335R"; "NRCA5_TAMASK335R"] ["MIRIM_MASK1065"] "NRCA5_TAMASK335R"
  = inl (TypeError "argument of type 'NoneType' is not iterable")
  ∧ select_masks ["NRCA5_MASK335R"; "NRCA5_TAMASK335R"] ["MIRIM_MASK1065"] "NRCA5_MASK335R"
    = inr (Selection "NIRCAM" (Some "MASK335R") (Some "CIRCLYOT") (Some false)).
Proof.
  split.
  - destruct (ta_apertures_raise ["NRCA5_MASK335R"; "NRCA5_TAMASK335R"] ["MIRIM_MASK1065"]
                "NRCA5_TAMASK335R") as (piece & Hfind & _ & _ & Hta & _).
    + right. left.
    + reflexivity.
    + reflexivity.
    + apply Hta. injection Hfind as <-. reflexivity.
  - destruct (ta_apertures_raise ["NRCA5_MASK335R"; "NRCA5_TAMASK335R"] ["MIRIM_MASK1065"]
                "NRCA5_MASK335R") as (piece & Hfind & _ & _ & _ & HR & _).
    + left.
    + reflexivity.
    + reflexivity.
    + injection Hfind as <-. apply HR; reflexivity.
Defined.

(** X27.  [JWST_PSF.__init__] does not return for an aperture without
    image mask: when it returns, the aperture is a NIRCam aperture whose
    name contains MASK, or a MIRI aperture (not in the NIRCam list) whose
    name contains 1065, 1140, 1550 or LYOT, and the object has an image
    mask.  For a NIRCam aperture without MASK in its name, and for a MIRI
    aperture without one of the four, the constructor raises [TypeError] at
    the test of the last letter of the mask once the instruments are set up,
    or before that what setting them up raises; an aperture of neither list
    raises [ValueError]. *)
Theorem init_needs_an_image_mask (nrc mir : list string) (ext : setup)
    (apername : string) :
  (∀ sel, init nrc mir ext apername = inr sel ->
     is_Some (image_mask sel)
     ∧ select_masks nrc mir apername = inr sel
     ∧ ((apername ∈ nrc ∧ contains "MASK" apername = true)
        ∨ ((apername ∉ nrc) ∧ apername ∈ mir
           ∧ (contains "1065" apername || contains "1140" apername
              || contains "1550" apername || contains "LYOT" apername) = true)))
  ∧ (apername ∈ nrc -> contains "FULL_WEDGE" apername = false ->
     contains "MASK" apername = false ->
     ∃ sel, select_masks nrc mir apername = inr sel ∧ image_mask sel = None
            ∧ init nrc mir ext apername
              = match instruments ext sel with
                | inl e => inl e
                | inr _ => inl (TypeError "'NoneType' object is not subscriptable")
                end)
  ∧ (apername ∉ nrc -> apername ∈ mir ->
     (contains "1065" apername || contains "1140" apername
      || contains "1550" apername || contains "LYOT" apername) = false ->
     ∃ sel, select_masks nrc mir apername = inr sel ∧ image_mask sel = None
            ∧ init nrc mir ext apername
              = match instruments ext sel with
                | inl e => inl e
                | inr _ => inl (TypeError "'NoneType' object is not subscriptable")
                end)
  ∧ (apername ∉ nrc -> apername ∉ mir ->
     init nrc mir ext apername
     = inl (ValueError "apername not found in NIRCam or MIRI SIAF lists")).
Proof.
  split; [|split; [|split]].
  - intros sel Hinit. unfold init in Hinit.
    destruct (select_masks nrc mir apername) as [e|sel'] eqn:Hsel; [done|].
    destruct (instruments ext sel'); [done|].
    destruct (image_mask sel') as [mask|] eqn:Hmask; [|done].
    destruct (last_char mask); [|done].
    destruct (psfs ext sel' _); [done|]. injection Hinit as <-.
    split; [now rewrite Hmask|]. split; [done|].
    unfold select_masks in Hsel. case_bool_decide as Hn.
    + left. split; [done|]. unfold nircam_masks in Hsel.
      destruct (contains "FULL_WEDGE" apername); [done|].
      destruct (contains "MASK" apername); [done|].
      cbn in Hsel. injection Hsel as <-. done.
    + right. split; [done|]. case_bool_decide as Hm; [|done]. split; [done|].
      injection Hsel as <-. unfold miri_masks in Hmask.
      destruct (contains "1065" apername); [done|].
      destruct (contains "1140" apername); [done|].
      destruct (contains "1550" apername); [done|].
      destruct (contains "LYOT" apername); done.
  - intros Hn Hfull Hmask. eexists. unfold init, select_masks.
    rewrite (bool_decide_eq_true_2 _ Hn). unfold nircam_masks. rewrite Hfull, Hmask.
    cbn [negb]. split; [reflexivity|]. split; [reflexivity|].
    now destruct (instruments ext _).
  - intros Hn Hm Hnone. eexists. unfold init, select_masks.
    rewrite (bool_decide_eq_false_2 _ Hn), (bool_decide_eq_true_2 _ Hm).
    unfold miri_masks.
    apply orb_false_elim in Hnone as [Hnone ->].
    apply orb_false_elim in Hnone as [Hnone ->].
    apply orb_false_elim in Hnone as [-> ->].
    split; [reflexivity|]. split; [reflexivity|].
    now destruct (instruments ext _).
  - intros Hn Hm. unfold init, select_masks.
    now rewrite (bool_decide_eq_false_2 _ Hn), (bool_decide_eq_false_2 _ Hm).
Qed.

(** The MIRI aperture of the target acquisition has no image mask. *)
Lemma init_needs_an_image_mask_witness :
  init ["NRCA5_MASK335R"] ["MIRIM_TAMRS"] (Setup (fun _ => inr ()) (fun _ _ => inr ()))
    "MIRIM_TAMRS"
  = inl (TypeError "'NoneType' object is not subscriptable").
Proof.
  destruct (init_needs_an_image_mask ["NRCA5_MASK335R"] ["MIRIM_TAMRS"]
              (Setup (fun _ => inr ()) (fun _ _ => inr ())) "MIRIM_TAMRS")
    as (_ & _ & Hmiri & _).
  destruct Hmiri as (sel & Hsel & _ & Hinit).
  - intros Hin. apply list_elem_of_singleton in Hin. discriminate.
  - left.
  - reflexivity.
  - rewrite Hinit. reflexivity.
Defined.

(** X28.  [gen_offsetpsf] reads the first science row of the table and no
    other: without a science row it raises [IndexError]; otherwise it
    returns what it returns on the table of that row alone, and raises
    [UserWarning] when the telescope of that row is not JWST or its
    instrument is none of NIRCAM, NIRISS and MIRI.  Without an offset the
    instrument has no image mask and no source offset: the PSF is not
    occulted. *)
Theorem gen_offsetpsf_reads_the_first_science_row (lib : library) (obs : list row)
    (xyoff : option (float * float)) (date source : option string) :
  ((∀ r, r ∈ obs -> TYPE r ≠ "SCI") ->
   gen_offsetpsf lib obs xyoff date source
   = inl (IndexError "index 0 is out of bounds for axis 0 with size 0"))
  ∧ (∀ before r after,
       obs = before ++ r :: after -> (∀ b, b ∈ before -> TYPE b ≠ "SCI") ->
       TYPE r = "SCI" ->
       gen_offsetpsf lib obs xyoff date source = gen_offsetpsf lib [r] xyoff date source
       ∧ (TELESCOP r ≠ "JWST" ->
          gen_offsetpsf lib obs xyoff date source
          = inl (UserWarning "Data originates from unknown telescope"))
       ∧ (TELESCOP r = "JWST" -> INSTRUME r ≠ "NIRCAM" -> INSTRUME r ≠ "NIRISS" ->
          INSTRUME r ≠ "MIRI" ->
          gen_offsetpsf lib obs xyoff date source
          = inl (UserWarning "Data originates from unknown JWST instrument")))
  ∧ (∀ inst, webbpsf_inst obs None date = inr inst ->
       inst_image_mask inst = None ∧ source_offset inst = None).
Proof.
  split; [|split].
  - intros Hnone. unfold gen_offsetpsf. rewrite webbpsf_inst_head.
    destruct (head _) as [r|] eqn:Hh; [|done].
    apply head_Some_elem_of, list_elem_of_filter in Hh as [Hsci Hin].
    now destruct (Hnone r Hin).
  - intros before r after -> Hbefore Hsci.
    assert (Hfirst : gen_offsetpsf lib (before ++ r :: after) xyoff date source
                     = gen_offsetpsf lib [r] xyoff date source).
    { unfold gen_offsetpsf at 1. rewrite webbpsf_inst_head.
      rewrite filter_app, filter_cons_True by done.
      now rewrite (filter_none _ before Hbefore). }
    split; [exact Hfirst|]. rewrite Hfirst. unfold gen_offsetpsf, webbpsf_inst.
    cbn [where_sci]. rewrite (bool_decide_eq_true_2 _ Hsci). cbn [lookup list_lookup].
    split.
    + intros Ht. now rewrite (bool_decide_eq_false_2 _ Ht).
    + intros Ht H1 H2 H3.
      now rewrite (bool_decide_eq_true_2 _ Ht), (bool_decide_eq_false_2 _ H1),
        (bool_decide_eq_false_2 _ H2), (bool_decide_eq_false_2 _ H3).
  - intros inst. unfold webbpsf_inst.
    destruct (where_sci 0 obs) as [|j rest]; [done|].
    destruct (obs !! j) as [r|]; [|done].
    repeat case_bool_decide; try done; now intros [= <-].
Qed.

(** X29.  With [recenter], and without [derotate], [get_offsetpsf] returns
    the shifted PSF rolled so that the pixel [(32, 32)] holds its largest
    value: on an image of more than 32 rows and columns, the pixel that
    [np.argmax] finds (the first NaN, or else a pixel that no other
    exceeds) is at [(32, 32)] of the result, and the result is the image
    moved cyclically along both axes, no pixel lost. *)
Theorem center_peak_moves_the_peak (a : image) (H W : nat) :
  plane_of H W a -> 32 < H -> 32 < W ->
  ∃ r m dy dx,
    center_peak a = inr r
    ∧ (∀ lib obs psf,
         gen_offsetpsf lib obs None None None = inr psf ->
         imshift lib psf (recenter_jens lib psf) = a ->
         get_offsetpsf lib obs true false = inr r)
    ∧ plane_of H W r
    ∧ at2 r 32 32 = Some m
    ∧ (is_nan m = true ∨ ∀ y x v, at2 a y x = Some v -> (v <=? m)%float = true)
    ∧ ∀ y x, y < H -> x < W ->
        at2 r y x
        = at2 a (Z.to_nat ((Z.of_nat y - dy) mod Z.of_nat H))
            (Z.to_nat ((Z.of_nat x - dx) mod Z.of_nat W)).
Proof.
  intros Hp HH HW. pose proof Hp as [Hlen Hrows].
  assert (Hne : concat a ≠ []).
  { destruct a as [|row a]; [simpl in Hlen; lia|].
    apply Forall_cons in Hrows as [Hrow _]. destruct row; [simpl in Hrow; lia | done]. }
  destruct (argmax_spec (concat a) Hne) as (i & m & Hi & Hm & Hmax).
  assert (HW2 : (shape2 a).2 = W).
  { destruct a as [|row a]; [simpl in Hlen; lia|].
    now apply Forall_cons in Hrows as [Hrow _]. }
  rewrite (lookup_concat_rect W) in Hm by (done || lia).
  destruct (at2_Some_lt H W a _ _ m Hp Hm) as [Hy0 Hx0].
  assert (Hmax' : is_nan m = true
                  ∨ ∀ y x v, at2 a y x = Some v -> (v <=? m)%float = true).
  { destruct Hmax as [Hn|Hmax]; [now left|]. right. intros y x v Hv.
    apply Hmax. now apply (at2_elem_of_concat a y x). }
  assert (Hcp : center_peak a
                = inr (if negb (bool_decide ((i / W, i mod W) = (32, 32)))
                       then roll2 (32 - Z.of_nat (i mod W)) (32 - Z.of_nat (i / W)) a
                       else a)).
  { unfold center_peak. rewrite Hi, HW2. cbn [fst snd]. now destruct (negb _). }
  case_bool_decide as Hww; cbn [negb] in Hcp.
  - injection Hww as Hy Hx. exists a, m, 0%Z, 0%Z. split; [done|]. split.
    { intros lib obs psf Hgen Hshift. unfold get_offsetpsf. now rewrite Hgen, Hshift, Hcp. }
    split; [done|]. split; [now rewrite Hy, Hx in Hm|]. split; [done|].
    intros y x Hy' Hx'. rewrite !Z.sub_0_r, !Z.mod_small by lia.
    now rewrite !Nat2Z.id.
  - exists (roll2 (32 - Z.of_nat (i mod W)) (32 - Z.of_nat (i / W)) a), m,
      (32 - Z.of_nat (i / W))%Z, (32 - Z.of_nat (i mod W))%Z.
    split; [done|]. split.
    { intros lib obs psf Hgen Hshift. unfold get_offsetpsf. now rewrite Hgen, Hshift, Hcp. }
    split; [now apply plane_of_roll2|]. split; [|split; [done|]].
    + unfold roll2. rewrite (at2_roll2 H W) by (done || lia).
      replace (Z.of_nat 32 - (32 - Z.of_nat (i / W)))%Z with (Z.of_nat (i / W)) by lia.
      replace (Z.of_nat 32 - (32 - Z.of_nat (i mod W)))%Z with (Z.of_nat (i mod W)) by lia.
      rewrite !Z.mod_small by lia. now rewrite !Nat2Z.id.
    + intros y x Hy Hx. unfold roll2. now apply (at2_roll2 H W).
Qed.

(** The spot of the sample is moved from [(3, 5)] to [(32, 32)]. *)
Lemma center_peak_moves_the_peak_witness :
  ∃ r, center_peak PsfSample.spot = inr r
       ∧ at2 PsfSample.spot 3 5 = Some 1%float
       ∧ at2 r 32 32 = Some 1%float
       ∧ at2 r 3 5 = Some 0%float.
Proof.
  assert (Hp : plane_of 33 33 PsfSample.spot) by (split; [done | repeat constructor]).
  destruct (center_peak_moves_the_peak PsfSample.spot 33 33 Hp)
    as (r & m & dy & dx & Hr & _); [lia | lia |].
  exists r. split; [exact Hr|].
  assert (Hc : center_peak PsfSample.spot = inr (roll2 27 29 PsfSample.spot))
    by (vm_compute; reflexivity).
  rewrite Hc in Hr. injection Hr as <-.
  repeat split; vm_compute; reflexivity.
Defined.

(** X30.  [get_offsetpsf] ignores the rows of the table that are not
    science rows: it returns what it returns on the table of the science
    rows alone, whose exposure times weigh the derotated PSFs. *)
Theorem get_offsetpsf_ignores_the_other_rows (lib : library) (obs : list row)
    (recenter derotate : bool) :
  get_offsetpsf lib obs recenter derotate
  = get_offsetpsf lib (filter (fun r => TYPE r = "SCI") obs) recenter derotate
  ∧ (∀ obs', filter (fun r => TYPE r = "SCI") obs' = filter (fun r => TYPE r = "SCI") obs ->
       get_offsetpsf lib obs' recenter derotate = get_offsetpsf lib obs recenter derotate).
Proof.
  assert (Hsci : ∀ o, get_offsetpsf lib o recenter derotate
                      = get_offsetpsf lib (filter (fun r => TYPE r = "SCI") o) recenter
                          derotate).
  { intros o. unfold get_offsetpsf, gen_offsetpsf.
    rewrite (webbpsf_inst_head o), (webbpsf_inst_head (filter _ o)).
    rewrite list_filter_filter_l by done.
    pose proof (where_sci_rows [] o) as Ho.
    pose proof (where_sci_rows [] (filter (fun r => TYPE r = "SCI") o)) as Hf.
    cbn [length app] in Ho, Hf. rewrite Ho, Hf.
    rewrite list_filter_filter_l by done.
    reflexivity. }
  split; [apply Hsci|]. intros obs' Heq. now rewrite (Hsci obs'), Heq, <- Hsci.
Qed.

End PsfSpec.
